(** * openmensa-parser-berlin: a shallow embedding of the parser and its
      XML serializer, and the properties of the specification checked
      against it.

    Go strings are byte sequences: they are modelled by [string] (a list of
    [ascii], one per byte).  Slices are lists; a slice written through an
    index is a list updated with [<[i:=x]>], and the run-time panic of an
    out-of-range index is an explicit [Panic].  Panics, log lines and sleeps
    are explicit values of the result. *)

From Stdlib Require Import ZArith Ascii String List Sorted.
From stdpp Require Import base tactics option list sorting strings gmap.

(** ** Go strings *)

Module GoString.

(** [a < b] on Go strings: byte-wise lexicographic order. *)
Definition lt (a b : string) : bool := String.ltb a b.

(** The byte of a character as a number, [0 .. 255]. *)
Definition code (c : ascii) : Z := Z.of_N (N_of_ascii c).

(** [[]byte(s)] *)
Definition bytes (s : string) : list ascii := list_ascii_of_string s.

(** [string(bs)] *)
Definition of_bytes (bs : list ascii) : string := string_of_list_ascii bs.

(** [strings.ContainsRune(s, r)] for an ASCII rune [r]: one byte. *)
Fixpoint contains_byte (c : ascii) (s : string) : bool :=
  match s with
  | EmptyString => false
  | String x s' => if Ascii.eqb x c then true else contains_byte c s'
  end.

(** [strings.Replace(s, old, new, 1)] for one-byte [old] and [new]: only
    the first occurrence is replaced. *)
Fixpoint replace_first (old new : ascii) (s : string) : string :=
  match s with
  | EmptyString => EmptyString
  | String x s' =>
      if Ascii.eqb x old then String new s'
      else String x (replace_first old new s')
  end.

(** [strings.Join(l, sep)] *)
Fixpoint join (l : list string) (sep : string) : string :=
  match l with
  | [] => ""
  | [x] => x
  | x :: l' => x +:+ sep +:+ join l' sep
  end.

End GoString.

(** ** Results of code that can panic *)

Inductive result (A : Type) : Type :=
| Ok (x : A)
| Panic (msg : string).
Arguments Ok {A} x.
Arguments Panic {A} msg.

Global Instance result_ret : MRet result := λ A x, Ok x.
Global Instance result_bind : MBind result := λ A B k r,
  match r with
  | Ok x => k x
  | Panic msg => Panic msg
  end.

(** [s[i] = v] on a slice: a run-time panic when [i] is out of range. *)
Definition store {A} (s : list A) (i : nat) (v : A) : result (list A) :=
  if decide (i < length s) then Ok (<[i:=v]> s)
  else Panic "index out of range".

(** ** github.com/mpvl/unique on a [StringSlice] *)

Module unique.

(** [sort.Sort(data)], with [Less(i, j) = p[i] < p[j]]: afterwards no
    element is smaller than one before it.  Equal strings are
    indistinguishable, so the result does not depend on the algorithm. *)
Definition sort_Sort (l : list string) : list string :=
  merge_sort String.le l.

(** [Unique(data)] followed by [Truncate]: of each block of adjacent equal
    elements of the sorted data, one is kept. *)
Fixpoint Unique (l : list string) : list string :=
  match l with
  | [] => []
  | x :: l' =>
      match l' with
      | [] => [x]
      | y :: _ => if decide (x = y) then Unique l' else x :: Unique l'
      end
  end.

(** [unique.Sort(unique.StringSlice{&l})] *)
Definition Sort (l : list string) : list string := Unique (sort_Sort l).

End unique.

(** ** The identifier catalog (README.md, the version with three id files) *)

Module Catalog.

(** The loops of [diff(a, b)].  The state [(i, j)] of the source is kept as
    the suffixes [a[i:]] and [b[j:]]; [d] is the buffer [diff], [k] its
    write index.  The first loop runs while both suffixes are non-empty;
    when [a] is exhausted the second loop copies the rest of [b]. *)
Fixpoint diff_copy (b : list string) (k : nat) (d : list string)
  : result (nat * list string) :=
  match b with
  | [] => Ok (k, d)
  | y :: b' => d' ← store d k y ; diff_copy b' (S k) d'
  end.

Fixpoint diff_loop (a b : list string) (k : nat) (d : list string)
  : result (nat * list string) :=
  match a with
  | [] => diff_copy b k d
  | x :: a' =>
      (fix go (b : list string) (k : nat) (d : list string) :=
         match b with
         | [] => Ok (k, d)
         | y :: b' =>
             if GoString.lt x y then diff_loop a' (y :: b') k d
             else if GoString.lt y x then
               d' ← store d k y ; go b' (S k) d'
             else diff_loop a' b' k d
         end) b k d
  end.

(** [diff(a, b)]: set difference (b \ a) of two sorted lists.
    [make([]string, len(b))] is a slice of empty strings. *)
Definition diff (a b : list string) : result (list string) :=
  r ← diff_loop a b 0 (replicate (length b) "") ;
  Ok (take r.1 r.2).

(** The identifier part of [main]: [fetched] is the result of
    [fetchIds()], [loaded] the contents of the [ids_all] file. *)
Record Ids := { idsCur : list string; idsArchive : list string; idsAll : list string }.

Definition reconcile (fetched loaded : list string) : result Ids :=
  let idsCur := unique.Sort fetched in
  let idsAll := unique.Sort (loaded ++ idsCur) in
  idsArchive ← diff idsCur idsAll ;
  Ok {| idsCur := idsCur; idsArchive := idsArchive; idsAll := idsAll |}.

End Catalog.

(** ** Specification-level notions used to state the properties *)

(** Strictly increasing in the order of Go strings: sorted, no duplicates. *)
Definition strictly_sorted (l : list string) : Prop :=
  StronglySorted (λ a b, GoString.lt a b = true) l.

(** The merge of [diff] without its buffer: what the loops emit, in order. *)
Fixpoint diff_list (a b : list string) : list string :=
  match a with
  | [] => b
  | x :: a' =>
      (fix go (b : list string) :=
         match b with
         | [] => []
         | y :: b' =>
             if GoString.lt x y then diff_list a' (y :: b')
             else if GoString.lt y x then y :: go b'
             else diff_list a' b'
         end) b
  end.

(** ** [strconv.Atoi] and the comparison of [sortStringInts] *)

Module strconv.

Definition is_digit (c : ascii) : bool :=
  (48 <=? GoString.code c)%Z && (GoString.code c <=? 57)%Z.

(** The digit loop [n = n*10 + (ch - '0')]; a byte that is no digit is a
    syntax error ([None]). *)
Fixpoint digits (n : Z) (s : string) : option Z :=
  match s with
  | EmptyString => Some n
  | String c r =>
      if is_digit c then digits (n * 10 + (GoString.code c - 48)) r
      else None
  end.

Definition maxInt : Z := 2 ^ 63 - 1.
Definition minInt : Z := - 2 ^ 63.

(** An optional sign, then at least one digit. *)
Definition parse (s : string) : option Z :=
  match s with
  | EmptyString => None
  | String c r =>
      if Ascii.eqb c "+" then
        match r with EmptyString => None | _ => digits 0 r end
      else if Ascii.eqb c "-" then
        match r with EmptyString => None | _ => Z.opp <$> digits 0 r end
      else digits 0 s
  end.

(** [strconv.Atoi(s)] on a 64-bit platform, as (value, error?).  A syntax
    error gives 0, a value out of range the nearest bound. *)
Definition Atoi (s : string) : Z * bool :=
  match parse s with
  | None => (0%Z, true)
  | Some v =>
      if (maxInt <? v)%Z then (maxInt, true)
      else if (v <? minInt)%Z then (minInt, true)
      else (v, false)
  end.

End strconv.

Module Ordering.

(** The [less] function that [sortStringInts] hands to [sort.Slice];
    conversion errors are dropped ([a, _ := strconv.Atoi(...)]).
    [main] never calls [sortStringInts]: it sorts with [unique.Sort]. *)
Definition sortStringInts_less (x y : string) : bool :=
  let a := (strconv.Atoi x).1 in
  let b := (strconv.Atoi y).1 in
  (a <? b)%Z.

End Ordering.

(** Sorted by numeric value, strictly. *)
Definition sorted_by_value (l : list string) : Prop :=
  StronglySorted (λ a b, Ordering.sortStringInts_less a b = true) l.

(** A string of decimal digits, as canteen identifiers are. *)
Definition numeric_string (s : string) : Prop :=
  s ≠ EmptyString ∧ Forall (λ c, strconv.is_digit c = true) (GoString.bytes s).

(** The number a string of digits denotes. *)
Fixpoint dval (s : string) : Z :=
  match s with
  | EmptyString => 0
  | String c r => (GoString.code c - 48) * 10 ^ Z.of_nat (String.length r) + dval r
  end.

(** ** [bufio.Writer] over a file, and [saveIds] *)

Module bufio.

(** [bufio.NewWriter] uses a buffer of [defaultBufSize] bytes. *)
Definition defaultBufSize : nat := 4096.

(** [out]: the bytes handed to the underlying file so far;
    [buf]: the pending bytes [b.buf[:b.n]]. *)
Record Writer := { out : list ascii; buf : list ascii }.

Definition NewWriter : Writer := {| out := []; buf := [] |}.

Definition Available (w : Writer) : nat := defaultBufSize - length (buf w).

Definition Flush (w : Writer) : Writer :=
  {| out := out w ++ buf w; buf := [] |}.

(** One test-and-body of the loop [for len(p) > b.Available()] of
    [Writer.Write]: with an empty buffer a large [p] goes to the file
    directly; otherwise the buffer is filled up and flushed. *)
Definition Write_iter (s : Writer * list ascii) : Writer * list ascii :=
  let '(w, p) := s in
  if decide (Available w < length p) then
    if decide (length (buf w) = 0) then
      ({| out := out w ++ p; buf := buf w |}, [])
    else
      let n := Available w in
      (Flush {| out := out w; buf := buf w ++ take n p |}, drop n p)
  else s.

(** [b.Write(p)]: the loop exits after at most two rounds (lemma
    [Write_loop_exits]); the rest of [p] is then copied to the buffer. *)
Definition Write (w : Writer) (p : list ascii) : Writer :=
  let '(w', p') := Write_iter (Write_iter (w, p)) in
  {| out := out w'; buf := buf w' ++ p' |}.

End bufio.

Module Persist.

Definition newline : ascii := ascii_of_nat 10.

(** Go errors: the [*os.PathError] of a failed [os.Create], and the value
    of [errors.New(msg)]. *)
Inductive error : Type :=
| PathError (path : string)
| errorString (msg : string).

(** The files of the working directory, and the paths at which
    [os.Create] fails (missing directory, no permission). *)
Record FS := { files : gmap string (list ascii); denied : gset string }.

(** The loop of [saveIds] over the identifiers: [inl w] is the return out
    of the loop with the validation error, [inr w] the normal exit; [w] is
    the writer at that moment.  [fmt.Fprintln(w, id)] is one [Write] of
    the identifier followed by a newline. *)
Fixpoint saveIds_loop (ids : list string) (w : bufio.Writer)
  : bufio.Writer + bufio.Writer :=
  match ids with
  | [] => inr w
  | id :: ids' =>
      if GoString.contains_byte newline id then inl w
      else saveIds_loop ids' (bufio.Write w (GoString.bytes id ++ [newline]))
  end.

(** [saveIds(&ids, filename)]: the error returned, if any, and the file
    system left behind.  [os.Create] truncates the file; the file then
    holds what the writer has handed to it when [saveIds] returns (the
    deferred [file.Close()] does not flush the [bufio.Writer]).  Errors of
    the writes themselves are outside the model, and so is the log line. *)
Definition saveIds (ids : list string) (filename : string) (fs : FS)
  : option error * FS :=
  if decide (filename ∈ denied fs) then (Some (PathError filename), fs)
  else
    let commit (w : bufio.Writer) :=
      {| files := <[filename := bufio.out w]> (files fs);
         denied := denied fs |} in
    match saveIds_loop ids bufio.NewWriter with
    | inl w => (Some (errorString "Id contains newline"), commit w)
    | inr w => (None, commit (bufio.Flush w))
    end.

End Persist.

(** All bytes given to a writer so far, in order. *)
Definition written (w : bufio.Writer) : list ascii :=
  bufio.out w ++ bufio.buf w.

(** An identifier that [saveIds] accepts: it contains no newline. *)
Definition valid_id (id : string) : Prop :=
  GoString.contains_byte Persist.newline id = false.

(** What "no partial write" means for the file [f] between the file system
    before and after a failed save: the file is as it was, or empty. *)
Definition no_partial_write (fs fs' : Persist.FS) (f : string) : Prop :=
  Persist.files fs' !! f = Persist.files fs !! f
  ∨ Persist.files fs' !! f = Some [].

(** The lines of an identifier file: each identifier, then a newline. *)
Definition id_lines (ids : list string) : list ascii :=
  concat ((λ id, GoString.bytes id ++ [Persist.newline]) <$> ids).

(** ** UTF-8 decoding, as [for _, c := range name] performs it *)

Module utf8.

Local Open Scope Z_scope.

(** The replacement character U+FFFD, the rune of an invalid sequence. *)
Definition RuneError : Z := 0xFFFD.

Definition between (lo hi b : Z) : bool := (lo <=? b) && (b <=? hi).

(** [utf8.DecodeRuneInString]: the rune at the start of [p] and its width
    in bytes.  An invalid or truncated sequence is [RuneError] of width 1. *)
Definition DecodeRune (p : list ascii) : Z * nat :=
  match p with
  | [] => (RuneError, 0%nat)
  | c0 :: p1 =>
      let b0 := GoString.code c0 in
      if b0 <? 0x80 then (b0, 1%nat)
      else if between 0xC2 0xDF b0 then
        match p1 with
        | c1 :: _ =>
            let b1 := GoString.code c1 in
            if between 0x80 0xBF b1 then
              (Z.lor (Z.shiftl (Z.land b0 0x1F) 6) (Z.land b1 0x3F), 2%nat)
            else (RuneError, 1%nat)
        | _ => (RuneError, 1%nat)
        end
      else if between 0xE0 0xEF b0 then
        let lo := if b0 =? 0xE0 then 0xA0 else 0x80 in
        let hi := if b0 =? 0xED then 0x9F else 0xBF in
        match p1 with
        | c1 :: c2 :: _ =>
            let b1 := GoString.code c1 in
            let b2 := GoString.code c2 in
            if between lo hi b1 && between 0x80 0xBF b2 then
              (Z.lor (Z.lor (Z.shiftl (Z.land b0 0x0F) 12)
                            (Z.shiftl (Z.land b1 0x3F) 6))
                     (Z.land b2 0x3F), 3%nat)
            else (RuneError, 1%nat)
        | _ => (RuneError, 1%nat)
        end
      else if between 0xF0 0xF4 b0 then
        let lo := if b0 =? 0xF0 then 0x90 else 0x80 in
        let hi := if b0 =? 0xF4 then 0x8F else 0xBF in
        match p1 with
        | c1 :: c2 :: c3 :: _ =>
            let b1 := GoString.code c1 in
            let b2 := GoString.code c2 in
            let b3 := GoString.code c3 in
            if between lo hi b1 && between 0x80 0xBF b2
               && between 0x80 0xBF b3 then
              (Z.lor (Z.lor (Z.lor (Z.shiftl (Z.land b0 0x07) 18)
                                   (Z.shiftl (Z.land b1 0x3F) 12))
                            (Z.shiftl (Z.land b2 0x3F) 6))
                     (Z.land b3 0x3F), 4%nat)
            else (RuneError, 1%nat)
        | _ => (RuneError, 1%nat)
        end
      else (RuneError, 1%nat)
  end.

(** The runes that [range] yields over the bytes [p], each with its
    width.  [skip] counts the bytes of the current rune still to pass. *)
Fixpoint range (p : list ascii) (skip : nat) : list (Z * nat) :=
  match p with
  | [] => []
  | _ :: p' =>
      match skip with
      | S k => range p' k
      | O => let rw := DecodeRune p in rw :: range p' (rw.2 - 1)
      end
  end.

End utf8.

(** ** Safe names (the catalog that maps identifiers to names) *)

Module SafeName.

Local Open Scope Z_scope.

(** [byte(c)] for a rune [c]: the low eight bits. *)
Definition byte (c : Z) : ascii := ascii_of_N (Z.to_N (c mod 256)).

(** [s[i]] on a slice: a run-time panic when [i] is out of range. *)
Definition load (s : list ascii) (i : nat) : result ascii :=
  match s !! i with
  | Some b => Ok b
  | None => Panic "index out of range"
  end.

(** The body of the loop over the runes of the name, on the state
    [(safeName, j)]. *)
Definition step (st : list ascii * nat) (c : Z) : result (list ascii * nat) :=
  let '(safeName, j) := st in
  if (97 <=? c) && (c <=? 122) || (48 <=? c) && (c <=? 57) then
    s ← store safeName j (byte c); Ok (s, S j)
  else if (65 <=? c) && (c <=? 90) then
    let c := c + (97 - 65) in
    s ← store safeName j (byte c); Ok (s, S j)
  else if c =? 0xE4 then                         (* 'ä' *)
    s ← store safeName j "a"%char;
    s ← store s (j + 1) "e"%char; Ok (s, (j + 2)%nat)
  else if c =? 0xF6 then                         (* 'ö' *)
    s ← store safeName j "o"%char;
    s ← store s (j + 1) "e"%char; Ok (s, (j + 2)%nat)
  else if c =? 0xFC then                         (* 'ü' *)
    s ← store safeName j "u"%char;
    s ← store s (j + 1) "e"%char; Ok (s, (j + 2)%nat)
  else if c =? 0xDF then                         (* 'ß' *)
    s ← store safeName j "s"%char;
    s ← store s (j + 1) "s"%char; Ok (s, (j + 2)%nat)
  else if c =? 0xE9 then                         (* 'é' *)
    s ← store safeName j "e"%char; Ok (s, S j)
  else
    match j with
    | O => Ok (safeName, j)
    | S j1 =>
        last ← load safeName j1;
        if Ascii.eqb last "_" then Ok (safeName, j)
        else s ← store safeName j "_"%char; Ok (s, S j)
    end.

Fixpoint loop (runes : list (Z * nat)) (st : list ascii * nat)
  : result (list ascii * nat) :=
  match runes with
  | [] => Ok st
  | (c, _) :: runes' => st' ← step st c; loop runes' st'
  end.

(** The name computed in [fetchIDs] for the display name [name]. *)
Definition safeName (name : string) : result string :=
  let p := GoString.bytes name in
  '(s, j) ← loop (utf8.range p 0) (replicate (length p) zero, O);
  j' ← match j with
       | O => Ok j
       | S j1 =>
           last ← load s j1;
           Ok (if Ascii.eqb last "_" then j1 else j)
       end;
  Ok (GoString.of_bytes (take j' s)).

End SafeName.

(** *** Safe names, by the words of the specification *)

Module SafeNameSpec.

Local Open Scope Z_scope.

(** What one rune of the display name becomes: lowercase letters and
    digits pass, uppercase ASCII letters are lowercased, ä ö ü ß é are
    transliterated; any other rune has no image. *)
Definition translit (c : Z) : option (list ascii) :=
  if (97 <=? c) && (c <=? 122) || (48 <=? c) && (c <=? 57) then
    Some [SafeName.byte c]
  else if (65 <=? c) && (c <=? 90) then Some [SafeName.byte (c + 32)]
  else if c =? 0xE4 then Some ["a"; "e"]%char
  else if c =? 0xF6 then Some ["o"; "e"]%char
  else if c =? 0xFC then Some ["u"; "e"]%char
  else if c =? 0xDF then Some ["s"; "s"]%char
  else if c =? 0xE9 then Some ["e"]%char
  else None.

(** The safe name of a sequence of runes: the images of the mapped runes,
    with one underscore for each maximal run of other runes that stands
    between two mapped runes.  [started]: a mapped rune has been seen;
    [pending]: a run of other runes has been seen since. *)
Fixpoint name (started pending : bool) (runes : list Z) : list ascii :=
  match runes with
  | [] => []
  | c :: runes' =>
      match translit c with
      | Some bs =>
          (if started && pending then ["_"%char] else [])
            ++ bs ++ name true false runes'
      | None => name started true runes'
      end
  end.

(** A byte of [a-z0-9]. *)
Definition alnum (b : ascii) : bool :=
  let n := GoString.code b in
  (97 <=? n) && (n <=? 122) || (48 <=? n) && (n <=? 57).

(** A byte of [a-z0-9_]. *)
Definition safe (b : ascii) : bool := alnum b || Ascii.eqb b "_".

(** No two underscores in a row. *)
Fixpoint single_underscores (l : list ascii) : bool :=
  match l with
  | x :: (y :: _) as l' =>
      negb (Ascii.eqb x "_" && Ascii.eqb y "_") && single_underscores l'
  | _ => true
  end.

(** The loop of the source without its buffer: what has been written
    after one more rune. *)
Definition eager (acc : list ascii) (c : Z) : list ascii :=
  match translit c with
  | Some bs => acc ++ bs
  | None =>
      match last acc with
      | Some x => if Ascii.eqb x "_" then acc else acc ++ ["_"%char]
      | None => acc
      end
  end.

Fixpoint eager_fold (runes : list Z) (acc : list ascii) : list ascii :=
  match runes with
  | [] => acc
  | c :: runes' => eager_fold runes' (eager acc c)
  end.

(** The final [if j > 0 && safeName[j-1] == '_' { j-- }]. *)
Definition strip (acc : list ascii) : list ascii :=
  match last acc with
  | Some x => if Ascii.eqb x "_" then take (length acc - 1) acc else acc
  | None => acc
  end.

(** The number of bytes a rune can add to the buffer. *)
Definition need (c : Z) : nat :=
  if (c =? 0xE4) || (c =? 0xF6) || (c =? 0xFC) || (c =? 0xDF) then 2%nat
  else 1%nat.

(** The bytes that a list of runes with their widths takes up. *)
Definition widths (l : list (Z * nat)) : nat := sum_list (snd <$> l).

(** The runes of a display name. *)
Definition runes (s : string) : list Z :=
  fst <$> utf8.range (GoString.bytes s) 0.

End SafeNameSpec.

(** ** The feed's data model (xml.go) *)

Record Price := { Price_Price : string; Price_Role : string }.

Record Meal := { Meal_Name : string; Meal_Notes : list string; Meal_Prices : list Price }.

Record Category := { Category_Name : string; Category_Meals : list Meal }.

Record Day := { Day_Date : string; Day_Categories : list Category }.

(** ** The regular expression [\d+,\d{2}] *)

Module regexp.

(** The longest run of digits at the start of [s], and what follows it. *)
Fixpoint span_digits (s : list ascii) : list ascii * list ascii :=
  match s with
  | c :: s' =>
      if strconv.is_digit c then
        let '(ds, rest) := span_digits s' in (c :: ds, rest)
      else ([], s)
  | [] => ([], [])
  end.

(** The match of [\d+,\d{2}] that starts at the first byte of [s], if
    there is one.  [\d] is an ASCII digit; [\d+] is greedy, and a shorter
    run of digits is followed by a digit, never by the comma, so that no
    other run can lead to a match. *)
Definition match_here (s : list ascii) : option (list ascii) :=
  match span_digits s with
  | ([], _) => None
  | (ds, c :: d1 :: d2 :: _) =>
      if Ascii.eqb c "," && strconv.is_digit d1 && strconv.is_digit d2
      then Some (ds ++ [c; d1; d2])
      else None
  | _ => None
  end.

(** The successive leftmost matches, none overlapping another.  [skip]
    counts the bytes of the last match still to pass. *)
Fixpoint find_all (s : list ascii) (skip : nat) : list (list ascii) :=
  match s with
  | [] => []
  | _ :: s' =>
      match skip with
      | S k => find_all s' k
      | O =>
          match match_here s with
          | Some m => m :: find_all s' (length m - 1)
          | None => find_all s' 0
          end
      end
  end.

(** [regexp.MustCompile(`\d+,\d{2}`).FindAllString(s, -1)] *)
Definition FindAllString (s : string) : list string :=
  GoString.of_bytes <$> find_all (GoString.bytes s) 0.

End regexp.

(** ** Prices of a meal (the regex-scan version of [getDay]) *)

Module Prices.

(** The line that [log.Printf] writes when the number of matches is not
    0, 1 or 3: canteen, meal name, number of matches, price text. *)
Record LogEntry :=
  { log_id : string; log_name : string; log_count : nat; log_prices : string }.

Definition pricesRoles : list string := ["student"; "employee"; "other"].

(** [a[i]] on an array: a run-time panic when [i] is out of range. *)
Definition index (a : list string) (i : nat) : result string :=
  match a !! i with
  | Some x => Ok x
  | None => Panic "index out of range"
  end.

(** [for j, price := range m { meal.Prices[j] = Price{...} }], from
    index [j] on. *)
Fixpoint tag (j : nat) (m : list string) : result (list Price) :=
  match m with
  | [] => Ok []
  | price :: m' =>
      role ← index pricesRoles j;
      rest ← tag (S j) m';
      Ok ({| Price_Price := GoString.replace_first "," "." price;
             Price_Role := role |} :: rest)
  end.

(** The [switch len(m)] on the matches [m] of the price text [prices] of
    the meal [name] of canteen [id]: the value of [meal.Prices] and the
    lines logged. *)
Definition extract (id name prices : string)
  : result (list Price * list LogEntry) :=
  let m := regexp.FindAllString prices in
  match length m with
  | 0 => Ok ([], [])
  | 1 =>
      m0 ← index m 0;
      Ok ([{| Price_Price := GoString.replace_first "," "." m0;
              Price_Role := "other" |}], [])
  | 3 => ps ← tag 0 m; Ok (ps, [])
  | n => Ok ([], [{| log_id := id; log_name := name; log_count := n;
                     log_prices := prices |}])
  end.

End Prices.

(** A decimal amount: digits, the separator [sep], two digits. *)
Definition decimal (sep : ascii) (s : string) : Prop :=
  ∃ (ds : list ascii) (d1 d2 : ascii),
    s = GoString.of_bytes (ds ++ [sep; d1; d2])
    ∧ ds ≠ []
    ∧ Forall (λ c, strconv.is_digit c = true) ds
    ∧ strconv.is_digit d1 = true ∧ strconv.is_digit d2 = true.

(** ** encoding/xml *)

Module xml.

(** The document that the encoder writes, as a tree: [e.EncodeToken] of a
    start element, the encodings of the children, and [e.EncodeToken] of
    the matching end element make one [Element].  Indentation is not part
    of the tree, and errors of the underlying writer are outside the
    model. *)
#[warnings="-register-all"]
Inductive Node : Type :=
| Element (name : string) (attrs : list (string * string)) (children : list Node)
| CharData (text : string).

(** Character data: nothing is written for the empty string. *)
Definition text (s : string) : list Node :=
  if decide (s = EmptyString) then [] else [CharData s].

(** [xml.StartElement]: a name and attributes. *)
Record StartElement := { Name : string; Attr : list (string * string) }.

(** The encoding of a [Price] by its struct tags: element [price],
    attribute [role], the amount as character data. *)
Definition marshal_Price (p : Price) : Node :=
  Element "price" [("role", Price_Role p)] (text (Price_Price p)).

(** The encoding of a [Meal] by its struct tags: [name], then one [note]
    per note, then the prices. *)
Definition marshal_Meal (m : Meal) : Node :=
  Element "meal" []
    ([Element "name" [] (text (Meal_Name m))]
     ++ ((λ n, Element "note" [] (text n)) <$> Meal_Notes m)
     ++ (marshal_Price <$> Meal_Prices m)).

(** The encoding of a [Category] by its struct tags, which is what the
    encoder uses for a value without [MarshalXML] in its method set:
    element [category], attribute [name], the meals. *)
Definition marshal_Category (c : Category) : Node :=
  Element "category" [("name", Category_Name c)]
    (marshal_Meal <$> Category_Meals c).

End xml.

(** ** The serializer (xml.go) *)

Module Serializer.

Import xml.

(** [func (c *Category) MarshalXML]: nothing for a category without
    meals; otherwise the element with the encoded meals
    ([e.Encode(m)] of a [Meal], which has no [MarshalXML]). *)
Definition Category_MarshalXML (c : Category) : list Node :=
  match Category_Meals c with
  | [] => []
  | _ => [Element "category" [("name", Category_Name c)]
            (marshal_Meal <$> Category_Meals c)]
  end.

(** [e.Encode(v)] for [v] of type [Category].  [MarshalXML] is declared on
    [*Category], so that it is in the method set of the pointer only.  The
    encoder calls it when it is given a pointer or an addressable value
    (a field or slice element reached through a pointer); for a
    [Category] passed by value, [reflect.ValueOf(v)] is not addressable,
    no [Marshaler] is found and the struct tags are used. *)
Definition Encode_Category (addressable : bool) (c : Category) : list Node :=
  if addressable then Category_MarshalXML c else [marshal_Category c].

(** The loop [closed := true; for ... { if len(c.Meals) > 0 { closed =
    false; break } }]. *)
Fixpoint closed (cs : list Category) : bool :=
  match cs with
  | [] => true
  | c :: cs' => if 0 <? length (Category_Meals c) then false else closed cs'
  end.

(** [func (d *Day) MarshalXML].  In [for _, c := range d.Categories
    { e.Encode(c) }] the operand [c] is the loop variable, a [Category]
    passed by value. *)
Definition Day_MarshalXML (d : Day) : list Node :=
  [Element "day" [("date", Day_Date d)]
     (if closed (Day_Categories d) then [Element "closed" [] []]
      else mjoin (Encode_Category false <$> Day_Categories d))].

Definition weekdays : list string :=
  ["monday"; "tuesday"; "wednesday"; "thursday"; "friday"; "saturday";
   "sunday"].

(** The body of the loop over the weekdays in [Times.MarshalXML]:
    [e.EncodeElement("", startDay)] for the weekday [name] at index [i]. *)
Definition Times_day (openingHours : list string) (i : nat) (name : string)
  : result Node :=
  match openingHours !! i with
  | None => Panic "index out of range"
  | Some h =>
      let attr := if decide (h = EmptyString) then ("closed", "true")
                  else ("open", h) in
      Ok (Element name [attr] [])
  end.

Fixpoint Times_days (openingHours : list string) (i : nat)
    (names : list string) : result (list Node) :=
  match names with
  | [] => Ok []
  | name :: names' =>
      d ← Times_day openingHours i name;
      ds ← Times_days openingHours (S i) names';
      Ok (d :: ds)
  end.

(** [func (times Times) MarshalXML(e, start)] *)
Definition Times_MarshalXML (openingHours : list string) (start : StartElement)
  : result (list Node) :=
  if decide (length openingHours = 0) then
    Ok [Element (Name start) (Attr start) []]
  else if decide (length openingHours ≠ 7) then
    Panic "len(times.openingHours) != 7 and not empty"
  else
    ds ← Times_days openingHours 0 weekdays;
    Ok [Element "times" [("type", "opening")] ds].

End Serializer.

(** The attribute of a weekday element for the slot [h]. *)
Definition day_attr (h : string) : string * string :=
  if decide (h = EmptyString) then ("closed", "true") else ("open", h).

(** A day is closed when none of its categories has a meal. *)
Definition all_empty (d : Day) : Prop :=
  Forall (λ c, Category_Meals c = []) (Day_Categories d).

(** ** Opening hours in [getMetadata] (README.md) *)

Module OpeningHours.

(** The result of [re.FindStringSubmatch(times.Text())] on one block
    when the pattern matches: the groups [dayStart], [dayEnd] (empty when
    the optional group did not take part), [hoursStart], [hoursEnd]. *)
Record Submatch :=
  { whole : string; dayStart : string; dayEnd : string;
    hoursStart : string; hoursEnd : string }.

Definition days : list string := ["Mo"; "Di"; "Mi"; "Do"; "Fr"; "Sa"; "So"].

(** [for j, day := range days { if name == day { d = j; break } }]: the
    index of the first day equal to [name], if there is one; [j] is the
    index of the head of [ds]. *)
Fixpoint find_day (name : string) (ds : list string) (j : nat) : option nat :=
  match ds with
  | [] => None
  | day :: ds' => if decide (name = day) then Some j else find_day name ds' (S j)
  end.

(** The value of the [int] variable after the loop: it keeps its zero
    value when no day is equal. *)
Definition day_index (name : string) : nat :=
  default 0 (find_day name days 0).

(** [for j := dayStart; j <= dayEnd; j++ { openingHours[j] = v }], with
    [n] rounds left. *)
Fixpoint fill (openingHours : list string) (j n : nat) (v : string)
  : result (list string) :=
  match n with
  | O => Ok openingHours
  | S n' => h ← store openingHours j v; fill h (S j) n' v
  end.

(** The body of the loop over the blocks, for a block that matches. *)
Definition expand (m : Submatch) (openingHours : list string)
  : result (list string) :=
  let dayStart := day_index (dayStart m) in
  let dayEnd :=
    if decide (dayEnd m = EmptyString) then dayStart
    else day_index (dayEnd m) in
  if decide (dayEnd < dayStart) then Panic "dayEnd < dayStart"
  else
    fill openingHours dayStart (S dayEnd - dayStart)
      (GoString.join [hoursStart m; hoursEnd m] "-").

(** [for i := 0; i < len(days); i++ {...; times = times.Next()}] with
    [n] rounds left; [blocks] are the matches of the block [times] and of
    its following siblings, [None] for a block without match.  After the
    last sibling the selection is empty and does not match. *)
Fixpoint scan (n : nat) (blocks : list (option Submatch))
    (openingHours : list string) : result (list string) :=
  match n with
  | O => Ok openingHours
  | S n' =>
      match blocks with
      | Some m :: blocks' =>
          h ← expand m openingHours; scan n' blocks' h
      | _ => Ok openingHours
      end
  end.

(** The slots that [getMetadata] hands to [Times]. *)
Definition openingHours (blocks : list (option Submatch))
  : result (list string) :=
  scan (length days) blocks (replicate 7 EmptyString).

End OpeningHours.

(** ** The fetcher [getHttpDoc] (README.md) *)

Module Fetcher.

Section fetcher.

(** A parsed document ([*goquery.Document]). *)
Context {Document : Type}.

(** The outcome of one [http.PostForm]: an error, or a response with
    its status code and, for what [goquery.NewDocumentFromResponse]
    makes of the body, the document or [None] when parsing fails. *)
Inductive Response : Type :=
| ConnError (err : string)
| Reply (status : Z) (parsed : option Document).

(** What the fetcher does besides returning: requests, sleeps (in
    nanoseconds, as [time.Duration]) and log lines. *)
Inductive Event : Type :=
| Post (attempt : nat)
| Sleep (d : Z)
| LogResponse
| LogError (err : string)
| LogStatus (status : Z)
| LogAbort.

Definition httpMaxRetries : nat := 10.
Definition httpSleepStep : Z := 1000000000.

(** [time.Duration(i) * httpSleepStep] *)
Definition sleepTime (i : nat) : Z := Z.of_nat i * httpSleepStep.

(** The loop [for i := 1; i <= httpMaxRetries; i++] from attempt [i]
    on, with [n] rounds left; [server i] is the outcome of the i-th
    request.  The result is the trace of events and the value returned
    ([None] is the nil document) or the panic. *)
Fixpoint attempts (server : nat → Response) (n i : nat)
  : list Event * result (option Document) :=
  match n with
  | O => ([LogAbort], Ok None)
  | S n' =>
      match server i with
      | ConnError err =>
          let '(tr, r) := attempts server n' (S i) in
          (Post i :: LogResponse :: LogError err
             :: Sleep (sleepTime i) :: tr, r)
      | Reply status parsed =>
          if (status =? 200)%Z then
            match parsed with
            | Some doc => ([Post i], Ok (Some doc))
            | None => ([Post i], Panic "NewDocumentFromResponse")
            end
          else if (status =? 509)%Z then
            let '(tr, r) := attempts server n' (S i) in
            (Post i :: Sleep (sleepTime i) :: tr, r)
          else ([Post i; LogStatus status], Ok None)
      end
  end.

Definition getHttpDoc (server : nat → Response)
  : list Event * result (option Document) :=
  attempts server httpMaxRetries 1.

(** *** The retry policy, by the words of the specification *)

(** An outcome after which the fetcher sleeps and tries again: a
    network-level error, or the status 509. *)
Definition retryable (r : Response) : bool :=
  match r with
  | ConnError _ => true
  | Reply status _ => negb (status =? 200)%Z && (status =? 509)%Z
  end.

(** Attempt [i] with a retryable outcome: the request, then a sleep of
    [i] seconds. *)
Definition retry_events (i : nat) (r : Response) : list Event :=
  match r with
  | ConnError err =>
      [Post i; LogResponse; LogError err; Sleep (sleepTime i)]
  | Reply _ _ => [Post i; Sleep (sleepTime i)]
  end.

(** Attempts [i], [i+1], ..., [k] of them, all followed by their sleep. *)
Definition retries (server : nat → Response) (i k : nat) : list Event :=
  mjoin ((λ j, retry_events j (server j)) <$> seq i k).

(** The number of requests in a trace. *)
Definition is_post (e : Event) : bool :=
  match e with Post _ => true | _ => false end.

Definition posts (tr : list Event) : nat :=
  length (filter (λ e, is_post e = true) tr).

End fetcher.

End Fetcher.

(** ** The earlier fetcher (main.go; the same text in the catalog versions
    that keep a map of names) *)

Module FetcherV0.

(** The loop [for i := 1; i <= httpMaxRetries; i++] from attempt [i] on,
    with [n] rounds left.  An error of [http.PostForm] is a panic; after
    any status other than 200 the fetcher sleeps [i] seconds when
    [i < httpMaxRetries] and logs the abort otherwise; after the loop the
    named result [doc] is returned as it is, nil. *)
Fixpoint attempts {Document : Type} (server : nat → @Fetcher.Response Document)
    (n i : nat) : list Fetcher.Event * result (option Document) :=
  match n with
  | O => ([], Ok None)
  | S n' =>
      match server i with
      | Fetcher.ConnError err => ([Fetcher.Post i], Panic err)
      | Fetcher.Reply status parsed =>
          if (status =? 200)%Z then
            match parsed with
            | Some doc => ([Fetcher.Post i], Ok (Some doc))
            | None => ([Fetcher.Post i], Panic "NewDocumentFromResponse")
            end
          else
            let '(tr, r) := attempts server n' (S i) in
            if decide (i < Fetcher.httpMaxRetries) then
              (Fetcher.Post i :: Fetcher.Sleep (Fetcher.sleepTime i) :: tr, r)
            else (Fetcher.Post i :: Fetcher.LogAbort :: tr, r)
      end
  end.

Definition getHttpDoc {Document : Type}
    (server : nat → @Fetcher.Response Document)
  : list Fetcher.Event * result (option Document) :=
  attempts server Fetcher.httpMaxRetries 1.

End FetcherV0.

(** The time slept in a trace, in nanoseconds. *)
Fixpoint slept (tr : list Fetcher.Event) : Z :=
  match tr with
  | [] => 0
  | Fetcher.Sleep d :: tr' => d + slept tr'
  | _ :: tr' => slept tr'
  end.

(** A response with a status other than 200. *)
Definition not_ok {Document : Type} (r : @Fetcher.Response Document) : Prop :=
  ∃ status parsed, r = Fetcher.Reply status parsed ∧ status ≠ 200%Z.

(** One round of the earlier fetcher that ends with a status other than
    200: the request, then the sleep, or the abort line in the last round. *)
Definition round_events (i : nat) : list Fetcher.Event :=
  [Fetcher.Post i;
   if decide (i < Fetcher.httpMaxRetries)
   then Fetcher.Sleep (Fetcher.sleepTime i) else Fetcher.LogAbort].

(** Rounds [i], [i+1], ..., [k] of them. *)
Definition rounds (i k : nat) : list Fetcher.Event :=
  mjoin (round_events <$> seq i k).

(** ** [bufio.Scanner] with [ScanLines], and [loadIds] *)

Module Scanner.

(** [bufio.MaxScanTokenSize]: the buffer of a scanner grows to this size
    and no further. *)
Definition MaxScanTokenSize : nat := 64 * 1024.

Definition carriage_return : ascii := ascii_of_nat 13.

(** [dropCR(data)]: a trailing carriage return is dropped. *)
Definition dropCR (data : list ascii) : list ascii :=
  match last data with
  | Some c =>
      if Ascii.eqb c carriage_return then take (length data - 1) data
      else data
  | None => data
  end.

(** [bufio.ErrTooLong] *)
Definition ErrTooLong : Persist.error :=
  Persist.errorString "bufio.Scanner: token too long".

(** [for scanner.Scan() { ids = append(ids, scanner.Text()) }] followed by
    [scanner.Err()], over the bytes [data] still to read; [cur] holds the
    bytes of the line read so far.  A line ends at a newline or at the end
    of the data; an empty rest after the last newline is no line.  When the
    bytes of a line fill the whole buffer before its newline is seen, the
    scan stops with [ErrTooLong]. *)
Fixpoint scan (data cur : list ascii) : list string * option Persist.error :=
  match data with
  | [] =>
      (match cur with
       | [] => []
       | _ => [GoString.of_bytes (dropCR cur)]
       end, None)
  | b :: rest =>
      if Ascii.eqb b Persist.newline then
        let '(lines, err) := scan rest [] in
        (GoString.of_bytes (dropCR cur) :: lines, err)
      else if decide (length cur + 1 = MaxScanTokenSize) then
        ([], Some ErrTooLong)
      else scan rest (cur ++ [b])
  end.

End Scanner.

Module Restore.

(** [loadIds(filename)]: the lines of the file and the error of the scan;
    for a file that does not exist, no identifier and no error.  Opening a
    file that exists succeeds in the model. *)
Definition loadIds (filename : string) (fs : Persist.FS)
  : list string * option Persist.error :=
  match Persist.files fs !! filename with
  | None => ([], None)
  | Some data => Scanner.scan data []
  end.

End Restore.

(** ** The identifier part of [main] with its files (README.md) *)

Module Main.

Definition repo : string := "berlin/".
Definition idsArchiveFile : string := repo +:+ "ids_archive".
Definition idsAllFile : string := repo +:+ "ids_all".
Definition idsCurFile : string := repo +:+ "ids_current".

(** How the identifier part ends: [log.Fatal(err)] with the files as they
    are at that moment, or the three lists, saved, with which [main] goes
    on. *)
Inductive Outcome : Type :=
| Fatal (err : Persist.error) (fs : Persist.FS)
| Saved (ids : Catalog.Ids) (fs : Persist.FS).

(** From [fetchIds()] (its result is [fetched]) to the third [saveIds]. *)
Definition ids (fetched : list string) (fs : Persist.FS) : result Outcome :=
  let '(loaded, err) := Restore.loadIds idsAllFile fs in
  match err with
  | Some e => Ok (Fatal e fs)
  | None =>
      r ← Catalog.reconcile fetched loaded;
      let '(err, fs) := Persist.saveIds (Catalog.idsCur r) idsCurFile fs in
      match err with
      | Some e => Ok (Fatal e fs)
      | None =>
          let '(err, fs) :=
            Persist.saveIds (Catalog.idsArchive r) idsArchiveFile fs in
          match err with
          | Some e => Ok (Fatal e fs)
          | None =>
              let '(err, fs) :=
                Persist.saveIds (Catalog.idsAll r) idsAllFile fs in
              match err with
              | Some e => Ok (Fatal e fs)
              | None => Ok (Saved r fs)
              end
          end
      end
  end.

End Main.

(** The identifier as [loadIds] reads it back: without a trailing carriage
    return. *)
Definition as_loaded (id : string) : string :=
  GoString.of_bytes (Scanner.dropCR (GoString.bytes id)).

(** An identifier that fits a line of the scanner. *)
Definition fits_line (id : string) : Prop :=
  String.length id < Scanner.MaxScanTokenSize.

(** An identifier without a trailing carriage return. *)
Definition plain (id : string) : Prop :=
  last (GoString.bytes id) ≠ Some Scanner.carriage_return.

(** ** Notes from icons (README.md, [getDay]) *)

Module Icons.

(** [strings.HasSuffix(s, suffix)]:
    [len(s) >= len(suffix) && s[len(s)-len(suffix):] == suffix]. *)
Definition HasSuffix (s suffix : string) : bool :=
  let n := String.length s in
  let m := String.length suffix in
  (m <=? n)
  && bool_decide (drop (n - m) (GoString.bytes s) = GoString.bytes suffix).

(** The map literal [notesImg]: the end of the name of an icon, and the
    note it stands for. *)
Definition notesImg : gmap string string :=
  list_to_map
    [ ("ampel_gruen_70x65.png", "grün (Ampel)");
      ("ampel_gelb_70x65.png", "gelb (Ampel)");
      ("ampel_rot_70x65.png", "rot (Ampel)");
      ("15.png", "vegan");
      ("43.png", "Klimaessen");
      ("1.png", "vegetarisch");
      ("18.png", "bio");
      ("38.png", "MSC") ].

(** [for suffix, note := range notesImg { if strings.HasSuffix(imgUrl,
    suffix) { ...; break } }]: the note of the first entry, in the order
    [order] in which this [range] visits the map, whose key ends the URL.
    Go leaves the order of a [range] over a map open, and it may change
    from one [range] to the next. *)
Fixpoint lookup (order : list (string * string)) (imgUrl : string)
  : option string :=
  match order with
  | [] => None
  | (suffix, note) :: rest =>
      if HasSuffix imgUrl suffix then Some note else lookup rest imgUrl
  end.

(** The body of [Each] for one icon: [meal.Notes] afterwards. *)
Definition icon (order : list (string * string)) (imgUrl : string)
    (notes : list string) : list string :=
  match lookup order imgUrl with
  | Some note => notes ++ [note]
  | None => notes
  end.

(** [s.Find("img.splIcon").Each(...)] over the icons of a meal, each given
    by the value of its [src] attribute (empty when it has none) and the
    order in which the map is visited for it. *)
Definition icons (imgs : list (list (string * string) * string))
    (notes : list string) : list string :=
  foldl (λ notes img, icon img.1 img.2 notes) notes imgs.

(** An order in which a [range] can visit [notesImg]: every entry once. *)
Definition visits (order : list (string * string)) : Prop :=
  order ≡ₚ map_to_list notesImg.

End Icons.

(** ** The index file (README.md, [genIndex]) *)

Module Index.

Definition urlFeedBase : string :=
  "https://raw.githubusercontent.com/escrl/openmensa-feed-berlin/master/".

Definition indexFile : string := Main.repo +:+ "index.json".

(** An open file: its bytes and the offset of the next write. *)
Record File := { data : list ascii; pos : nat }.

(** The file that [os.Create] opens: empty, at offset 0. *)
Definition Create : File := {| data := []; pos := 0 |}.

(** A write puts the bytes at the offset, over what is there and beyond
    the end (a gap before the offset would read as zero bytes), and moves
    the offset behind them. *)
Definition Write (f : File) (p : list ascii) : File :=
  {| data := resize (pos f) Ascii.zero (data f) ++ p
             ++ drop (pos f + length p) (data f);
     pos := pos f + length p |}.

(** [file.Seek(offset, os.SEEK_CUR)] with its results dropped, as
    [genIndex] calls it: the offset moves, unless it would become
    negative; then the call fails and nothing moves. *)
Definition Seek_cur (f : File) (offset : Z) : File :=
  if decide (0 ≤ Z.of_nat (pos f) + offset)%Z
  then {| data := data f; pos := Z.to_nat (Z.of_nat (pos f) + offset) |}
  else f.

Section genIndex.

(** [json.Marshal] on a string: the bytes of its JSON form.  What follows
    holds whatever they are. *)
Context (Marshal : string → list ascii).

(** [fmt.Fprintf(file, "    %s: %s,\n", jsonId, jsonUrl)] *)
Definition entry (id : string) : list ascii :=
  GoString.bytes "    " ++ Marshal id ++ GoString.bytes ": "
  ++ Marshal (urlFeedBase +:+ id +:+ "/metadata.xml")
  ++ GoString.bytes "," ++ [Persist.newline].

(** [genIndex(idsCur, idsArchived)]: the error returned and the files left
    behind.  Errors of the writes themselves are outside the model, and so
    is the log line.  The [err] tested after the [Seek] is still that of
    the last [Fprintf]. *)
Definition genIndex (idsCur idsArchived : list string) (fs : Persist.FS)
  : option Persist.error * Persist.FS :=
  if decide (indexFile ∈ Persist.denied fs)
  then (Some (Persist.PathError indexFile), fs)
  else
    let file := Write Create (GoString.bytes "{" ++ [Persist.newline]) in
    let file := foldl (λ file id, Write file (entry id)) file idsCur in
    let file := Seek_cur file (-2) in
    let file :=
      Write file ([Persist.newline] ++ GoString.bytes "}"
                  ++ [Persist.newline]) in
    (None, {| Persist.files := <[indexFile := data file]> (Persist.files fs);
              Persist.denied := Persist.denied fs |}).

(** One member of the JSON object, without what separates it from the
    next. *)
Definition member (id : string) : list ascii :=
  GoString.bytes "    " ++ Marshal id ++ GoString.bytes ": "
  ++ Marshal (urlFeedBase +:+ id +:+ "/metadata.xml").

End genIndex.

(** The byte lists [ls], with [sep] between each two. *)
Fixpoint joined (sep : list ascii) (ls : list (list ascii)) : list ascii :=
  match ls with
  | [] => []
  | [l] => l
  | l :: ls' => l ++ sep ++ joined sep ls'
  end.

End Index.

(** ** Identifiers, names and the index as maps (unnamed/part_000) *)

Module Registry.

(** [fetchIDs()] on the options of the select box, each given by its
    [value] attribute and its text: [ids[id] = string(safeName[:j])] for
    one option after the other. *)
Fixpoint fetchIDs_loop (options : list (string * string))
    (ids : gmap string string) : result (gmap string string) :=
  match options with
  | [] => Ok ids
  | (value, text) :: rest =>
      name ← SafeName.safeName text;
      fetchIDs_loop rest (<[value := name]> ids)
  end.

Definition fetchIDs (options : list (string * string))
  : result (gmap string string) :=
  fetchIDs_loop options ∅.

(** The value of an entry of the index. *)
Definition url (name : string) : string :=
  Index.urlFeedBase +:+ name +:+ "/metadata.xml".

(** The map [index] of [updateIndex()] after
    [for _, name := range ids { index[name] = ... }], with the entries of
    [ids] visited in the order [order]. *)
Definition index (order : list (string * string)) : gmap string string :=
  foldl (λ index entry, <[entry.2 := url entry.2]> index) ∅ order.

End Registry.

(** ** The matches of [\d+,\d{2}], in the words of the pattern *)

Module PriceSpec.

(** [m] as a whole matches the pattern: one digit or more, a comma, two
    digits. *)
Definition amount (m : list ascii) : Prop :=
  ∃ (ds : list ascii) (d1 d2 : ascii),
    m = ds ++ [","%char; d1; d2]
    ∧ ds ≠ []
    ∧ Forall (λ c, strconv.is_digit c = true) ds
    ∧ strconv.is_digit d1 = true ∧ strconv.is_digit d2 = true.

(** A substring that matches the pattern starts at offset [k] of [s]. *)
Definition match_at (s : list ascii) (k : nat) : Prop :=
  ∃ m, amount m ∧ m `prefix_of` drop k s.

(** [ms] are all the matches in [s], one after the other and none
    overlapping another: no match starts in [s] when there is none; else
    the first one is the match [m] behind a gap in which no match starts,
    and the others are all the matches in what follows [m]. *)
Inductive matches : list ascii → list (list ascii) → Prop :=
| matches_done (s : list ascii) :
    (∀ k, ¬ match_at s k) → matches s []
| matches_next (gap m rest : list ascii) (ms : list (list ascii)) :
    amount m →
    (∀ k, k < length gap → ¬ match_at (gap ++ m ++ rest) k) →
    matches rest ms →
    matches (gap ++ m ++ rest) (m :: ms).

End PriceSpec.

(** ** The slots of the opening hours, in the words of the claim *)

Module OpeningHoursSpec.

(** The start day and the end day to which the match of a block resolves:
    the end day is the start day when the optional group is empty. *)
Definition start_day (m : OpeningHours.Submatch) : nat :=
  OpeningHours.day_index (OpeningHours.dayStart m).

Definition end_day (m : OpeningHours.Submatch) : nat :=
  if decide (OpeningHours.dayEnd m = EmptyString) then start_day m
  else OpeningHours.day_index (OpeningHours.dayEnd m).

(** The block covers the slot [i]. *)
Definition covers (m : OpeningHours.Submatch) (i : nat) : Prop :=
  start_day m ≤ i ≤ end_day m.

(** The string "start-end" of the block. *)
Definition hours (m : OpeningHours.Submatch) : string :=
  OpeningHours.hoursStart m +:+ "-" +:+ OpeningHours.hoursEnd m.

(** The matches of the blocks up to the first block without match. *)
Fixpoint leading (blocks : list (option OpeningHours.Submatch))
  : list OpeningHours.Submatch :=
  match blocks with
  | Some m :: blocks' => m :: leading blocks'
  | _ => []
  end.

(** The slot [i], which holds [cur], after the blocks [ms]: every block
    that covers it puts its string there. *)
Definition slot (i : nat) (ms : list OpeningHours.Submatch) (cur : string)
  : string :=
  foldl (λ cur m, if decide (covers m i) then hours m else cur) cur ms.

End OpeningHoursSpec.

(** A block for the examples: its four groups. *)
Definition block (d1 d2 h1 h2 : string) : OpeningHours.Submatch :=
  {| OpeningHours.whole := EmptyString;
     OpeningHours.dayStart := d1; OpeningHours.dayEnd := d2;
     OpeningHours.hoursStart := h1; OpeningHours.hoursEnd := h2 |}.

(** * Properties *)

(** ** The order of Go strings *)

Section string_order.

Lemma compare_refl (s : string) : String.compare s s = Eq.
Proof.
  induction s as [|a s IH]; simpl; [done|].
  unfold Ascii.compare. by rewrite N.compare_refl.
Qed.

Lemma lt_negb_leb (a b : string) : GoString.lt a b = negb (String.leb b a).
Proof.
  unfold GoString.lt, String.ltb, String.leb.
  rewrite (String.compare_antisym a b).
  by destruct (String.compare b a).
Qed.

Lemma lt_irrefl (a : string) : GoString.lt a a = false.
Proof. unfold GoString.lt, String.ltb. by rewrite compare_refl. Qed.

Lemma lt_le (a b : string) : GoString.lt a b = true → String.le a b.
Proof.
  rewrite lt_negb_leb. intros H.
  destruct (total String.le a b) as [|Hba]; [done|].
  unfold String.le in Hba. by destruct (String.leb b a).
Qed.

Lemma lt_iff (a b : string) :
  GoString.lt a b = true ↔ String.le a b ∧ a ≠ b.
Proof.
  split.
  - intros H. split; [by apply lt_le|]. intros ->.
    by rewrite lt_irrefl in H.
  - intros [Hle Hne]. rewrite lt_negb_leb.
    destruct (String.leb b a) eqn:Hba; [|done].
    destruct Hne. apply (anti_symm String.le); [done|].
    unfold String.le. by rewrite Hba.
Qed.

Lemma lt_trans (a b c : string) :
  GoString.lt a b = true → GoString.lt b c = true → GoString.lt a c = true.
Proof.
  rewrite !lt_iff. intros [Hab Hn1] [Hbc Hn2]. split.
  - by etrans.
  - intros ->. destruct Hn1. by apply (anti_symm String.le).
Qed.

Lemma lt_asym (a b : string) :
  GoString.lt a b = true → GoString.lt b a = false.
Proof.
  intros H. destruct (GoString.lt b a) eqn:Hba; [|done].
  pose proof (lt_trans _ _ _ H Hba) as Haa. by rewrite lt_irrefl in Haa.
Qed.

Lemma lt_total (a b : string) :
  GoString.lt a b = false → GoString.lt b a = false → a = b.
Proof.
  rewrite !lt_negb_leb. intros H1 H2.
  apply (anti_symm String.le); unfold String.le.
  - by destruct (String.leb a b).
  - by destruct (String.leb b a).
Qed.

End string_order.

(** ** [unique.Sort] *)

Section unique_facts.

Lemma Unique_elem_of (x : string) (l : list string) :
  x ∈ unique.Unique l ↔ x ∈ l.
Proof.
  induction l as [|a l IH]; [done|].
  destruct l as [|b l]; [done|].
  change (unique.Unique (a :: b :: l))
    with (if decide (a = b) then unique.Unique (b :: l)
          else a :: unique.Unique (b :: l)).
  destruct (decide (a = b)) as [->|Hne].
  - rewrite IH, !elem_of_cons. tauto.
  - rewrite (elem_of_cons _ x a), IH, (elem_of_cons _ x a). done.
Qed.

Lemma Unique_strictly_sorted (l : list string) :
  StronglySorted String.le l → strictly_sorted (unique.Unique l).
Proof.
  unfold strictly_sorted.
  induction l as [|a l IH]; intros Hs; [constructor|].
  apply StronglySorted_cons in Hs as [Hall Hs].
  destruct l as [|b l]; [repeat constructor|].
  change (unique.Unique (a :: b :: l))
    with (if decide (a = b) then unique.Unique (b :: l)
          else a :: unique.Unique (b :: l)).
  destruct (decide (a = b)) as [->|Hne]; [by apply IH|].
  apply StronglySorted_cons. split; [|by apply IH].
  apply Forall_forall. intros z Hz.
  apply (proj1 (Unique_elem_of _ _)) in Hz.
  apply lt_iff. split.
  - rewrite Forall_forall in Hall. by apply Hall.
  - intros <-. apply Hne.
    apply StronglySorted_cons in Hs as [Hb _].
    apply elem_of_cons in Hz as [->|Hz]; [done|].
    apply (anti_symm String.le).
    + by apply Forall_cons in Hall as [? _].
    + rewrite Forall_forall in Hb. by apply Hb.
Qed.

Lemma Sort_strictly_sorted (l : list string) :
  strictly_sorted (unique.Sort l).
Proof.
  apply Unique_strictly_sorted, StronglySorted_merge_sort; apply _.
Qed.

Lemma Sort_elem_of (x : string) (l : list string) :
  x ∈ unique.Sort l ↔ x ∈ l.
Proof.
  unfold unique.Sort, unique.sort_Sort.
  by rewrite Unique_elem_of, merge_sort_Permutation.
Qed.

Lemma strictly_sorted_NoDup (l : list string) :
  strictly_sorted l → NoDup l.
Proof.
  induction 1 as [|a l Hs IH Hall]; constructor; [|done].
  intros Hin. eapply Forall_forall in Hall; [|done].
  by rewrite lt_irrefl in Hall.
Qed.

End unique_facts.

(** ** [diff] *)

Section diff_facts.

Lemma store_ok {A} (s : list A) (i : nat) (v : A) :
  i < length s → store s i v = Ok (<[i:=v]> s).
Proof. intros Hi. unfold store. by rewrite decide_True. Qed.

Lemma bind_Ok {A B} (v : A) (k : A → result B) : (Ok v ≫= k) = k v.
Proof. done. Qed.

Lemma take_store {A} (d : list A) (k : nat) (y : A) :
  k < length d → take (S k) (<[k:=y]> d) = take k d ++ [y].
Proof.
  intros Hk. rewrite (take_S_r _ _ y).
  - by rewrite take_insert_ge.
  - by apply list_lookup_insert_eq.
Qed.

Lemma diff_copy_spec (b : list string) : ∀ (k : nat) (d : list string),
  k + length b ≤ length d →
  ∃ d', Catalog.diff_copy b k d = Ok (k + length b, d')
        ∧ length d' = length d
        ∧ take (k + length b) d' = take k d ++ b.
Proof.
  induction b as [|y b IH]; intros k d Hlen; simpl in *.
  - exists d. rewrite Nat.add_0_r, app_nil_r. done.
  - rewrite store_ok by lia. simpl.
    destruct (IH (S k) (<[k:=y]> d)) as (d' & Hd & Hl & Ht).
    { rewrite length_insert. lia. }
    exists d'. rewrite <- Nat.add_succ_comm, Hd, Hl, Ht.
    rewrite length_insert, take_store by lia.
    by rewrite <- app_assoc.
Qed.

Lemma diff_list_length (a : list string) : ∀ b : list string,
  length (diff_list a b) ≤ length b.
Proof.
  induction a as [|x a IHa]; [done|].
  induction b as [|y b IHb]; [done|].
  change (diff_list (x :: a) (y :: b))
    with (if GoString.lt x y then diff_list a (y :: b)
          else if GoString.lt y x then y :: diff_list (x :: a) b
               else diff_list a b).
  destruct (GoString.lt x y); [apply IHa|].
  destruct (GoString.lt y x).
  - simpl in *. lia.
  - specialize (IHa b). simpl. lia.
Qed.

Lemma diff_loop_spec (a : list string) : ∀ (b : list string) (k : nat) (d : list string),
  k + length b ≤ length d →
  ∃ d', Catalog.diff_loop a b k d = Ok (k + length (diff_list a b), d')
        ∧ length d' = length d
        ∧ take (k + length (diff_list a b)) d' = take k d ++ diff_list a b.
Proof.
  induction a as [|x a IHa]; [apply diff_copy_spec|].
  induction b as [|y b IHb]; intros k d Hlen.
  - exists d. simpl. rewrite Nat.add_0_r, app_nil_r. done.
  - change (diff_list (x :: a) (y :: b))
      with (if GoString.lt x y then diff_list a (y :: b)
            else if GoString.lt y x then y :: diff_list (x :: a) b
                 else diff_list a b).
    change (Catalog.diff_loop (x :: a) (y :: b) k d)
      with (if GoString.lt x y then Catalog.diff_loop a (y :: b) k d
            else if GoString.lt y x then
                   d' ← store d k y; Catalog.diff_loop (x :: a) b (S k) d'
                 else Catalog.diff_loop a b k d).
    simpl in Hlen.
    destruct (GoString.lt x y); [by apply IHa|].
    destruct (GoString.lt y x); [|apply IHa; lia].
    rewrite store_ok, bind_Ok by lia.
    destruct (IHb (S k) (<[k:=y]> d)) as (d' & Hd & Hl & Ht).
    { rewrite length_insert. lia. }
    exists d'. cbn [length].
    rewrite <- Nat.add_succ_comm, Hd, Hl, Ht.
    rewrite length_insert, take_store by lia.
    by rewrite <- app_assoc.
Qed.

(** [diff] never writes outside its buffer, and returns what the merge
    emits. *)
Lemma diff_eq_diff_list (a b : list string) :
  Catalog.diff a b = Ok (diff_list a b).
Proof.
  unfold Catalog.diff.
  destruct (diff_loop_spec a b 0 (replicate (length b) ""))
    as (d' & Hd & _ & Ht).
  { rewrite length_replicate. lia. }
  rewrite Hd. simpl in *. by rewrite Ht.
Qed.

Lemma filter_not_elem_of_cons (x : string) (a b : list string) :
  x ∉ b →
  filter (λ y, y ∉ x :: a) b = filter (λ y, y ∉ a) b.
Proof.
  induction b as [|y b IH]; intros Hx; [done|].
  apply not_elem_of_cons in Hx as [Hxy Hx].
  rewrite !filter_cons, IH by done.
  destruct (decide (y ∉ a)) as [Hy|Hy].
  - rewrite decide_True; [done|]. apply not_elem_of_cons. by split.
  - rewrite decide_False; [done|]. rewrite not_elem_of_cons. tauto.
Qed.

Lemma strictly_sorted_lt_head (x y : string) (l : list string) :
  GoString.lt x y = true → strictly_sorted (y :: l) → x ∉ y :: l.
Proof.
  intros Hxy Hs Hin.
  apply StronglySorted_cons in Hs as [Hall _].
  rewrite Forall_forall in Hall.
  apply elem_of_cons in Hin as [->|Hin].
  - by rewrite lt_irrefl in Hxy.
  - pose proof (lt_trans _ _ _ Hxy (Hall _ Hin)) as Hxx.
    by rewrite lt_irrefl in Hxx.
Qed.

(** On strictly sorted inputs the merge is the set difference b \ a. *)
Lemma diff_list_filter (a : list string) : ∀ b : list string,
  strictly_sorted a → strictly_sorted b →
  diff_list a b = filter (λ y, y ∉ a) b.
Proof.
  induction a as [|x a IHa]; intros b Ha Hb.
  { simpl. clear. induction b as [|y b IH]; [done|].
    rewrite filter_cons_True by apply not_elem_of_nil. by rewrite <- IH. }
  pose proof Ha as Ha'.
  apply StronglySorted_cons in Ha' as [Hxa Hsa].
  induction b as [|y b IHb]; [done|].
  change (diff_list (x :: a) (y :: b))
    with (if GoString.lt x y then diff_list a (y :: b)
          else if GoString.lt y x then y :: diff_list (x :: a) b
               else diff_list a b).
  pose proof Hb as Hb'.
  apply StronglySorted_cons in Hb' as [Hyb Hsb].
  destruct (GoString.lt x y) eqn:Hxy.
  - rewrite IHa by done. symmetry.
    by apply filter_not_elem_of_cons, strictly_sorted_lt_head.
  - destruct (GoString.lt y x) eqn:Hyx.
    + rewrite IHb by done.
      rewrite filter_cons_True; [done|].
      by apply strictly_sorted_lt_head.
    + assert (x = y) as <- by by apply lt_total.
      rewrite filter_cons_False by (intros Hn; apply Hn; left).
      rewrite IHa by done. symmetry.
      apply filter_not_elem_of_cons.
      intros Hin. rewrite Forall_forall in Hyb.
      specialize (Hyb _ Hin). by rewrite lt_irrefl in Hyb.
Qed.

End diff_facts.

(** ** Identifier reconciliation *)

(** What [reconcile] returns, for any two lists. *)
Lemma reconcile_facts (fetched loaded : list string) :
∃ ids : Catalog.Ids,
  Catalog.reconcile fetched loaded = Ok ids
  ∧ strictly_sorted (Catalog.idsCur ids)
  ∧ (∀ x, x ∈ Catalog.idsCur ids ↔ x ∈ fetched)
  ∧ strictly_sorted (Catalog.idsAll ids)
  ∧ (∀ x, x ∈ Catalog.idsAll ids ↔ x ∈ loaded ∨ x ∈ fetched)
  ∧ Catalog.diff (Catalog.idsCur ids) (Catalog.idsAll ids)
    = Ok (Catalog.idsArchive ids)
  ∧ Catalog.idsArchive ids
    = diff_list (Catalog.idsCur ids) (Catalog.idsAll ids)
  ∧ Catalog.idsArchive ids
    = filter (λ y, y ∉ Catalog.idsCur ids) (Catalog.idsAll ids)
  ∧ (∀ x, x ∈ Catalog.idsArchive ids ↔ x ∈ loaded ∧ x ∉ fetched).
Proof.
unfold Catalog.reconcile.
set (cur := unique.Sort fetched).
set (all := unique.Sort (loaded ++ cur)).
assert (Hcur : ∀ x, x ∈ cur ↔ x ∈ fetched) by (intros; apply Sort_elem_of).
assert (Hall : ∀ x, x ∈ all ↔ x ∈ loaded ∨ x ∈ fetched).
{ intros x. unfold all. by rewrite Sort_elem_of, elem_of_app, Hcur. }
assert (Hflt : diff_list cur all = filter (λ y, y ∉ cur) all).
{ apply diff_list_filter; apply Sort_strictly_sorted. }
rewrite diff_eq_diff_list, bind_Ok.
eexists. split; [done|]. simpl.
split; [apply Sort_strictly_sorted|].
split; [done|].
split; [apply Sort_strictly_sorted|].
split; [done|].
split; [apply diff_eq_diff_list|].
split; [done|].
split; [done|].
intros x. rewrite Hflt, list_elem_of_filter, Hall, Hcur. tauto.
Qed.

(** C1: for every loaded historical list and every fetch result, the
    catalog yields [idsCur] = the fetched identifiers, deduplicated and
    sorted; [idsAll] = the union of the historical and the fetched
    identifiers, deduplicated and sorted; and [idsArchive] =
    [diff(idsCur, idsAll)], which is the linear merge of the two sorted lists
    and holds exactly the elements of [idsAll] that are absent from
    [idsCur].  For all = {"101","102"} and fresh = {"102","103"} the three
    lists are {"102","103"}, {"101","102","103"} and {"101"}. *)
Theorem reconcile_spec (fetched loaded : list string) :
  (∃ ids : Catalog.Ids,
    Catalog.reconcile fetched loaded = Ok ids
    ∧ strictly_sorted (Catalog.idsCur ids)
    ∧ (∀ x, x ∈ Catalog.idsCur ids ↔ x ∈ fetched)
    ∧ strictly_sorted (Catalog.idsAll ids)
    ∧ (∀ x, x ∈ Catalog.idsAll ids ↔ x ∈ loaded ∨ x ∈ fetched)
    ∧ Catalog.diff (Catalog.idsCur ids) (Catalog.idsAll ids)
      = Ok (Catalog.idsArchive ids)
    ∧ Catalog.idsArchive ids
      = diff_list (Catalog.idsCur ids) (Catalog.idsAll ids)
    ∧ Catalog.idsArchive ids
      = filter (λ y, y ∉ Catalog.idsCur ids) (Catalog.idsAll ids)
    ∧ (∀ x, x ∈ Catalog.idsArchive ids ↔ x ∈ loaded ∧ x ∉ fetched))
  ∧ Catalog.reconcile ["102"; "103"] ["101"; "102"]
    = Ok {| Catalog.idsCur := ["102"; "103"];
            Catalog.idsArchive := ["101"];
            Catalog.idsAll := ["101"; "102"; "103"] |}.
Proof.
  split; [apply reconcile_facts|by vm_compute].
Qed.

(** ** Numeric strings: value and order *)

Section numeric_facts.

Local Open Scope Z_scope.

Lemma is_digit_range (c : ascii) :
  strconv.is_digit c = true ↔ 48 ≤ GoString.code c ≤ 57.
Proof. unfold strconv.is_digit. rewrite andb_true_iff. lia. Qed.

Lemma dval_bound (s : string) :
  Forall (λ c, strconv.is_digit c = true) (GoString.bytes s) →
  0 ≤ dval s < 10 ^ Z.of_nat (String.length s).
Proof.
  induction s as [|c r IH];
    cbn [dval String.length GoString.bytes list_ascii_of_string]; [lia|].
  intros [Hc%is_digit_range Hr]%Forall_cons. specialize (IH Hr).
  rewrite Nat2Z.inj_succ, Z.pow_succ_r by lia.
  nia.
Qed.

Lemma digits_dval (s : string) : ∀ n : Z,
  Forall (λ c, strconv.is_digit c = true) (GoString.bytes s) →
  strconv.digits n s = Some (n * 10 ^ Z.of_nat (String.length s) + dval s).
Proof.
  induction s as [|c r IH]; intros n;
    cbn [dval String.length GoString.bytes list_ascii_of_string strconv.digits].
  - intros _. f_equal. lia.
  - intros [Hc Hr]%Forall_cons. rewrite Hc, IH by done. f_equal.
    rewrite Nat2Z.inj_succ, Z.pow_succ_r by lia. lia.
Qed.

Lemma Atoi_numeric (s : string) :
  numeric_string s → (String.length s ≤ 18)%nat →
  strconv.Atoi s = (dval s, false).
Proof.
  intros [Hne Hall] Hlen.
  pose proof (dval_bound s Hall) as Hb.
  assert (10 ^ Z.of_nat (String.length s) ≤ 10 ^ 18) as Hp
    by (apply Z.pow_le_mono_r; lia).
  assert (Hparse : strconv.parse s = Some (dval s)).
  { destruct s as [|c r]; [done|].
    pose proof Hall as [Hc%is_digit_range _]%Forall_cons.
    unfold strconv.parse.
    destruct (Ascii.eqb_spec c "+") as [->|_];
      [change (GoString.code "+") with 43 in Hc; lia|].
    destruct (Ascii.eqb_spec c "-") as [->|_];
      [change (GoString.code "-") with 45 in Hc; lia|].
    rewrite digits_dval by done. f_equal. }
  unfold strconv.Atoi. rewrite Hparse.
  unfold strconv.maxInt, strconv.minInt.
  destruct (Z.ltb_spec (2 ^ 63 - 1) (dval s)); [lia|].
  destruct (Z.ltb_spec (dval s) (- 2 ^ 63)); [lia|]. done.
Qed.

Lemma code_compare (c1 c2 : ascii) :
  Ascii.compare c1 c2 = (GoString.code c1 ?= GoString.code c2).
Proof. unfold Ascii.compare, GoString.code. by rewrite N2Z.inj_compare. Qed.

Lemma compare_dval (a : string) : ∀ b : string,
  Forall (λ c, strconv.is_digit c = true) (GoString.bytes a) →
  Forall (λ c, strconv.is_digit c = true) (GoString.bytes b) →
  String.length a = String.length b →
  String.compare a b = (dval a ?= dval b).
Proof.
  induction a as [|c1 r1 IH]; intros [|c2 r2];
    cbn [dval String.length GoString.bytes list_ascii_of_string String.compare];
    try done.
  intros [Hc1%is_digit_range Hr1]%Forall_cons
         [Hc2%is_digit_range Hr2]%Forall_cons [= Hlen].
  pose proof (dval_bound r1 Hr1) as Hb1.
  pose proof (dval_bound r2 Hr2) as Hb2.
  rewrite <- Hlen in *.
  rewrite code_compare.
  destruct (Z.compare_spec (GoString.code c1) (GoString.code c2)) as [He|Hl|Hg].
  - rewrite IH, He by done.
    symmetry. destruct (Z.compare_spec (dval r1) (dval r2));
      [apply Z.compare_eq_iff|apply Z.compare_lt_iff|apply Z.compare_gt_iff]; lia.
  - symmetry. apply Z.compare_lt_iff. nia.
  - symmetry. apply Z.compare_gt_iff. nia.
Qed.

(** On digit strings of one length (at most 18 digits, so that no value
    leaves the range of [int]) the string order is the numeric order. *)
Lemma lt_numeric (a b : string) :
  numeric_string a → numeric_string b →
  String.length a = String.length b → (String.length a ≤ 18)%nat →
  GoString.lt a b = Ordering.sortStringInts_less a b.
Proof.
  intros Ha Hb Hlen Hn.
  unfold Ordering.sortStringInts_less.
  rewrite !Atoi_numeric by (done || lia). simpl.
  unfold GoString.lt, String.ltb.
  rewrite compare_dval by (done || apply Ha || apply Hb).
  unfold Z.ltb. done.
Qed.

Lemma StronglySorted_impl_elem_of {A} (R R' : relation A) (l : list A) :
  (∀ x y, x ∈ l → y ∈ l → R x y → R' x y) →
  StronglySorted R l → StronglySorted R' l.
Proof.
  intros HR Hs. induction Hs as [|x l Hs IH Hall]; [constructor|].
  constructor.
  - apply IH. intros ?? ?? ?. apply HR; by try right.
  - rewrite Forall_forall in *. intros y Hy.
    apply HR; [left|by right|by apply Hall].
Qed.

End numeric_facts.

(** ** The order of the persisted identifiers *)

(** C8, as stated, fails: "321" and "1000" are numeric strings, and the
    persisted current list holds "1000" before "321"; it is not sorted by
    numeric value. *)
Lemma current_not_sorted_by_value :
  ¬ (∀ (fetched loaded : list string) (ids : Catalog.Ids),
        Forall numeric_string fetched →
        Catalog.reconcile fetched loaded = Ok ids →
        sorted_by_value (Catalog.idsCur ids)).
Proof.
  intros H.
  specialize (H ["321"; "1000"] []
                {| Catalog.idsCur := ["1000"; "321"];
                   Catalog.idsArchive := [];
                   Catalog.idsAll := ["1000"; "321"] |}).
  assert (Hn : Forall numeric_string ["321"; "1000"]).
  { repeat constructor; done. }
  specialize (H Hn eq_refl).
  apply StronglySorted_cons in H as [Hlt _].
  apply Forall_cons in Hlt as [Hlt _].
  vm_compute in Hlt. done.
Qed.

(** C8, amended: the persisted current list is the fetch result,
    deduplicated and sorted in the byte-wise order of Go strings, in which
    "1000" precedes "321"; this is the order by numeric value when the
    fetched identifiers are digit strings of one common length (of at most
    18 digits). *)
Theorem current_sorted_by_string_order (fetched loaded : list string) :
  (∃ ids : Catalog.Ids,
    Catalog.reconcile fetched loaded = Ok ids
    ∧ strictly_sorted (Catalog.idsCur ids)
    ∧ (∀ x, x ∈ Catalog.idsCur ids ↔ x ∈ fetched)
    ∧ (∀ n : nat,
         n ≤ 18 →
         Forall (λ s, numeric_string s ∧ String.length s = n) fetched →
         sorted_by_value (Catalog.idsCur ids)))
  ∧ (∀ ids : Catalog.Ids,
       Catalog.reconcile ["321"; "1000"] loaded = Ok ids →
       Catalog.idsCur ids = ["1000"; "321"]).
Proof.
  split.
  - destruct (reconcile_facts fetched loaded)
      as (ids & Hr & Hs & Hm & _).
    exists ids. split; [done|]. split; [done|]. split; [done|].
    intros n Hn Hall. rewrite Forall_forall in Hall.
    eapply StronglySorted_impl_elem_of; [|exact Hs].
    intros x y Hx%Hm%Hall Hy%Hm%Hall Hlt. simpl in *.
    destruct Hx as [Hx Hlx], Hy as [Hy Hly].
    rewrite <- lt_numeric; [done..|congruence|lia].
  - unfold Catalog.reconcile. rewrite diff_eq_diff_list, bind_Ok.
    by intros ids [= <-].
Qed.

Lemma current_sorted_by_string_order_witness :
  ∃ ids : Catalog.Ids,
    Catalog.reconcile ["322"; "321"; "322"] [] = Ok ids
    ∧ Catalog.idsCur ids = ["321"; "322"]
    ∧ sorted_by_value (Catalog.idsCur ids).
Proof.
  destruct (current_sorted_by_string_order ["322"; "321"; "322"] [])
    as [(ids & Hr & _ & _ & Hv) _].
  exists ids. split; [exact Hr|]. split.
  - vm_compute in Hr. injection Hr as <-. reflexivity.
  - apply (Hv 3); [lia|]. repeat constructor; done.
Defined.

(** ** The buffered writer *)

Section bufio_facts.

Ltac writer_simpl :=
  cbn [fst snd length app bufio.out bufio.buf bufio.Flush] in *.

Lemma Write_iter_small (w : bufio.Writer) (p : list ascii) :
  length p ≤ bufio.Available w → bufio.Write_iter (w, p) = (w, p).
Proof. intros H. unfold bufio.Write_iter. by rewrite decide_False by lia. Qed.

Lemma Write_iter_direct (w : bufio.Writer) (p : list ascii) :
  bufio.Available w < length p → length (bufio.buf w) = 0 →
  bufio.Write_iter (w, p)
  = ({| bufio.out := bufio.out w ++ p; bufio.buf := [] |}, []).
Proof.
  intros H Hz. unfold bufio.Write_iter.
  rewrite decide_True, decide_True by done.
  by apply nil_length_inv in Hz as ->.
Qed.

Lemma Write_iter_flush (w : bufio.Writer) (p : list ascii) :
  bufio.Available w < length p → length (bufio.buf w) ≠ 0 →
  bufio.Write_iter (w, p)
  = ({| bufio.out := bufio.out w ++ bufio.buf w
                     ++ take (bufio.Available w) p;
        bufio.buf := [] |}, drop (bufio.Available w) p).
Proof.
  intros H Hnz. unfold bufio.Write_iter.
  by rewrite decide_True, decide_False by done.
Qed.

(** The four ways through the loop of [Write]. *)
Lemma Write_iter_cases (w : bufio.Writer) (p : list ascii) :
  let n := bufio.Available w in
  let s := bufio.Write_iter (bufio.Write_iter (w, p)) in
  (length p ≤ n ∧ s = (w, p))
  ∨ (n < length p ∧ length (bufio.buf w) = 0
     ∧ s = ({| bufio.out := bufio.out w ++ p; bufio.buf := [] |}, []))
  ∨ (n < length p ∧ length (bufio.buf w) ≠ 0
     ∧ length (drop n p) ≤ bufio.defaultBufSize
     ∧ s = ({| bufio.out := bufio.out w ++ bufio.buf w ++ take n p;
               bufio.buf := [] |}, drop n p))
  ∨ (n < length p ∧ length (bufio.buf w) ≠ 0
     ∧ bufio.defaultBufSize < length (drop n p)
     ∧ s = ({| bufio.out := (bufio.out w ++ bufio.buf w ++ take n p)
                            ++ drop n p;
               bufio.buf := [] |}, [])).
Proof.
  intros n s. subst n s.
  destruct (decide (bufio.Available w < length p)) as [Hlt|Hge].
  - destruct (decide (length (bufio.buf w) = 0)) as [Hz|Hnz].
    + right; left. do 2 (split; [done|]).
      rewrite Write_iter_direct by done.
      apply Write_iter_small. simpl. lia.
    + rewrite Write_iter_flush by done.
      destruct (decide (bufio.defaultBufSize
                        < length (drop (bufio.Available w) p))).
      * right; right; right. do 3 (split; [done|]).
        apply Write_iter_direct; [|done].
        unfold bufio.Available in *. writer_simpl. lia.
      * right; right; left. do 2 (split; [done|]). split; [lia|].
        apply Write_iter_small.
        unfold bufio.Available in *. writer_simpl. lia.
  - left. split; [lia|].
    rewrite !Write_iter_small by lia. done.
Qed.

(** The loop of [Write] has exited after two rounds. *)
Lemma Write_loop_exits (w : bufio.Writer) (p : list ascii) :
  length (bufio.Write_iter (bufio.Write_iter (w, p))).2
  ≤ bufio.Available (bufio.Write_iter (bufio.Write_iter (w, p))).1.
Proof.
  destruct (Write_iter_cases w p)
    as [[? ->]|[(? & ? & ->)|[(? & ? & ? & ->)|(? & ? & ? & ->)]]];
    unfold bufio.Available in *; writer_simpl; lia.
Qed.

Lemma Write_written (w : bufio.Writer) (p : list ascii) :
  written (bufio.Write w p) = written w ++ p.
Proof.
  unfold bufio.Write, written.
  destruct (Write_iter_cases w p)
    as [[? ->]|[(? & Hz & ->)|[(? & ? & ? & ->)|(? & ? & ? & ->)]]];
    writer_simpl.
  - by rewrite app_assoc.
  - apply nil_length_inv in Hz. by rewrite Hz, !app_nil_r.
  - by rewrite <- !app_assoc, take_drop.
  - by rewrite !app_nil_r, <- !app_assoc, take_drop.
Qed.

(** Nothing reaches the file while all bytes written fit the buffer. *)
Lemma Write_out_nil (w : bufio.Writer) (p : list ascii) :
  bufio.out w = [] →
  length (written w ++ p) ≤ bufio.defaultBufSize →
  bufio.out (bufio.Write w p) = [].
Proof.
  unfold written. intros Ho. rewrite Ho, length_app. writer_simpl.
  intros Hlen. unfold bufio.Write.
  destruct (Write_iter_cases w p)
    as [[? ->]|[(Hlt & _)|[(Hlt & _)|(Hlt & _)]]];
    [done|unfold bufio.Available in Hlt; lia..].
Qed.

End bufio_facts.

(** ** [saveIds] *)

Section saveIds_facts.

Lemma id_lines_cons (id : string) (ids : list string) :
  id_lines (id :: ids)
  = (GoString.bytes id ++ [Persist.newline]) ++ id_lines ids.
Proof. done. Qed.

Lemma id_lines_app (l1 l2 : list string) :
  id_lines (l1 ++ l2) = id_lines l1 ++ id_lines l2.
Proof. unfold id_lines. by rewrite fmap_app, concat_app. Qed.

(** The loop on identifiers that are all valid: it exits normally, having
    written every line. *)
Lemma saveIds_loop_valid (ids : list string) : ∀ w : bufio.Writer,
  Forall valid_id ids →
  ∃ w', Persist.saveIds_loop ids w = inr w'
        ∧ written w' = written w ++ id_lines ids
        ∧ (bufio.out w = [] →
           length (written w ++ id_lines ids) ≤ bufio.defaultBufSize →
           bufio.out w' = []).
Proof.
  induction ids as [|id ids IH]; intros w Hv.
  - exists w. by rewrite app_nil_r.
  - apply Forall_cons in Hv as [Hid Hv]. unfold valid_id in Hid.
    cbn [Persist.saveIds_loop]. rewrite Hid.
    destruct (IH (bufio.Write w (GoString.bytes id ++ [Persist.newline])) Hv)
      as (w' & Hw' & Hwr & Ho).
    exists w'. split; [done|].
    rewrite Write_written in Hwr, Ho.
    rewrite id_lines_cons, app_assoc. split; [done|].
    intros Hnil Hlen. apply Ho; [|done].
    apply Write_out_nil; [done|]. rewrite length_app in Hlen. lia.
Qed.

(** The loop up to the first invalid identifier: it returns there, having
    written the lines before it. *)
Lemma saveIds_loop_invalid (pre : list string) (bad : string)
    (post : list string) : ∀ w : bufio.Writer,
  Forall valid_id pre → ¬ valid_id bad →
  ∃ w', Persist.saveIds_loop (pre ++ bad :: post) w = inl w'
        ∧ written w' = written w ++ id_lines pre
        ∧ (bufio.out w = [] →
           length (written w ++ id_lines pre) ≤ bufio.defaultBufSize →
           bufio.out w' = []).
Proof.
  induction pre as [|id pre IH]; intros w Hv Hbad.
  - exists w. unfold valid_id in Hbad. cbn [app Persist.saveIds_loop].
    destruct (GoString.contains_byte Persist.newline bad); [|done].
    by rewrite app_nil_r.
  - apply Forall_cons in Hv as [Hid Hv]. unfold valid_id in Hid.
    cbn [app Persist.saveIds_loop]. rewrite Hid.
    destruct (IH (bufio.Write w (GoString.bytes id ++ [Persist.newline]))
                Hv Hbad) as (w' & Hw' & Hwr & Ho).
    exists w'. split; [done|].
    rewrite Write_written in Hwr, Ho.
    rewrite id_lines_cons, app_assoc. split; [done|].
    intros Hnil Hlen. apply Ho; [|done].
    apply Write_out_nil; [done|]. rewrite length_app in Hlen. lia.
Qed.

(** The file written depends on the identifiers only. *)
Lemma saveIds_idempotent (ids : list string) (filename : string)
    (fs : Persist.FS) :
  Persist.saveIds ids filename (Persist.saveIds ids filename fs).2
  = Persist.saveIds ids filename fs.
Proof.
  unfold Persist.saveIds.
  destruct (decide (filename ∈ Persist.denied fs)) as [Hd|Hd]; simpl.
  - by rewrite decide_True.
  - destruct (Persist.saveIds_loop ids bufio.NewWriter) as [w|w]; simpl;
      rewrite decide_False by done; by rewrite insert_insert_eq.
Qed.

End saveIds_facts.

(** C9, as stated, fails: a thousand valid identifiers (5000 bytes of
    lines) followed by one that contains a newline make [saveIds] fail, and
    the file, absent before, is left with the first 4096 bytes of the
    lines. *)
Lemma saveIds_partial_write :
  ¬ (∀ (ids : list string) (filename : string) (fs : Persist.FS),
        filename ∉ Persist.denied fs →
        Exists (λ id, ¬ valid_id id) ids →
        ∃ e, (Persist.saveIds ids filename fs).1 = Some e
             ∧ no_partial_write fs (Persist.saveIds ids filename fs).2 filename).
Proof.
  intros H.
  destruct (H (replicate 1000 "1234"
               ++ [String "a" (String Persist.newline "b")])
              "berlin/ids_all"
              {| Persist.files := ∅; Persist.denied := ∅ |})
    as (e & _ & [Hsame|Hempty]).
  - simpl. set_solver.
  - apply Exists_app. right. constructor. by vm_compute.
  - vm_compute in Hsame. discriminate Hsame.
  - vm_compute in Hempty. discriminate Hempty.
Qed.

(** C9, amended: when the file can be created, saving a list of
    identifiers none of which contains a newline leaves the file with one
    identifier per line, each followed by a newline; saving the same list
    again gives the same result and the same files; when an identifier
    contains a newline, saving fails with the error "Id contains newline",
    and the file, truncated on creation, then holds the part of the lines
    before the first such identifier that the buffered writer has already
    flushed: a prefix of these lines, and nothing when they total at most
    4096 bytes. *)
Theorem saveIds_spec (ids : list string) (filename : string)
    (fs : Persist.FS) :
  filename ∉ Persist.denied fs →
  (Forall valid_id ids →
   Persist.saveIds ids filename fs
   = (None, {| Persist.files := <[filename := id_lines ids]> (Persist.files fs);
               Persist.denied := Persist.denied fs |}))
  ∧ Persist.saveIds ids filename (Persist.saveIds ids filename fs).2
    = Persist.saveIds ids filename fs
  ∧ (∀ (pre : list string) (bad : string) (post : list string),
       ids = pre ++ bad :: post → Forall valid_id pre → ¬ valid_id bad →
       ∃ flushed : list ascii,
         Persist.saveIds ids filename fs
         = (Some (Persist.errorString "Id contains newline"),
            {| Persist.files := <[filename := flushed]> (Persist.files fs);
               Persist.denied := Persist.denied fs |})
         ∧ flushed `prefix_of` id_lines pre
         ∧ (length (id_lines pre) ≤ bufio.defaultBufSize → flushed = [])).
Proof.
  intros Hc. split; [|split; [apply saveIds_idempotent|]].
  - intros Hv. unfold Persist.saveIds. rewrite decide_False by done.
    destruct (saveIds_loop_valid ids bufio.NewWriter Hv)
      as (w & -> & Hwr & _).
    unfold written in Hwr. simpl in Hwr. simpl. by rewrite Hwr.
  - intros pre bad post -> Hv Hbad.
    unfold Persist.saveIds. rewrite decide_False by done.
    destruct (saveIds_loop_invalid pre bad post bufio.NewWriter Hv Hbad)
      as (w & -> & Hwr & Ho).
    exists (bufio.out w). split; [done|].
    unfold written in Hwr, Ho. simpl in Hwr, Ho. split.
    + rewrite <- Hwr. by apply prefix_app_r.
    + intros Hlen. by apply Ho.
Qed.

Lemma saveIds_spec_witness :
  Persist.saveIds ["101"; "102"] "berlin/ids_all"
    {| Persist.files := ∅; Persist.denied := ∅ |}
  = (None,
     {| Persist.files := {[ "berlin/ids_all" := id_lines ["101"; "102"] ]};
        Persist.denied := ∅ |}).
Proof.
  refine (proj1 (saveIds_spec ["101"; "102"] "berlin/ids_all"
                   {| Persist.files := ∅; Persist.denied := ∅ |} _) _).
  - simpl. apply not_elem_of_empty.
  - repeat constructor.
Defined.

(** ** Safe names *)

Section utf8_facts.

Lemma need_le_2 (c : Z) : SafeNameSpec.need c ≤ 2.
Proof. unfold SafeNameSpec.need. case_match; lia. Qed.

Lemma need_small (c : Z) : (c < 0x80)%Z → SafeNameSpec.need c = 1.
Proof.
  intros Hc. unfold SafeNameSpec.need.
  destruct (Z.eqb_spec c 0xE4); [lia|].
  destruct (Z.eqb_spec c 0xF6); [lia|].
  destruct (Z.eqb_spec c 0xFC); [lia|].
  destruct (Z.eqb_spec c 0xDF); [lia|]. done.
Qed.

(** A rune is at least as wide as what it can add to the buffer, and no
    wider than the rest of the string. *)
Lemma DecodeRune_width (p : list ascii) :
  p ≠ [] →
  SafeNameSpec.need (utf8.DecodeRune p).1 ≤ (utf8.DecodeRune p).2
  ∧ 1 ≤ (utf8.DecodeRune p).2 ≤ length p.
Proof.
  destruct p as [|c0 p1]; [done|]. intros _.
  assert (He : SafeNameSpec.need utf8.RuneError = 1) by done.
  unfold utf8.DecodeRune.
  destruct (Z.ltb_spec (GoString.code c0) 0x80) as [Hlt|_].
  { cbn [fst snd length]. rewrite need_small by done. lia. }
  repeat case_match; cbn [fst snd length]; rewrite ?He;
    try match goal with
        | |- context [SafeNameSpec.need ?c] => pose proof (need_le_2 c)
        end; lia.
Qed.

Lemma range_widths (p : list ascii) : ∀ skip : nat,
  skip ≤ length p → skip + SafeNameSpec.widths (utf8.range p skip) = length p.
Proof.
  induction p as [|b p IH]; intros skip Hs; cbn [length] in Hs.
  - cbn. lia.
  - destruct skip as [|k]; cbn [utf8.range].
    + destruct (DecodeRune_width (b :: p)) as (_ & H1 & H2); [done|].
      remember (utf8.DecodeRune (b :: p)) as rw eqn:Hrw. clear Hrw.
      destruct rw as [c w]. cbn [fst snd] in *.
      specialize (IH (w - 1)).
      unfold SafeNameSpec.widths in *.
      rewrite fmap_cons. cbn [snd length] in *.
      change (sum_list (w :: (utf8.range p (w - 1)).*2))
        with (w + sum_list (utf8.range p (w - 1)).*2).
      lia.
    + specialize (IH k). cbn [length]. lia.
Qed.

Lemma range_need (p : list ascii) : ∀ skip : nat,
  Forall (λ rw, SafeNameSpec.need rw.1 ≤ rw.2) (utf8.range p skip).
Proof.
  induction p as [|b p IH]; intros skip; [constructor|].
  destruct skip as [|k]; cbn [utf8.range]; [|apply IH].
  constructor; [|apply IH].
  by destruct (DecodeRune_width (b :: p)) as (? & _).
Qed.

End utf8_facts.

Section safeName_loop.

Lemma need_ge_1 (c : Z) : 1 ≤ SafeNameSpec.need c.
Proof. unfold SafeNameSpec.need. case_match; lia. Qed.

Lemma put1 (s : list ascii) (j : nat) (b : ascii) :
  j + 1 ≤ length s →
  (s' ← store s j b; Ok (s', S j)) = Ok (<[j:=b]> s, S j)
  ∧ length (<[j:=b]> s) = length s
  ∧ take (S j) (<[j:=b]> s) = take j s ++ [b].
Proof.
  intros Hj. rewrite store_ok, bind_Ok, length_insert, take_store by lia.
  done.
Qed.

Lemma put2 (s : list ascii) (j : nat) (b1 b2 : ascii) :
  j + 2 ≤ length s →
  (s1 ← store s j b1; s2 ← store s1 (j + 1) b2; Ok (s2, j + 2))
  = Ok (<[j + 1:=b2]> (<[j:=b1]> s), j + 2)
  ∧ length (<[j + 1:=b2]> (<[j:=b1]> s)) = length s
  ∧ take (j + 2) (<[j + 1:=b2]> (<[j:=b1]> s)) = take j s ++ [b1; b2].
Proof.
  intros Hj. rewrite store_ok, bind_Ok by lia.
  rewrite store_ok, bind_Ok by (rewrite length_insert; lia).
  rewrite !length_insert. split; [done|]. split; [done|].
  replace (j + 2) with (S (j + 1)) by lia.
  rewrite take_store by (rewrite length_insert; lia).
  replace (j + 1) with (S j) by lia.
  rewrite take_store by lia. by rewrite <- app_assoc.
Qed.

(** One round of the loop writes inside the buffer, and what it writes is
    what [eager] appends. *)
Lemma step_eager (s : list ascii) (j : nat) (c : Z) :
  j + SafeNameSpec.need c ≤ length s →
  ∃ s' j', SafeName.step (s, j) c = Ok (s', j')
           ∧ length s' = length s
           ∧ j' ≤ j + SafeNameSpec.need c
           ∧ take j' s' = SafeNameSpec.eager (take j s) c.
Proof.
  intros Hn. pose proof (need_ge_1 c) as H1.
  unfold SafeName.step, SafeNameSpec.eager, SafeNameSpec.translit.
  destruct ((97 <=? c)%Z && (c <=? 122)%Z || (48 <=? c)%Z && (c <=? 57)%Z).
  { destruct (put1 s j (SafeName.byte c)) as (-> & ? & ?); [lia|].
    eexists _, _. split; [done|]. split; [done|]. split; [lia|done]. }
  destruct ((65 <=? c)%Z && (c <=? 90)%Z).
  { destruct (put1 s j (SafeName.byte (c + (97 - 65)))) as (-> & ? & ?); [lia|].
    eexists _, _. split; [done|]. split; [done|]. split; [lia|done]. }
  destruct (Z.eqb_spec c 0xE4) as [->|_].
  { change (SafeNameSpec.need 228) with 2 in *.
    destruct (put2 s j "a" "e") as (-> & ? & ?); [lia|].
    eexists _, _. split; [done|]. split; [done|]. split; [lia|done]. }
  destruct (Z.eqb_spec c 0xF6) as [->|_].
  { change (SafeNameSpec.need 246) with 2 in *.
    destruct (put2 s j "o" "e") as (-> & ? & ?); [lia|].
    eexists _, _. split; [done|]. split; [done|]. split; [lia|done]. }
  destruct (Z.eqb_spec c 0xFC) as [->|_].
  { change (SafeNameSpec.need 252) with 2 in *.
    destruct (put2 s j "u" "e") as (-> & ? & ?); [lia|].
    eexists _, _. split; [done|]. split; [done|]. split; [lia|done]. }
  destruct (Z.eqb_spec c 0xDF) as [->|_].
  { change (SafeNameSpec.need 223) with 2 in *.
    destruct (put2 s j "s" "s") as (-> & ? & ?); [lia|].
    eexists _, _. split; [done|]. split; [done|]. split; [lia|done]. }
  destruct (Z.eqb_spec c 0xE9) as [->|_].
  { destruct (put1 s j "e") as (-> & ? & ?); [lia|].
    eexists _, _. split; [done|]. split; [done|]. split; [lia|done]. }
  destruct j as [|j1].
  { exists s, 0. split; [done|]. split; [done|]. split; [lia|done]. }
  destruct (lookup_lt_is_Some_2 s j1) as [x Hx]; [lia|].
  unfold SafeName.load. rewrite Hx, bind_Ok.
  rewrite (take_S_r _ _ x Hx), last_snoc.
  destruct (Ascii.eqb x "_").
  - exists s, (S j1). split; [done|]. split; [done|]. split; [lia|].
    by rewrite (take_S_r _ _ x Hx).
  - destruct (put1 s (S j1) "_") as (-> & ? & Ht); [lia|].
    eexists _, _. split; [done|]. split; [done|]. split; [lia|].
    by rewrite Ht, (take_S_r _ _ x Hx).
Qed.

Lemma loop_eager (runes : list (Z * nat)) : ∀ (s : list ascii) (j : nat),
  Forall (λ rw, SafeNameSpec.need rw.1 ≤ rw.2) runes →
  j + SafeNameSpec.widths runes ≤ length s →
  ∃ s' j', SafeName.loop runes (s, j) = Ok (s', j')
           ∧ j' ≤ length s'
           ∧ take j' s' = SafeNameSpec.eager_fold (fst <$> runes) (take j s).
Proof.
  induction runes as [|[c w] runes IH]; intros s j Hall Hlen.
  - exists s, j. unfold SafeNameSpec.widths in Hlen. simpl in *.
    split; [done|]. split; [lia|done].
  - apply Forall_cons in Hall as [Hcw Hall]. cbn [fst snd] in Hcw.
    unfold SafeNameSpec.widths in Hlen. rewrite fmap_cons in Hlen.
    change (sum_list (?x :: ?l)) with (x + sum_list l) in Hlen.
    cbn [snd] in Hlen.
    destruct (step_eager s j c) as (s1 & j1 & Hstep & Hl1 & Hj1 & Ht1);
      [lia|].
    cbn [SafeName.loop]. rewrite Hstep, bind_Ok.
    destruct (IH s1 j1 Hall) as (s' & j' & Hloop & Hj' & Ht').
    { unfold SafeNameSpec.widths. lia. }
    exists s', j'. rewrite fmap_cons. cbn [fst SafeNameSpec.eager_fold].
    by rewrite <- Ht1.
Qed.

End safeName_loop.

Section safeName_refinement.

Import SafeNameSpec.

(** The name computed through the buffer is the stripped eager result. *)
Lemma safeName_eager (s : string) :
  SafeName.safeName s
  = Ok (GoString.of_bytes (strip (eager_fold (runes s) []))).
Proof.
  unfold SafeName.safeName, runes.
  set (p := GoString.bytes s).
  destruct (loop_eager (utf8.range p 0) (replicate (length p) zero) 0)
    as (s' & j' & -> & Hj' & Ht).
  { apply range_need. }
  { rewrite length_replicate. pose proof (range_widths p 0). lia. }
  rewrite bind_Ok. cbn beta iota. rewrite take_0 in Ht. rewrite <- Ht.
  destruct j' as [|j1].
  { rewrite bind_Ok. by rewrite take_0. }
  destruct (lookup_lt_is_Some_2 s' j1) as [x Hx]; [lia|].
  unfold SafeName.load. rewrite Hx, !bind_Ok.
  unfold strip. rewrite (take_S_r _ _ x Hx), last_snoc.
  destruct (Ascii.eqb x "_"); [|by rewrite (take_S_r _ _ x Hx)].
  do 2 f_equal. rewrite length_app, length_take_le by lia.
  cbn [length]. replace (j1 + 1 - 1) with j1 by lia.
  by rewrite take_app_length' by (rewrite length_take_le; lia).
Qed.

Lemma code_byte (c : Z) :
  (0 ≤ c < 256)%Z → GoString.code (SafeName.byte c) = c.
Proof.
  intros Hc. unfold GoString.code, SafeName.byte.
  rewrite Z.mod_small by done.
  rewrite N_ascii_embedding by lia. lia.
Qed.

Lemma alnum_not_underscore (b : ascii) :
  alnum b = true → Ascii.eqb b "_" = false.
Proof.
  intros Ha. destruct (Ascii.eqb_spec b "_") as [->|]; [|done].
  by vm_compute in Ha.
Qed.

(** The image of a mapped rune: one or two bytes of [a-z0-9]. *)
Lemma translit_alnum (c : Z) (bs : list ascii) :
  translit c = Some bs → bs ≠ [] ∧ Forall (λ b, alnum b = true) bs.
Proof.
  unfold translit.
  destruct ((97 <=? c)%Z && (c <=? 122)%Z || (48 <=? c)%Z && (c <=? 57)%Z)
    eqn:H1.
  { intros [= <-]. split; [done|]. repeat constructor.
    unfold alnum. rewrite code_byte by lia. done. }
  destruct ((65 <=? c)%Z && (c <=? 90)%Z) eqn:H2.
  { intros [= <-]. split; [done|]. repeat constructor.
    unfold alnum. rewrite code_byte by lia.
    apply orb_true_iff. left. apply andb_true_iff. lia. }
  repeat case_match; intros [= <-]; split; try done; repeat constructor.
Qed.

Lemma name_not_started (pending : bool) (rs : list Z) :
  name false pending rs = name false false rs.
Proof.
  revert pending. induction rs as [|c rs IH]; intros pending; [done|].
  cbn [name]. destruct (translit c); [done|]. by rewrite (IH true).
Qed.

Lemma last_app_alnum (acc bs : list ascii) :
  bs ≠ [] → Forall (λ b, alnum b = true) bs →
  last (acc ++ bs) ≠ Some "_"%char.
Proof.
  intros Hne Hall Hl.
  destruct (last bs) as [x|] eqn:Hx; [|by apply last_None in Hx].
  apply last_app_Some in Hl as [Hl|[Hl _]]; [|congruence].
  rewrite Hx in Hl. injection Hl as ->.
  apply last_Some_elem_of in Hx.
  rewrite Forall_forall in Hall. specialize (Hall _ Hx). by vm_compute in Hall.
Qed.

Lemma strip_keep (acc : list ascii) :
  last acc ≠ Some "_"%char → strip acc = acc.
Proof.
  intros Hl. unfold strip. destruct (last acc) as [x|]; [|done].
  destruct (Ascii.eqb_spec x "_") as [->|]; done.
Qed.

Lemma strip_underscore (acc : list ascii) : strip (acc ++ ["_"%char]) = acc.
Proof.
  unfold strip. rewrite last_snoc. cbn [Ascii.eqb]. simpl Ascii.eqb.
  rewrite length_app. cbn [length].
  replace (length acc + 1 - 1) with (length acc) by lia.
  by rewrite take_app_length.
Qed.

(** The eager loop followed by the final strip is the name by the words
    of the specification. *)
Lemma eager_fold_name (rs : list Z) : ∀ acc : list ascii,
  (last acc ≠ Some "_"%char →
   strip (eager_fold rs acc)
   = acc ++ name (bool_decide (acc ≠ [])) false rs)
  ∧ (∀ acc0, acc = acc0 ++ ["_"%char] → acc0 ≠ [] →
       last acc0 ≠ Some "_"%char →
       strip (eager_fold rs acc) = acc0 ++ name true true rs).
Proof.
  induction rs as [|c rs IH]; intros acc.
  { cbn [eager_fold name]. split.
    - intros Hl. by rewrite strip_keep, app_nil_r.
    - intros acc0 -> _ _. by rewrite strip_underscore, app_nil_r. }
  cbn [eager_fold name]. unfold eager.
  destruct (translit c) as [bs|] eqn:Hc.
  - destruct (translit_alnum c bs Hc) as [Hne Hal].
    destruct (IH (acc ++ bs)) as [IH1 _].
    rewrite IH1 by by apply last_app_alnum.
    rewrite bool_decide_true by (by destruct acc, bs).
    split.
    + intros _. by rewrite andb_false_r, <- app_assoc.
    + intros acc0 -> _ _. by rewrite <- !app_assoc.
  - split.
    + intros Hl. destruct (last acc) as [x|] eqn:Hx.
      * destruct (Ascii.eqb_spec x "_") as [->|Hne]; [done|].
        assert (Hacc : acc ≠ []) by (intros Heq; by rewrite Heq in Hx).
        destruct (IH (acc ++ ["_"%char])) as [_ IH2].
        rewrite <- Hx in Hl.
        rewrite (IH2 acc eq_refl Hacc Hl).
        by rewrite bool_decide_true.
      * apply last_None in Hx as ->.
        destruct (IH []) as [IH1 _]. rewrite IH1 by done.
        rewrite !bool_decide_false by (by intros ?).
        by rewrite (name_not_started true).
    + intros acc0 -> Hne Hl. rewrite last_snoc. simpl Ascii.eqb.
      destruct (IH (acc0 ++ ["_"%char])) as [_ IH2].
      by rewrite (IH2 acc0 eq_refl Hne Hl).
Qed.

(** Refinement: the name computed by [fetchIDs] is the name by the words
    of the specification; in particular no index leaves the buffer. *)
Lemma safeName_refines (s : string) :
  SafeName.safeName s = Ok (GoString.of_bytes (name false false (runes s))).
Proof.
  rewrite safeName_eager.
  destruct (eager_fold_name (runes s) []) as [-> _]; done.
Qed.

End safeName_refinement.

Section name_facts.

Import SafeNameSpec.

Lemma alnum_safe (b : ascii) : alnum b = true → safe b = true.
Proof. unfold safe. by intros ->. Qed.

Lemma name_safe (rs : list Z) : ∀ started pending : bool,
  Forall (λ b, safe b = true) (name started pending rs).
Proof.
  induction rs as [|c rs IH]; intros started pending; [constructor|].
  cbn [name]. destruct (translit c) as [bs|] eqn:Hc; [|apply IH].
  destruct (translit_alnum c bs Hc) as [_ Hal].
  apply Forall_app. split; [by destruct (started && pending); repeat constructor|].
  apply Forall_app. split; [|apply IH].
  eapply Forall_impl; [exact Hal|]. apply alnum_safe.
Qed.

Lemma name_last (rs : list Z) : ∀ started pending : bool,
  name started pending rs = []
  ∨ ∃ x, last (name started pending rs) = Some x ∧ alnum x = true.
Proof.
  induction rs as [|c rs IH]; intros started pending; [by left|].
  cbn [name]. destruct (translit c) as [bs|] eqn:Hc; [|apply IH].
  right. destruct (translit_alnum c bs Hc) as [Hne Hal].
  rewrite app_assoc.
  destruct (IH true false) as [->|(x & Hx & Ha)].
  - rewrite app_nil_r.
    destruct (last bs) as [x|] eqn:Hx; [|by apply last_None in Hx].
    exists x. split.
    + apply last_app_Some. by left.
    + apply last_Some_elem_of in Hx. rewrite Forall_forall in Hal. auto.
  - exists x. split; [|done]. apply last_app_Some. by left.
Qed.

Lemma name_head (rs : list Z) : ∀ pending : bool,
  name false pending rs = []
  ∨ ∃ x l, name false pending rs = x :: l ∧ alnum x = true.
Proof.
  induction rs as [|c rs IH]; intros pending; [by left|].
  cbn [name]. destruct (translit c) as [bs|] eqn:Hc; [|apply IH].
  right. destruct (translit_alnum c bs Hc) as [Hne Hal].
  destruct bs as [|x bs]; [done|].
  apply Forall_cons in Hal as [Hx _].
  cbn [andb app]. by eexists _, _.
Qed.

Lemma single_alnum_app (bs l : list ascii) :
  Forall (λ b, alnum b = true) bs →
  single_underscores l = true → single_underscores (bs ++ l) = true.
Proof.
  induction bs as [|x bs IH]; intros Hal Hl; [done|].
  apply Forall_cons in Hal as [Hx Hal]. specialize (IH Hal Hl).
  cbn [app]. destruct (bs ++ l) as [|y l'] eqn:E; [done|].
  change (single_underscores (x :: y :: l'))
    with (negb (Ascii.eqb x "_" && Ascii.eqb y "_")
          && single_underscores (y :: l')).
  by rewrite IH, (alnum_not_underscore x Hx).
Qed.

Lemma name_single (rs : list Z) : ∀ started pending : bool,
  single_underscores (name started pending rs) = true.
Proof.
  induction rs as [|c rs IH]; intros started pending; [done|].
  cbn [name]. destruct (translit c) as [bs|] eqn:Hc; [|apply IH].
  destruct (translit_alnum c bs Hc) as [Hne Hal].
  pose proof (single_alnum_app bs _ Hal (IH true false)) as Hs.
  destruct (started && pending); [|done].
  destruct bs as [|y bs]; [done|].
  apply Forall_cons in Hal as [Hy _].
  cbn [app] in *.
  change (single_underscores ("_"%char :: y :: ?l))
    with (negb (Ascii.eqb "_" "_" && Ascii.eqb y "_")
          && single_underscores (y :: l)).
  by rewrite Hs, (alnum_not_underscore y Hy).
Qed.

(** A leading run of runes without image adds nothing. *)
Lemma name_leading (pre rest : list Z) :
  Forall (λ c, translit c = None) pre →
  name false false (pre ++ rest) = name false false rest.
Proof.
  induction pre as [|c pre IH]; intros Hall; [done|].
  apply Forall_cons in Hall as [Hc Hall].
  cbn [app name]. rewrite Hc, name_not_started. by apply IH.
Qed.

End name_facts.

(** C5: for every display name the safe name is computed (no index leaves
    the buffer), and it is the name by the words of the specification:
    lowercase letters and digits pass, ASCII uppercase letters are
    lowercased, ä ö ü ß é become ae oe ue ss e, each maximal run of other
    characters gives at most one underscore.  All its bytes are in
    [a-z0-9_], it does not end with an underscore, it holds no two
    underscores in a row, and the same input gives the same output. *)
Theorem safeName_spec (s : string) :
  (∃ out : string,
     SafeName.safeName s = Ok out
     ∧ GoString.bytes out = SafeNameSpec.name false false (SafeNameSpec.runes s)
     ∧ Forall (λ b, SafeNameSpec.safe b = true) (GoString.bytes out)
     ∧ last (GoString.bytes out) ≠ Some "_"%char
     ∧ SafeNameSpec.single_underscores (GoString.bytes out) = true
     ∧ (∀ s' : string, s' = s → SafeName.safeName s' = Ok out))
  ∧ (∀ c : Z, (97 ≤ c ≤ 122 ∨ 48 ≤ c ≤ 57)%Z →
       SafeNameSpec.translit c = Some [SafeName.byte c]
       ∧ GoString.code (SafeName.byte c) = c)
  ∧ (∀ c : Z, (65 ≤ c ≤ 90)%Z →
       SafeNameSpec.translit c = Some [SafeName.byte (c + 32)]
       ∧ GoString.code (SafeName.byte (c + 32)) = (c + 32)%Z)
  ∧ SafeNameSpec.runes "äöüßé" = [0xE4; 0xF6; 0xFC; 0xDF; 0xE9]%Z
  ∧ SafeName.safeName "äöüßé" = Ok "aeoeuesse"
  ∧ SafeName.safeName "Mensa Süd (Kino)" = Ok "mensa_sued_kino".
Proof.
  split; [|split; [|split; [|by vm_compute]]].
  - exists (GoString.of_bytes
              (SafeNameSpec.name false false (SafeNameSpec.runes s))).
    unfold GoString.of_bytes, GoString.bytes.
    rewrite list_ascii_of_string_of_list_ascii.
    split; [apply safeName_refines|]. split; [done|].
    split; [apply name_safe|]. split.
    + destruct (name_last (SafeNameSpec.runes s) false false)
        as [->|(x & -> & Hx)]; [done|].
      intros [= ->]. by vm_compute in Hx.
    + split; [apply name_single|]. intros s' ->. apply safeName_refines.
  - intros c Hc. split; [|apply code_byte; lia].
    unfold SafeNameSpec.translit.
    destruct ((97 <=? c)%Z && (c <=? 122)%Z || (48 <=? c)%Z && (c <=? 57)%Z)
      eqn:E; [done|]. lia.
  - intros c Hc. split; [|apply code_byte; lia].
    unfold SafeNameSpec.translit.
    destruct ((97 <=? c)%Z && (c <=? 122)%Z || (48 <=? c)%Z && (c <=? 57)%Z)
      eqn:E; [lia|].
    destruct ((65 <=? c)%Z && (c <=? 90)%Z) eqn:E2; [done|lia].
Qed.

(** C10: a safe name never begins with an underscore: a run of characters
    without image at the start of the display name adds nothing, and every
    non-empty safe name starts and ends with a byte of [a-z0-9]. *)
Theorem safeName_no_leading_underscore (s out : string) :
  SafeName.safeName s = Ok out →
  head (GoString.bytes out) ≠ Some "_"%char
  ∧ (∀ pre rest : list Z,
       SafeNameSpec.runes s = pre ++ rest →
       Forall (λ c, SafeNameSpec.translit c = None) pre →
       GoString.bytes out = SafeNameSpec.name false false rest)
  ∧ (out ≠ EmptyString →
     (∃ x, head (GoString.bytes out) = Some x ∧ SafeNameSpec.alnum x = true)
     ∧ (∃ y, last (GoString.bytes out) = Some y ∧ SafeNameSpec.alnum y = true)).
Proof.
  rewrite safeName_refines. intros [= <-].
  unfold GoString.of_bytes, GoString.bytes.
  rewrite list_ascii_of_string_of_list_ascii.
  split; [|split].
  - destruct (name_head (SafeNameSpec.runes s) false)
      as [->|(x & l & -> & Hx)]; [done|].
    intros [= ->]. by vm_compute in Hx.
  - intros pre rest -> Hall. by apply name_leading.
  - intros Hne.
    assert (Hne' : SafeNameSpec.name false false (SafeNameSpec.runes s) ≠ []).
    { intros E. apply Hne. by rewrite E. }
    split.
    + destruct (name_head (SafeNameSpec.runes s) false)
        as [?|(x & l & -> & Hx)]; [done|]. by exists x.
    + destruct (name_last (SafeNameSpec.runes s) false false)
        as [?|(x & Hl & Hx)]; [done|]. by exists x.
Qed.

Lemma safeName_no_leading_underscore_witness :
  SafeName.safeName "(Kino) Süd!" = Ok "kino_sued"
  ∧ head (GoString.bytes "kino_sued") ≠ Some "_"%char.
Proof.
  assert (H : SafeName.safeName "(Kino) Süd!" = Ok "kino_sued") by by vm_compute.
  split; [exact H|].
  exact (proj1 (safeName_no_leading_underscore "(Kino) Süd!" "kino_sued" H)).
Defined.

(** ** Price extraction *)

Section price_facts.

Lemma span_digits_digits (s : list ascii) :
  Forall (λ c, strconv.is_digit c = true) (regexp.span_digits s).1.
Proof.
  induction s as [|c s IH]; [constructor|].
  cbn [regexp.span_digits].
  destruct (strconv.is_digit c) eqn:Hc; [|constructor].
  destruct (regexp.span_digits s) as [ds rest]. by constructor.
Qed.

(** A match is a comma-separated decimal amount. *)
Lemma match_here_decimal (s m : list ascii) :
  regexp.match_here s = Some m → decimal "," (GoString.of_bytes m).
Proof.
  unfold regexp.match_here.
  pose proof (span_digits_digits s) as Hd.
  destruct (regexp.span_digits s) as [ds rest]. cbn [fst] in Hd.
  destruct ds as [|d ds]; [done|].
  destruct rest as [|c [|d1 [|d2 rest]]]; try done.
  destruct (Ascii.eqb_spec c ",") as [->|]; [|done].
  destruct (strconv.is_digit d1) eqn:H1; [|done].
  destruct (strconv.is_digit d2) eqn:H2; [|done].
  intros [= <-]. by exists (d :: ds), d1, d2.
Qed.

Lemma find_all_decimal (s : list ascii) : ∀ skip : nat,
  Forall (decimal ",") (GoString.of_bytes <$> regexp.find_all s skip).
Proof.
  induction s as [|c s IH]; intros skip; [constructor|].
  cbn [regexp.find_all]. destruct skip as [|k]; [|apply IH].
  destruct (regexp.match_here (c :: s)) as [m|] eqn:Hm; [|apply IH].
  rewrite fmap_cons. constructor; [|apply IH].
  by apply match_here_decimal in Hm.
Qed.

Lemma FindAllString_decimal (s : string) :
  Forall (decimal ",") (regexp.FindAllString s).
Proof. apply find_all_decimal. Qed.

Lemma replace_digits (ds rest : list ascii) :
  Forall (λ c, strconv.is_digit c = true) ds →
  GoString.replace_first "," "." (GoString.of_bytes (ds ++ "," :: rest))%char
  = GoString.of_bytes (ds ++ "." :: rest)%char.
Proof.
  induction ds as [|d ds IH]; intros Hd; [done|].
  apply Forall_cons in Hd as [Hc Hd].
  cbn [app GoString.of_bytes string_of_list_ascii GoString.replace_first].
  destruct (Ascii.eqb_spec d ",") as [->|_]; [by vm_compute in Hc|].
  f_equal. by apply IH.
Qed.

(** Replacing the comma of a decimal amount gives the amount with a dot. *)
Lemma replace_decimal (m : string) :
  decimal "," m → decimal "." (GoString.replace_first "," "." m).
Proof.
  intros (ds & d1 & d2 & -> & Hne & Hd & H1 & H2).
  exists ds, d1, d2. by rewrite replace_digits.
Qed.

(** *** The scan finds the matches of the pattern, all of them *)

Lemma span_digits_app (ds rest : list ascii) :
  Forall (λ c, strconv.is_digit c = true) ds →
  (∀ c rest', rest = c :: rest' → strconv.is_digit c = false) →
  regexp.span_digits (ds ++ rest) = (ds, rest).
Proof.
  intros Hd Hrest. induction Hd as [|d ds Hc Hd IH].
  - destruct rest as [|c rest]; [done|]. cbn.
    by rewrite (Hrest c rest).
  - cbn [app regexp.span_digits]. by rewrite Hc, IH.
Qed.

Lemma span_digits_split (s : list ascii) :
  s = (regexp.span_digits s).1 ++ (regexp.span_digits s).2.
Proof.
  induction s as [|c s IH]; [done|]. cbn [regexp.span_digits].
  destruct (strconv.is_digit c); [|done].
  destruct (regexp.span_digits s) as [ds rest]. cbn in *. by rewrite <- IH.
Qed.

Lemma amount_length (m : list ascii) : PriceSpec.amount m → 4 ≤ length m.
Proof.
  intros (ds & d1 & d2 & -> & Hne & _). rewrite length_app.
  destruct ds; [done|]. cbn. lia.
Qed.

(** At the start of a string that begins with an amount, the scan finds
    this amount. *)
Lemma match_here_amount (m rest : list ascii) :
  PriceSpec.amount m → regexp.match_here (m ++ rest) = Some m.
Proof.
  intros (ds & d1 & d2 & -> & Hne & Hd & H1 & H2).
  unfold regexp.match_here. rewrite <- app_assoc.
  rewrite span_digits_app; [|done|by intros c rest' [= <- _]].
  destruct ds as [|d ds]; [done|]. cbn [app].
  by rewrite H1, H2.
Qed.

(** What the scan finds at the start of a string is an amount with which
    the string begins. *)
Lemma match_here_Some (s m : list ascii) :
  regexp.match_here s = Some m →
  PriceSpec.amount m ∧ m `prefix_of` s.
Proof.
  unfold regexp.match_here.
  pose proof (span_digits_digits s) as Hd.
  pose proof (span_digits_split s) as Hs.
  destruct (regexp.span_digits s) as [ds rest]. cbn [fst snd] in Hd, Hs.
  destruct ds as [|d ds]; [done|].
  destruct rest as [|c [|d1 [|d2 rest]]]; try done.
  destruct (Ascii.eqb_spec c ",") as [->|]; [|done].
  destruct (strconv.is_digit d1) eqn:H1; [|done].
  destruct (strconv.is_digit d2) eqn:H2; [|done].
  intros [= <-]. split.
  - by exists (d :: ds), d1, d2.
  - exists rest. rewrite Hs. cbn [app]. f_equal.
    by rewrite <- app_assoc.
Qed.

Lemma match_here_None (s : list ascii) :
  regexp.match_here s = None → ¬ PriceSpec.match_at s 0.
Proof.
  intros Hn (m & Hm & rest & Hs). rewrite drop_0 in Hs.
  by rewrite Hs, match_here_amount in Hn.
Qed.

Lemma find_all_skip (s : list ascii) : ∀ skip : nat,
  regexp.find_all s skip = regexp.find_all (drop skip s) 0.
Proof.
  induction s as [|c s IH]; intros [|k]; try done.
  cbn [regexp.find_all drop]. apply IH.
Qed.

(** The scan behind a match goes on with what follows the match. *)
Lemma find_all_match (m rest : list ascii) :
  PriceSpec.amount m →
  regexp.find_all (m ++ rest) 0 = m :: regexp.find_all rest 0.
Proof.
  intros Hm. pose proof (amount_length m Hm) as Hlen.
  pose proof (match_here_amount m rest Hm) as Hh.
  destruct m as [|c m]; [cbn in Hlen; lia|].
  cbn [app regexp.find_all] in *. rewrite Hh. f_equal.
  rewrite find_all_skip. cbn [length].
  replace (S (length m) - 1) with (length m) by lia.
  by rewrite drop_app_length.
Qed.

Lemma find_all_matches (n : nat) : ∀ s gap : list ascii,
  length s ≤ n →
  (∀ k, k < length gap → ¬ PriceSpec.match_at (gap ++ s) k) →
  PriceSpec.matches (gap ++ s) (regexp.find_all s 0).
Proof.
  assert (Hend : ∀ gap : list ascii,
            (∀ k, k < length gap → ¬ PriceSpec.match_at (gap ++ []) k) →
            PriceSpec.matches (gap ++ []) []).
  { intros gap Hgap. constructor. intros k.
    destruct (decide (k < length gap)) as [Hk|Hk]; [by apply Hgap|].
    intros (m & Hm & Hp). apply amount_length in Hm.
    apply prefix_length in Hp. rewrite length_drop, length_app in Hp.
    cbn [length] in Hp. lia. }
  induction n as [|n IH]; intros s gap Hlen Hgap.
  { destruct s; [by apply Hend|cbn in Hlen; lia]. }
  destruct s as [|c s]; [by apply Hend|]. cbn [length] in Hlen.
  destruct (regexp.match_here (c :: s)) as [m|] eqn:Hh.
  - apply match_here_Some in Hh as [Hm [rest Hs]].
    assert (length (c :: s) = length (m ++ rest)) as Hl by by rewrite Hs.
    rewrite length_app in Hl. cbn [length] in Hl.
    rewrite Hs in Hgap |- *. rewrite find_all_match by done.
    constructor; [done|done|].
    apply (IH rest []); [|cbn; lia].
    apply amount_length in Hm. lia.
  - cbn [regexp.find_all]. rewrite Hh.
    rewrite (cons_middle c gap s), app_assoc.
    apply IH; [lia|].
    intros k Hk. rewrite <- app_assoc, <- cons_middle.
    rewrite length_app in Hk. cbn [length] in Hk.
    destruct (decide (k < length gap)) as [Hk'|Hk']; [by apply Hgap|].
    replace k with (length gap) by lia.
    intros (m & Hm & Hp). rewrite drop_app_length in Hp.
    apply (match_here_None _ Hh). exists m. by rewrite drop_0.
Qed.

Lemma find_all_none (s : list ascii) :
  (∀ k, ¬ PriceSpec.match_at s k) → regexp.find_all s 0 = [].
Proof.
  induction s as [|c s IH]; intros Hno; [done|].
  cbn [regexp.find_all].
  destruct (regexp.match_here (c :: s)) as [m|] eqn:Hh.
  - apply match_here_Some in Hh as [Hm Hp].
    destruct (Hno 0). exists m. by rewrite drop_0.
  - apply IH. intros k Hk. by apply (Hno (S k)).
Qed.

Lemma find_all_gap (gap : list ascii) : ∀ m rest : list ascii,
  PriceSpec.amount m →
  (∀ k, k < length gap → ¬ PriceSpec.match_at (gap ++ m ++ rest) k) →
  regexp.find_all (gap ++ m ++ rest) 0 = m :: regexp.find_all rest 0.
Proof.
  induction gap as [|c gap IH]; intros m rest Hm Hgap.
  - exact (find_all_match m rest Hm).
  - cbn [app regexp.find_all].
    destruct (regexp.match_here (c :: gap ++ m ++ rest)) as [m'|] eqn:Hh.
    + apply match_here_Some in Hh as [Hm' Hp].
      destruct (Hgap 0); [cbn; lia|]. exists m'. by rewrite drop_0.
    + apply IH; [done|]. intros k Hk. apply (Hgap (S k)). cbn. lia.
Qed.

(** The matches in a string are what the scan finds, and nothing else. *)
Lemma matches_find_all (s : list ascii) (ms : list (list ascii)) :
  PriceSpec.matches s ms ↔ regexp.find_all s 0 = ms.
Proof.
  split.
  - induction 1 as [s Hno|gap m rest ms Hm Hgap _ IH].
    + by apply find_all_none.
    + rewrite find_all_gap by done. by rewrite IH.
  - intros <-. apply (find_all_matches (length s) s []); [done|].
    cbn. lia.
Qed.

Lemma FindAllString_matches (s : string) (ms : list (list ascii)) :
  PriceSpec.matches (GoString.bytes s) ms
  ↔ regexp.FindAllString s = GoString.of_bytes <$> ms.
Proof.
  rewrite matches_find_all. unfold regexp.FindAllString. split.
  - by intros ->.
  - intros H.
    apply (f_equal (fmap (M:=list) GoString.bytes)) in H.
    rewrite <- !list_fmap_compose in H.
    rewrite !(list_fmap_ext (GoString.bytes ∘ GoString.of_bytes) id) in H
      by (intros ? x ?; apply list_ascii_of_string_of_list_ascii).
    by rewrite !list_fmap_id in H.
Qed.

End price_facts.

(** C2: for every price text, with [m] the matches of [\d+,\d{2}]: [m] holds
    all the matches of the pattern in the text, from left to right, each
    the first match behind the one before, and nothing else (so "12,50" is
    found as a whole); no match gives no price and no log line; one match
    gives one price with role "other"; three matches give three prices
    with the roles student, employee, other in this order; any other number
    of matches gives no price and one log line; every match is a decimal
    amount with a comma, and every stored price is the match with the comma
    replaced by a dot ("3,50" is stored as "3.50"). *)
Theorem extract_spec (id name prices : string) :
  let m := regexp.FindAllString prices in
  let dot := GoString.replace_first "," "." in
  Forall (decimal ",") m
  ∧ (m = [] → Prices.extract id name prices = Ok ([], []))
  ∧ (∀ p, m = [p] →
       Prices.extract id name prices
       = Ok ([{| Price_Price := dot p; Price_Role := "other" |}], []))
  ∧ (∀ p0 p1 p2, m = [p0; p1; p2] →
       Prices.extract id name prices
       = Ok ([{| Price_Price := dot p0; Price_Role := "student" |};
              {| Price_Price := dot p1; Price_Role := "employee" |};
              {| Price_Price := dot p2; Price_Role := "other" |}], []))
  ∧ (length m ≠ 0 → length m ≠ 1 → length m ≠ 3 →
       Prices.extract id name prices
       = Ok ([], [{| Prices.log_id := id; Prices.log_name := name;
                     Prices.log_count := length m;
                     Prices.log_prices := prices |}]))
  ∧ (∀ ps log, Prices.extract id name prices = Ok (ps, log) →
       Forall (λ p, decimal "." (Price_Price p)
                    ∧ ∃ p0, p0 ∈ m ∧ Price_Price p = dot p0) ps)
  ∧ Prices.extract id name "3,50"
    = Ok ([{| Price_Price := "3.50"; Price_Role := "other" |}], [])
  ∧ Prices.extract id name "2,10 / 3,20 / 4,00"
    = Ok ([{| Price_Price := "2.10"; Price_Role := "student" |};
           {| Price_Price := "3.20"; Price_Role := "employee" |};
           {| Price_Price := "4.00"; Price_Role := "other" |}], [])
  ∧ Prices.extract id name "2,10 / 3,20"
    = Ok ([], [{| Prices.log_id := id; Prices.log_name := name;
                  Prices.log_count := 2;
                  Prices.log_prices := "2,10 / 3,20" |}])
  ∧ Prices.extract id name "1,00 2,00 3,00 4,00"
    = Ok ([], [{| Prices.log_id := id; Prices.log_name := name;
                  Prices.log_count := 4;
                  Prices.log_prices := "1,00 2,00 3,00 4,00" |}])
  ∧ (∀ ms : list (list ascii),
       PriceSpec.matches (GoString.bytes prices) ms
       ↔ m = GoString.of_bytes <$> ms)
  ∧ (∀ (gap p rest : list ascii),
       GoString.bytes prices = gap ++ p ++ rest →
       PriceSpec.amount p →
       (∀ k, k < length gap → ¬ PriceSpec.match_at (gap ++ p ++ rest) k) →
       m = GoString.of_bytes p :: regexp.FindAllString (GoString.of_bytes rest))
  ∧ ((∀ k, ¬ PriceSpec.match_at (GoString.bytes prices) k) ↔ m = [])
  ∧ Prices.extract id name "12,50"
    = Ok ([{| Price_Price := "12.50"; Price_Role := "other" |}], [])
  ∧ Prices.extract id name "ab 10,90 / 112,05 / 7,500"
    = Ok ([{| Price_Price := "10.90"; Price_Role := "student" |};
           {| Price_Price := "112.05"; Price_Role := "employee" |};
           {| Price_Price := "7.50"; Price_Role := "other" |}], [])
  ∧ regexp.FindAllString "1,234,56 x12,3 ,45 6,7a 89,01"
    = ["1,23"; "4,56"; "89,01"].
Proof.
  intros m dot.
  pose proof (FindAllString_decimal prices) as Hm. fold m in Hm.
  split; [done|].
  unfold Prices.extract. fold m.
  split; [by intros ->|]. split; [by intros p ->|].
  split; [by intros p0 p1 p2 ->|].
  split.
  { intros H0 H1 H3.
    destruct m as [|p0 [|p1 [|p2 [|p3 m']]]]; simpl in *; done. }
  split.
  { intros ps log.
    destruct m as [|p0 [|p1 [|p2 [|p3 m']]]]; cbn [length].
    - intros [= <- <-]. constructor.
    - intros [= <- <-]. apply Forall_cons in Hm as [H0 _].
      repeat constructor; [by apply replace_decimal|].
      exists p0. split; [left|done].
    - intros [= <- <-]. constructor.
    - intros [= <- <-].
      apply Forall_cons in Hm as [H0 Hm].
      apply Forall_cons in Hm as [H1 Hm].
      apply Forall_cons in Hm as [H2 _].
      repeat constructor; try by apply replace_decimal.
      + exists p0. split; [set_solver|done].
      + exists p1. split; [set_solver|done].
      + exists p2. split; [set_solver|done].
    - intros [= <- <-]. constructor. }
  do 4 (split; [done|]).
  split; [intros ms; apply FindAllString_matches|].
  split.
  { intros gap p rest Hs Hp Hgap. subst m.
    unfold regexp.FindAllString. rewrite Hs, find_all_gap by done.
    unfold GoString.bytes, GoString.of_bytes.
    by rewrite list_ascii_of_string_of_list_ascii. }
  split; [|done].
  pose proof (FindAllString_matches prices []) as Hnil.
  cbn [fmap list_fmap] in Hnil. subst m. rewrite <- Hnil. split.
  - intros Hno. by constructor.
  - intros H. by inversion H.
Qed.

Lemma extract_spec_witness :
  Prices.extract "321" "Salat" "nur 13,50"
  = Ok ([{| Price_Price := "13.50"; Price_Role := "other" |}], [])
  ∧ regexp.FindAllString "nur 13,50" = ["13,50"].
Proof.
  destruct (extract_spec "321" "Salat" "nur 13,50")
    as (_ & _ & Hone & _ & _ & _ & _ & _ & _ & _ & _ & Hnext & _).
  assert (H : regexp.FindAllString "nur 13,50" = ["13,50"]).
  { apply (Hnext (GoString.bytes "nur ") (GoString.bytes "13,50") []).
    - reflexivity.
    - exists (GoString.bytes "13"), "5"%char, "0"%char.
      split; [done|]. split; [done|]. split; [|done].
      by apply Forall_cons_2; [|apply Forall_cons_2; [|apply Forall_nil]].
    - intros k Hk (p & (ds & d1 & d2 & -> & Hne & Hd & _) & rest & Hp).
      destruct ds as [|d ds]; [done|]. apply Forall_cons in Hd as [Hd _].
      cbn [length GoString.bytes list_ascii_of_string] in Hk.
      destruct k as [|[|[|[|k]]]]; [| | | |lia];
        cbn in Hp; injection Hp as <- _; by vm_compute in Hd. }
  split; [|exact H]. exact (Hone "13,50" H).
Defined.

(** ** The serializer *)

Section serializer_facts.

Import xml Serializer.

Lemma closed_all_empty (cs : list Category) :
  closed cs = true ↔ Forall (λ c, Category_Meals c = []) cs.
Proof.
  induction cs as [|c cs IH]; [by split; [constructor|]|].
  cbn [closed]. rewrite Forall_cons, <- IH.
  destruct (Category_Meals c) as [|m ms]; cbn; [tauto|].
  split; [done|]. by intros [? _].
Qed.

Lemma Encode_by_value (cs : list Category) :
  mjoin (Encode_Category false <$> cs) = marshal_Category <$> cs.
Proof. induction cs as [|c cs IH]; [done|]. cbn. by rewrite <- IH. Qed.

End serializer_facts.

(** C3, evaluated on the code.  A day is rendered as one [day] element
    with its date, and its only child is the [closed] marker exactly when no
    category has a meal; a day that is not closed holds one [category]
    element for every category, with or without meals, because
    [e.Encode(c)] is given the category by value and does not reach
    [MarshalXML] of the pointer type, the method that leaves out a category
    without meals.  A day with the categories "Essen" (one meal) and
    "Aktionen" (no meal) is rendered with an empty [category] element for
    "Aktionen". *)
Theorem Day_MarshalXML_empty_category :
  (∀ d : Day,
     ∃ children : list xml.Node,
       Serializer.Day_MarshalXML d
       = [xml.Element "day" [("date", Day_Date d)] children]
       ∧ (children = [xml.Element "closed" [] []] ↔ all_empty d)
       ∧ (¬ all_empty d →
          children = xml.marshal_Category <$> Day_Categories d))
  ∧ (∀ c : Category,
       Category_Meals c = [] → Serializer.Category_MarshalXML c = [])
  ∧ Serializer.Day_MarshalXML
      {| Day_Date := "2024-05-06";
         Day_Categories :=
           [{| Category_Name := "Essen";
               Category_Meals :=
                 [{| Meal_Name := "Suppe"; Meal_Notes := [];
                     Meal_Prices := [] |}] |};
            {| Category_Name := "Aktionen"; Category_Meals := [] |}] |}
    = [xml.Element "day" [("date", "2024-05-06")]
         [xml.Element "category" [("name", "Essen")]
            [xml.Element "meal" []
               [xml.Element "name" [] [xml.CharData "Suppe"]]];
          xml.Element "category" [("name", "Aktionen")] []]].
Proof.
  split; [|split; [|done]].
  - intros d. unfold Serializer.Day_MarshalXML, all_empty.
    pose proof (closed_all_empty (Day_Categories d)) as Hc.
    destruct (Serializer.closed (Day_Categories d)).
    + eexists. split; [done|]. split; [|intros Hn; destruct Hn; by apply Hc].
      split; [intros _; by apply Hc|done].
    + eexists. split; [done|]. rewrite Encode_by_value.
      split; [|done]. split.
      * destruct (Day_Categories d) as [|c cs]; [|done].
        intros _. constructor.
      * intros Hall%Hc. done.
  - intros c Hc. unfold Serializer.Category_MarshalXML. by rewrite Hc.
Qed.

(** C7: a [Times] value with exactly 7 slots is rendered as the [times]
    element holding the seven weekday elements monday .. sunday in this
    order, the element of a slot carrying closed="true" when the slot is the
    empty string and open=<the slot> otherwise; a slot array that is
    neither empty nor of length 7 makes [MarshalXML] panic. *)
Theorem Times_MarshalXML_spec (openingHours : list string)
    (start : xml.StartElement) :
  (length openingHours = 7 →
   Serializer.Times_MarshalXML openingHours start
   = Ok [xml.Element "times" [("type", "opening")]
           (zip_with (λ name h, xml.Element name [day_attr h] [])
                     Serializer.weekdays openingHours)])
  ∧ (length openingHours ≠ 0 → length openingHours ≠ 7 →
     Serializer.Times_MarshalXML openingHours start
     = Panic "len(times.openingHours) != 7 and not empty").
Proof.
  split.
  - intros Hlen.
    destruct openingHours as [|h0 [|h1 [|h2 [|h3 [|h4 [|h5 [|h6 [|h7 l]]]]]]]];
      try done.
  - intros H0 H7. unfold Serializer.Times_MarshalXML.
    by rewrite decide_False, decide_True.
Qed.

Lemma Times_MarshalXML_spec_witness :
  Serializer.Times_MarshalXML
    ["08:00-16:00"; "08:00-16:00"; "08:00-16:00"; "08:00-16:00";
     "08:00-14:00"; ""; ""]
    {| xml.Name := "times"; xml.Attr := [] |}
  = Ok [xml.Element "times" [("type", "opening")]
          [xml.Element "monday" [("open", "08:00-16:00")] [];
           xml.Element "tuesday" [("open", "08:00-16:00")] [];
           xml.Element "wednesday" [("open", "08:00-16:00")] [];
           xml.Element "thursday" [("open", "08:00-16:00")] [];
           xml.Element "friday" [("open", "08:00-14:00")] [];
           xml.Element "saturday" [("closed", "true")] [];
           xml.Element "sunday" [("closed", "true")] []]]
  ∧ Serializer.Times_MarshalXML ["08:00-16:00"; ""]
      {| xml.Name := "times"; xml.Attr := [] |}
    = Panic "len(times.openingHours) != 7 and not empty".
Proof.
  split.
  - apply (proj1 (Times_MarshalXML_spec
                    ["08:00-16:00"; "08:00-16:00"; "08:00-16:00";
                     "08:00-16:00"; "08:00-14:00"; ""; ""]
                    {| xml.Name := "times"; xml.Attr := [] |})).
    reflexivity.
  - apply (proj2 (Times_MarshalXML_spec ["08:00-16:00"; ""]
                    {| xml.Name := "times"; xml.Attr := [] |}));
      simpl; lia.
Defined.

(** ** Opening hours *)

Section openingHours_facts.

Import OpeningHours.

Lemma find_day_bound (name : string) (ds : list string) : ∀ j k : nat,
  find_day name ds j = Some k → j ≤ k < j + length ds.
Proof.
  induction ds as [|d ds IH]; intros j k; [done|].
  cbn [find_day length]. destruct (decide (name = d)).
  - intros [= <-]. lia.
  - intros Hk%IH. lia.
Qed.

Lemma day_index_lt (name : string) : day_index name < 7.
Proof.
  unfold day_index. destruct (find_day name days 0) as [k|] eqn:Hk.
  - apply find_day_bound in Hk. simpl in *. lia.
  - simpl. lia.
Qed.

Lemma fill_spec (n : nat) : ∀ (hours : list string) (j : nat) (v : string),
  j + n ≤ length hours →
  ∃ hours', fill hours j n v = Ok hours'
    ∧ length hours' = length hours
    ∧ ∀ i, hours' !! i
           = if decide (j ≤ i < j + n) then Some v else hours !! i.
Proof.
  induction n as [|n IH]; intros hours j v Hlen.
  - exists hours. split; [done|]. split; [done|]. intros i.
    by rewrite decide_False by lia.
  - cbn [fill]. rewrite store_ok, bind_Ok by lia.
    destruct (IH (<[j:=v]> hours) (S j) v) as (h' & -> & Hl & Hi).
    { rewrite length_insert. lia. }
    exists h'. split; [done|]. rewrite Hl, length_insert. split; [done|].
    intros i. rewrite Hi.
    destruct (decide (S j ≤ i < S j + n)).
    + by rewrite decide_True by lia.
    + destruct (decide (i = j)) as [->|Hne].
      * rewrite decide_True by lia. apply list_lookup_insert_eq. lia.
      * rewrite decide_False by lia. by apply list_lookup_insert_ne.
Qed.

Lemma scan_take (n : nat) : ∀ (blocks : list (option Submatch))
    (hours : list string),
  scan n blocks hours = scan n (take n blocks) hours.
Proof.
  induction n as [|n IH]; intros blocks hours; [done|].
  destruct blocks as [|[m|] blocks]; [done| |done].
  cbn [scan take]. destruct (expand m hours) as [h|msg]; [|done].
  rewrite !bind_Ok. apply IH.
Qed.

Lemma scan_stop (n : nat) : ∀ (ms : list Submatch)
    (post : list (option Submatch)) (hours : list string),
  scan n ((Some <$> ms) ++ None :: post) hours
  = scan n (Some <$> ms) hours.
Proof.
  induction n as [|n IH]; intros ms post hours; [done|].
  destruct ms as [|m ms]; [done|].
  cbn [scan fmap list_fmap app].
  destruct (expand m hours) as [h|msg]; [|done].
  rewrite !bind_Ok. apply IH.
Qed.

Lemma expand_length (m : Submatch) (hours hours' : list string) :
  length hours = 7 → expand m hours = Ok hours' → length hours' = 7.
Proof.
  intros Hlen. unfold expand.
  set (d1 := day_index (dayStart m)).
  set (d2 := if decide (dayEnd m = EmptyString) then d1
             else day_index (dayEnd m)).
  assert (d2 < 7).
  { subst d2 d1. destruct (decide _); apply day_index_lt. }
  destruct (decide (d2 < d1)); [done|].
  destruct (fill_spec (S d2 - d1) hours d1
              (GoString.join [hoursStart m; hoursEnd m] "-"))
    as (h' & -> & Hl & _); [lia|].
  intros [= <-]. lia.
Qed.

Lemma scan_length (n : nat) : ∀ (blocks : list (option Submatch))
    (hours hours' : list string),
  length hours = 7 → scan n blocks hours = Ok hours' → length hours' = 7.
Proof.
  induction n as [|n IH]; intros blocks hours hours' Hlen.
  { by intros [= <-]. }
  destruct blocks as [|[m|] blocks]; cbn [scan]; try by intros [= <-].
  destruct (expand m hours) as [h|msg] eqn:He; [|done].
  rewrite bind_Ok. apply IH. by eapply expand_length.
Qed.

(** *** Every matching block up to the first one without match *)

(** One block: a panic or the slots it covers. *)
Lemma expand_slots (m : Submatch) (hs : list string) :
  length hs = 7 →
  (OpeningHoursSpec.end_day m < OpeningHoursSpec.start_day m →
   expand m hs = Panic "dayEnd < dayStart")
  ∧ (OpeningHoursSpec.start_day m ≤ OpeningHoursSpec.end_day m →
     ∃ hs', expand m hs = Ok hs'
       ∧ length hs' = 7
       ∧ ∀ i, hs' !! i
              = if decide (OpeningHoursSpec.covers m i)
                then Some (OpeningHoursSpec.hours m) else hs !! i).
Proof.
  intros Hlen.
  unfold OpeningHoursSpec.covers, OpeningHoursSpec.end_day,
    OpeningHoursSpec.start_day, OpeningHoursSpec.hours.
  set (d1 := day_index (dayStart m)).
  set (d2 := if decide (dayEnd m = EmptyString) then d1
             else day_index (dayEnd m)).
  assert (d2 < 7).
  { subst d2 d1. destruct (decide _); apply day_index_lt. }
  unfold expand. fold d1. fold d2. split.
  - intros Hlt. by rewrite decide_True.
  - intros Hle. rewrite decide_False by lia.
    destruct (fill_spec (S d2 - d1) hs d1
                (GoString.join [hoursStart m; hoursEnd m] "-"))
      as (h' & -> & Hl & Hi); [lia|].
    exists h'. split; [done|]. split; [lia|].
    intros i. rewrite Hi.
    destruct (decide (d1 ≤ i ≤ d2)).
    + by rewrite decide_True by lia.
    + by rewrite decide_False by lia.
Qed.

Lemma slot_cons (i : nat) (m : Submatch) (ms : list Submatch)
    (cur : string) :
  OpeningHoursSpec.slot i (m :: ms) cur
  = OpeningHoursSpec.slot i ms
      (if decide (OpeningHoursSpec.covers m i)
       then OpeningHoursSpec.hours m else cur).
Proof. done. Qed.

(** The scan expands every matching block before the first block without
    match, up to [n] of them, in order. *)
Lemma scan_slots (n : nat) : ∀ (blocks : list (option Submatch))
    (hs : list string),
  length hs = 7 →
  (Exists (λ m, OpeningHoursSpec.end_day m < OpeningHoursSpec.start_day m)
     (take n (OpeningHoursSpec.leading blocks)) →
   scan n blocks hs = Panic "dayEnd < dayStart")
  ∧ (Forall (λ m, OpeningHoursSpec.start_day m ≤ OpeningHoursSpec.end_day m)
       (take n (OpeningHoursSpec.leading blocks)) →
     ∃ hs', scan n blocks hs = Ok hs'
       ∧ length hs' = 7
       ∧ ∀ i cur, hs !! i = Some cur →
           hs' !! i
           = Some (OpeningHoursSpec.slot i
                     (take n (OpeningHoursSpec.leading blocks)) cur)).
Proof.
  assert (Hnil : ∀ (n : nat) (blocks : list (option Submatch))
                   (hs : list string),
            length hs = 7 → scan n blocks hs = Ok hs →
            take n (OpeningHoursSpec.leading blocks) = [] →
            (Exists (λ m, OpeningHoursSpec.end_day m
                          < OpeningHoursSpec.start_day m)
               (take n (OpeningHoursSpec.leading blocks)) →
             scan n blocks hs = Panic "dayEnd < dayStart")
            ∧ (Forall (λ m, OpeningHoursSpec.start_day m
                            ≤ OpeningHoursSpec.end_day m)
                 (take n (OpeningHoursSpec.leading blocks)) →
               ∃ hs', scan n blocks hs = Ok hs'
                 ∧ length hs' = 7
                 ∧ ∀ i cur, hs !! i = Some cur →
                     hs' !! i
                     = Some (OpeningHoursSpec.slot i
                               (take n (OpeningHoursSpec.leading blocks))
                               cur))).
  { intros k blocks hs Hlen Hscan ->. split.
    - intros H. by apply Exists_nil in H.
    - intros _. by exists hs. }
  induction n as [|n IH]; intros blocks hs Hlen; [by apply Hnil|].
  destruct blocks as [|[m|] blocks]; [by apply Hnil| |by apply Hnil].
  cbn [OpeningHoursSpec.leading take scan].
  destruct (expand_slots m hs Hlen) as [Hpanic Hok].
  destruct (decide (OpeningHoursSpec.end_day m
                    < OpeningHoursSpec.start_day m)) as [Hrev|Hfwd].
  - rewrite (Hpanic Hrev). split; [done|].
    intros [Hm _]%Forall_cons. lia.
  - destruct Hok as (hs1 & -> & Hlen1 & Hslots); [lia|]. rewrite bind_Ok.
    destruct (IH blocks hs1 Hlen1) as [IHpanic IHok]. split.
    + intros [Hm|Htl]%Exists_cons; [lia|by apply IHpanic].
    + intros [_ Htl]%Forall_cons.
      destruct (IHok Htl) as (hs' & -> & Hlen' & Hs').
      exists hs'. split; [done|]. split; [done|].
      intros i cur Hcur. rewrite slot_cons. apply Hs'.
      rewrite Hslots, Hcur. by destruct (decide _).
Qed.

Lemma slot_none (i : nat) (ms : list Submatch) : ∀ cur : string,
  Forall (λ m, ¬ OpeningHoursSpec.covers m i) ms →
  OpeningHoursSpec.slot i ms cur = cur.
Proof.
  induction ms as [|m ms IH]; intros cur Hno; [done|].
  apply Forall_cons in Hno as [Hm Hno].
  rewrite slot_cons, decide_False by done. by apply IH.
Qed.

(** The last block that covers a slot decides. *)
Lemma slot_last (i : nat) (pre : list Submatch) (m : Submatch)
    (post : list Submatch) (cur : string) :
  OpeningHoursSpec.covers m i →
  Forall (λ m, ¬ OpeningHoursSpec.covers m i) post →
  OpeningHoursSpec.slot i (pre ++ m :: post) cur = OpeningHoursSpec.hours m.
Proof.
  intros Hm Hpost. unfold OpeningHoursSpec.slot.
  rewrite foldl_app. cbn [foldl]. rewrite decide_True by done.
  by apply slot_none.
Qed.

Lemma slot_cases (i : nat) (ms : list Submatch) :
  Forall (λ m, ¬ OpeningHoursSpec.covers m i) ms
  ∨ ∃ pre m post,
      ms = pre ++ m :: post ∧ OpeningHoursSpec.covers m i
      ∧ Forall (λ m, ¬ OpeningHoursSpec.covers m i) post.
Proof.
  induction ms as [|m ms IH]; [by left|].
  destruct IH as [Hno|(pre & m' & post & -> & Hm' & Hpost)].
  - destruct (decide (OpeningHoursSpec.covers m i)) as [Hm|Hm].
    + right. by exists [], m, ms.
    + left. by constructor.
  - right. by exists (m :: pre), m', post.
Qed.

(** The seven slots after the scan. *)
Lemma openingHours_slots (blocks : list (option Submatch)) :
  (Exists (λ m, OpeningHoursSpec.end_day m < OpeningHoursSpec.start_day m)
     (take 7 (OpeningHoursSpec.leading blocks)) →
   openingHours blocks = Panic "dayEnd < dayStart")
  ∧ (Forall (λ m, OpeningHoursSpec.start_day m ≤ OpeningHoursSpec.end_day m)
       (take 7 (OpeningHoursSpec.leading blocks)) →
     ∃ hs, openingHours blocks = Ok hs
       ∧ length hs = 7
       ∧ ∀ i v,
           hs !! i = Some v
           ↔ i < 7
             ∧ ((v = EmptyString
                 ∧ Forall (λ m, ¬ OpeningHoursSpec.covers m i)
                     (take 7 (OpeningHoursSpec.leading blocks)))
                ∨ ∃ pre m post,
                    take 7 (OpeningHoursSpec.leading blocks)
                    = pre ++ m :: post
                    ∧ OpeningHoursSpec.covers m i
                    ∧ v = OpeningHoursSpec.hours m
                    ∧ Forall (λ m, ¬ OpeningHoursSpec.covers m i) post)).
Proof.
  destruct (scan_slots 7 blocks (replicate 7 EmptyString) eq_refl)
    as [Hpanic Hok].
  split; [exact Hpanic|]. intros Hfwd.
  destruct (Hok Hfwd) as (hs & Hscan & Hlen & Hslots).
  exists hs. split; [exact Hscan|]. split; [done|].
  set (ms := take 7 (OpeningHoursSpec.leading blocks)) in *.
  assert (Hi : ∀ i, i < 7 →
            hs !! i = Some (OpeningHoursSpec.slot i ms EmptyString)).
  { intros i Hlt. apply Hslots. by apply lookup_replicate_2. }
  intros i v. split.
  - intros Hv. assert (i < 7) as Hlt.
    { apply lookup_lt_Some in Hv. lia. }
    split; [done|]. rewrite (Hi i Hlt) in Hv. injection Hv as <-.
    destruct (slot_cases i ms) as [Hno|(pre & m & post & Hms & Hm & Hpost)].
    + left. split; [by apply slot_none|done].
    + right. exists pre, m, post. rewrite Hms.
      split; [done|]. split; [done|]. split; [|done].
      by apply slot_last.
  - intros [Hlt [[-> Hno]|(pre & m & post & Hms & Hm & -> & Hpost)]];
      rewrite (Hi i Hlt); f_equal.
    + by apply slot_none.
    + rewrite Hms. by apply slot_last.
Qed.

End openingHours_facts.

(** C6: for a block whose match resolves to the start day [d1] and the end
    day [d2] ([d1] itself when the end group is empty), the slots [d1 .. d2]
    of the seven all receive "start-end" and the other slots are left as
    they were; an end day before the start day is a panic; the scan stops at
    the first block without match and takes at most 7 blocks; the result
    has 7 slots.  Every matching block before the first block without
    match, up to seven of them, is expanded: a slot ends with the string of
    the last of these blocks that covers it, and empty when none does; one
    of these blocks with its end day before its start day makes the whole
    scan panic.  "Mo" to "Fr" with 08:00 and 16:00 fills the slots 0 to 4
    with "08:00-16:00" and leaves 5 and 6 empty.  (A day group that is none
    of the seven abbreviations resolves to index 0.) *)
Theorem openingHours_spec :
  (∀ (m : OpeningHours.Submatch) (hours : list string),
     let d1 := OpeningHours.day_index (OpeningHours.dayStart m) in
     let d2 := if decide (OpeningHours.dayEnd m = EmptyString) then d1
               else OpeningHours.day_index (OpeningHours.dayEnd m) in
     length hours = 7 →
     (d2 < d1 → OpeningHours.expand m hours = Panic "dayEnd < dayStart")
     ∧ (d1 ≤ d2 →
        ∃ hours', OpeningHours.expand m hours = Ok hours'
          ∧ length hours' = 7
          ∧ ∀ i, hours' !! i
                 = if decide (d1 ≤ i ≤ d2)
                   then Some (OpeningHours.hoursStart m +:+ "-"
                              +:+ OpeningHours.hoursEnd m)
                   else hours !! i))
  ∧ (OpeningHours.day_index <$> OpeningHours.days = [0; 1; 2; 3; 4; 5; 6])
  ∧ (∀ (m : OpeningHours.Submatch) (rest : list (option OpeningHours.Submatch)),
       OpeningHours.openingHours (Some m :: rest)
       = OpeningHours.expand m (replicate 7 EmptyString)
           ≫= OpeningHours.scan 6 rest)
  ∧ (∀ (ms : list OpeningHours.Submatch)
       (post : list (option OpeningHours.Submatch)),
       OpeningHours.openingHours ((Some <$> ms) ++ None :: post)
       = OpeningHours.openingHours (Some <$> ms))
  ∧ (∀ blocks : list (option OpeningHours.Submatch),
       OpeningHours.openingHours blocks
       = OpeningHours.openingHours (take 7 blocks))
  ∧ (∀ (blocks : list (option OpeningHours.Submatch)) (hours : list string),
       OpeningHours.openingHours blocks = Ok hours → length hours = 7)
  ∧ OpeningHours.openingHours
      [Some {| OpeningHours.whole := "Mo. – Fr.";
               OpeningHours.dayStart := "Mo"; OpeningHours.dayEnd := "Fr";
               OpeningHours.hoursStart := "08:00";
               OpeningHours.hoursEnd := "16:00" |}]
    = Ok ["08:00-16:00"; "08:00-16:00"; "08:00-16:00"; "08:00-16:00";
          "08:00-16:00"; ""; ""]
  ∧ (∀ blocks : list (option OpeningHours.Submatch),
       let ms := take 7 (OpeningHoursSpec.leading blocks) in
       (Exists (λ m, OpeningHoursSpec.end_day m < OpeningHoursSpec.start_day m)
          ms →
        OpeningHours.openingHours blocks = Panic "dayEnd < dayStart")
       ∧ (Forall (λ m, OpeningHoursSpec.start_day m
                       ≤ OpeningHoursSpec.end_day m) ms →
          ∃ hs, OpeningHours.openingHours blocks = Ok hs
            ∧ length hs = 7
            ∧ ∀ i v,
                hs !! i = Some v
                ↔ i < 7
                  ∧ ((v = EmptyString
                      ∧ Forall (λ m, ¬ OpeningHoursSpec.covers m i) ms)
                     ∨ ∃ pre m post,
                         ms = pre ++ m :: post
                         ∧ OpeningHoursSpec.covers m i
                         ∧ v = OpeningHoursSpec.hours m
                         ∧ Forall (λ m, ¬ OpeningHoursSpec.covers m i)
                             post)))
  ∧ OpeningHours.openingHours
      [Some (block "Mo" "Fr" "08:00" "16:00");
       Some (block "Sa" "" "10:00" "14:00");
       None;
       Some (block "So" "" "09:00" "12:00")]
    = Ok ["08:00-16:00"; "08:00-16:00"; "08:00-16:00"; "08:00-16:00";
          "08:00-16:00"; "10:00-14:00"; ""]
  ∧ OpeningHours.openingHours
      [Some (block "Mo" "" "01:00" "11:00");
       Some (block "Di" "" "02:00" "12:00");
       Some (block "Mi" "" "03:00" "13:00");
       Some (block "Do" "" "04:00" "14:00");
       Some (block "Fr" "" "05:00" "15:00");
       Some (block "Sa" "" "06:00" "16:00");
       Some (block "So" "" "07:00" "17:00");
       Some (block "Mo" "So" "20:00" "22:00")]
    = Ok ["01:00-11:00"; "02:00-12:00"; "03:00-13:00"; "04:00-14:00";
          "05:00-15:00"; "06:00-16:00"; "07:00-17:00"]
  ∧ OpeningHours.openingHours
      [Some (block "Mo" "Fr" "08:00" "16:00");
       Some (block "Mi" "" "09:00" "12:00");
       Some (block "Sa" "So" "10:00" "14:00")]
    = Ok ["08:00-16:00"; "08:00-16:00"; "09:00-12:00"; "08:00-16:00";
          "08:00-16:00"; "10:00-14:00"; "10:00-14:00"]
  ∧ OpeningHours.openingHours
      [Some (block "Mo" "Fr" "08:00" "16:00");
       Some (block "Sa" "" "10:00" "14:00");
       Some (block "So" "Sa" "09:00" "12:00")]
    = Panic "dayEnd < dayStart".
Proof.
  split; [|split; [done|split; [done|split; [|split; [|split;
    [|split; [done|split; [|done]]]]]]]].
  - intros m hours d1 d2 Hlen.
    assert (d2 < 7).
    { subst d2 d1. destruct (decide _); apply day_index_lt. }
    unfold OpeningHours.expand. fold d1. fold d2. split.
    + intros Hlt. by rewrite decide_True.
    + intros Hle. rewrite decide_False by lia.
      destruct (fill_spec (S d2 - d1) hours d1
                  (GoString.join [OpeningHours.hoursStart m;
                                  OpeningHours.hoursEnd m] "-"))
        as (h' & -> & Hl & Hi); [lia|].
      exists h'. split; [done|]. split; [lia|].
      intros i. rewrite Hi.
      destruct (decide (d1 ≤ i ≤ d2)).
      * by rewrite decide_True by lia.
      * by rewrite decide_False by lia.
  - intros ms post. apply scan_stop.
  - intros blocks. apply scan_take.
  - intros blocks hours. apply scan_length. done.
  - intros blocks. apply openingHours_slots.
Qed.

Lemma openingHours_spec_witness :
  OpeningHours.expand
    {| OpeningHours.whole := "Sa."; OpeningHours.dayStart := "Sa";
       OpeningHours.dayEnd := ""; OpeningHours.hoursStart := "10:00";
       OpeningHours.hoursEnd := "14:00" |}
    ["08:00-16:00"; "08:00-16:00"; "08:00-16:00"; "08:00-16:00";
     "08:00-16:00"; ""; ""]
  = Ok ["08:00-16:00"; "08:00-16:00"; "08:00-16:00"; "08:00-16:00";
        "08:00-16:00"; "10:00-14:00"; ""]
  ∧ OpeningHours.expand
      {| OpeningHours.whole := "Fr. – Mo."; OpeningHours.dayStart := "Fr";
         OpeningHours.dayEnd := "Mo"; OpeningHours.hoursStart := "10:00";
         OpeningHours.hoursEnd := "14:00" |}
      (replicate 7 EmptyString)
    = Panic "dayEnd < dayStart"
  ∧ ∃ hs,
      OpeningHours.openingHours
        [Some (block "Mo" "Fr" "08:00" "16:00");
         Some (block "Di" "" "09:00" "12:00");
         Some (block "Sa" "" "10:00" "14:00");
         None;
         Some (block "So" "" "11:00" "15:00")]
      = Ok hs
      ∧ hs !! 1 = Some "09:00-12:00"
      ∧ hs !! 5 = Some "10:00-14:00"
      ∧ hs !! 6 = Some "".
Proof.
  split; [|split].
  - destruct (proj2 (proj1 openingHours_spec
        {| OpeningHours.whole := "Sa."; OpeningHours.dayStart := "Sa";
           OpeningHours.dayEnd := ""; OpeningHours.hoursStart := "10:00";
           OpeningHours.hoursEnd := "14:00" |}
        ["08:00-16:00"; "08:00-16:00"; "08:00-16:00"; "08:00-16:00";
         "08:00-16:00"; ""; ""] eq_refl))
      as (h & He & _ & _).
    + vm_compute. lia.
    + rewrite He. vm_compute in He. symmetry. exact He.
  - apply (proj1 openingHours_spec
        {| OpeningHours.whole := "Fr. – Mo."; OpeningHours.dayStart := "Fr";
           OpeningHours.dayEnd := "Mo"; OpeningHours.hoursStart := "10:00";
           OpeningHours.hoursEnd := "14:00" |}
        (replicate 7 EmptyString) eq_refl).
    vm_compute. lia.
  - destruct openingHours_spec as (_ & _ & _ & _ & _ & _ & _ & Hall & _).
    destruct (Hall [Some (block "Mo" "Fr" "08:00" "16:00");
                    Some (block "Di" "" "09:00" "12:00");
                    Some (block "Sa" "" "10:00" "14:00");
                    None;
                    Some (block "So" "" "11:00" "15:00")]) as [_ Hok].
    destruct Hok as (hs & Hrun & _ & Hslot).
    { cbn [OpeningHoursSpec.leading take].
      rewrite !Forall_cons, Forall_nil. vm_compute. lia. }
    exists hs. split; [exact Hrun|].
    cbn [OpeningHoursSpec.leading take] in Hslot.
    split; [|split]; apply Hslot; (split; [lia|]).
    + right. exists [block "Mo" "Fr" "08:00" "16:00"],
        (block "Di" "" "09:00" "12:00"), [block "Sa" "" "10:00" "14:00"].
      split; [done|]. split; [vm_compute; lia|]. split; [done|].
      rewrite !Forall_cons, Forall_nil. vm_compute. lia.
    + right. exists [block "Mo" "Fr" "08:00" "16:00";
                     block "Di" "" "09:00" "12:00"],
        (block "Sa" "" "10:00" "14:00"), [].
      split; [done|]. split; [vm_compute; lia|]. split; [done|].
      by apply Forall_nil.
    + left. split; [done|].
      rewrite !Forall_cons, Forall_nil. vm_compute. lia.
Defined.

(** ** The fetcher *)

Section fetcher_facts.

Import Fetcher.
Context {Document : Type}.
Implicit Types (server : nat → @Response Document).

Lemma posts_app (tr1 tr2 : list Event) :
  posts (tr1 ++ tr2) = posts tr1 + posts tr2.
Proof. unfold posts. by rewrite filter_app, length_app. Qed.

Lemma posts_retry_events (i : nat) (r : @Response Document) :
  posts (retry_events i r) = 1.
Proof. by destruct r. Qed.

Lemma attempts_retry server (n i : nat) :
  retryable (server i) = true →
  attempts server (S n) i
  = (retry_events i (server i) ++ (attempts server n (S i)).1,
     (attempts server n (S i)).2).
Proof.
  cbn [attempts]. destruct (server i) as [err|status parsed]; cbn [retryable].
  - intros _. by destruct (attempts server n (S i)).
  - destruct (status =? 200)%Z; [done|].
    destruct (status =? 509)%Z; [|done].
    intros _. by destruct (attempts server n (S i)).
Qed.

(** The last attempt: its outcome is not retryable. *)
Lemma attempts_final server (n i : nat) :
  retryable (server i) = false →
  attempts server (S n) i
  = match server i with
    | Reply status parsed =>
        if (status =? 200)%Z then
          match parsed with
          | Some doc => ([Post i], Ok (Some doc))
          | None => ([Post i], Panic "NewDocumentFromResponse")
          end
        else ([Post i; LogStatus status], Ok None)
    | ConnError _ => ([LogAbort], Ok None)
    end.
Proof.
  cbn [attempts]. destruct (server i) as [err|status parsed]; cbn [retryable];
    [done|].
  destruct (status =? 200)%Z; [done|].
  by destruct (status =? 509)%Z.
Qed.

Lemma attempts_posts server (n : nat) : ∀ i : nat,
  posts (attempts server n i).1 ≤ n.
Proof.
  induction n as [|n IH]; intros i; [done|].
  destruct (retryable (server i)) eqn:Hr.
  - rewrite attempts_retry by done. cbn [fst].
    rewrite posts_app, posts_retry_events. specialize (IH (S i)). lia.
  - rewrite attempts_final by done.
    assert (H1 : ∀ tr : list Event, posts tr ≤ 1 → posts tr ≤ S n)
      by (intros; lia).
    destruct (server i) as [err|status parsed]; [by apply H1|].
    destruct (status =? 200)%Z; [destruct parsed|]; by apply H1.
Qed.

Lemma retries_S server (i k : nat) :
  retries server i (S k)
  = retry_events i (server i) ++ retries server (S i) k.
Proof. done. Qed.

Lemma attempts_all_retry server (n : nat) : ∀ i : nat,
  (∀ j, i ≤ j < i + n → retryable (server j) = true) →
  attempts server n i = (retries server i n ++ [LogAbort], Ok None).
Proof.
  induction n as [|n IH]; intros i Hall; [done|].
  rewrite attempts_retry by (apply Hall; lia).
  rewrite IH by (intros j Hj; apply Hall; lia).
  by rewrite retries_S, <- app_assoc.
Qed.

Lemma attempts_until server (k : nat) : ∀ n i : nat,
  k < n →
  (∀ j, i ≤ j < i + k → retryable (server j) = true) →
  retryable (server (i + k)) = false →
  attempts server n i
  = (retries server i k ++ (attempts server 1 (i + k)).1,
     (attempts server 1 (i + k)).2).
Proof.
  induction k as [|k IH]; intros n i Hn Hall Hk.
  - rewrite Nat.add_0_r in *. destruct n as [|n]; [lia|].
    rewrite !attempts_final by done.
    destruct (server i) as [err|status parsed]; [done|].
    destruct (status =? 200)%Z; [destruct parsed|]; done.
  - destruct n as [|n]; [lia|].
    rewrite attempts_retry by (apply Hall; lia).
    rewrite (IH n (S i)); [|lia|intros j Hj; apply Hall; lia|].
    + rewrite retries_S, <- app_assoc.
      by replace (S i + k) with (i + S k) by lia.
    + by replace (S i + k) with (i + S k) by lia.
Qed.

End fetcher_facts.

(** C4: the fetcher makes at most 10 requests.  While the outcome of
    attempt [i] is a network-level error or the status 509, the attempt is
    followed by a sleep of [i] seconds and the next attempt; after ten such
    attempts it returns the nil document.  The first attempt with another
    outcome is the last: a status other than 200 (and 509) returns the nil
    document at once, a status 200 returns the parsed document, and a status
    200 whose body does not parse is a panic. *)
Theorem getHttpDoc_spec {Document : Type}
    (server : nat → @Fetcher.Response Document) :
  Fetcher.posts (Fetcher.getHttpDoc server).1 ≤ 10
  ∧ ((∀ i, 1 ≤ i ≤ 10 → Fetcher.retryable (server i) = true) →
     Fetcher.getHttpDoc server
     = (Fetcher.retries server 1 10 ++ [Fetcher.LogAbort], Ok None))
  ∧ (∀ k, 1 ≤ k ≤ 10 →
       (∀ i, 1 ≤ i < k → Fetcher.retryable (server i) = true) →
       (∀ doc, server k = Fetcher.Reply 200 (Some doc) →
          Fetcher.getHttpDoc server
          = (Fetcher.retries server 1 (k - 1) ++ [Fetcher.Post k],
             Ok (Some doc)))
       ∧ (server k = Fetcher.Reply 200 None →
          Fetcher.getHttpDoc server
          = (Fetcher.retries server 1 (k - 1) ++ [Fetcher.Post k],
             Panic "NewDocumentFromResponse"))
       ∧ (∀ status parsed, server k = Fetcher.Reply status parsed →
          status ≠ 200%Z → status ≠ 509%Z →
          Fetcher.getHttpDoc server
          = (Fetcher.retries server 1 (k - 1)
               ++ [Fetcher.Post k; Fetcher.LogStatus status],
             Ok None)))
  ∧ (∀ (i : nat) (r : @Fetcher.Response Document),
       Fetcher.retryable r = true →
       (∃ err, r = Fetcher.ConnError err
               ∧ Fetcher.retry_events i r
                 = [Fetcher.Post i; Fetcher.LogResponse; Fetcher.LogError err;
                    Fetcher.Sleep (Z.of_nat i * 1000000000)])
       ∨ (∃ parsed, r = Fetcher.Reply 509 parsed
                    ∧ Fetcher.retry_events i r
                      = [Fetcher.Post i;
                         Fetcher.Sleep (Z.of_nat i * 1000000000)])).
Proof.
  split; [apply attempts_posts|].
  split; [intros Hall; apply attempts_all_retry; intros j Hj; apply Hall;
          unfold Fetcher.httpMaxRetries in Hj; lia|].
  split.
  - intros k Hk Hall.
    assert (Hu : Fetcher.retryable (server k) = false →
                 Fetcher.getHttpDoc server
                 = (Fetcher.retries server 1 (k - 1)
                      ++ (Fetcher.attempts server 1 k).1,
                    (Fetcher.attempts server 1 k).2)).
    { intros Hr. unfold Fetcher.getHttpDoc.
      rewrite (attempts_until server (k - 1) Fetcher.httpMaxRetries 1).
      - by replace (1 + (k - 1)) with k by lia.
      - unfold Fetcher.httpMaxRetries. lia.
      - intros j Hj. apply Hall. lia.
      - by replace (1 + (k - 1)) with k by lia. }
    split; [|split].
    + intros doc Hs. rewrite Hu by by rewrite Hs.
      by rewrite attempts_final, Hs by by rewrite Hs.
    + intros Hs. rewrite Hu by by rewrite Hs.
      by rewrite attempts_final, Hs by by rewrite Hs.
    + intros status parsed Hs H200 H509.
      assert (Hr : Fetcher.retryable (server k) = false).
      { rewrite Hs. cbn. destruct (Z.eqb_spec status 509); [done|].
        apply andb_false_r. }
      rewrite Hu by done. rewrite attempts_final, Hs by done.
      by destruct (Z.eqb_spec status 200).
  - intros i [err|status parsed]; cbn [Fetcher.retryable].
    + intros _. left. by exists err.
    + destruct (Z.eqb_spec status 509) as [->|]; [|by rewrite andb_false_r].
      intros _. right. by exists parsed.
Qed.

Lemma getHttpDoc_spec_witness :
  Fetcher.getHttpDoc
    (λ i, if decide (i < 3) then Fetcher.Reply 509 None
          else Fetcher.Reply 404 (Some "not found"))
  = ([Fetcher.Post 1; Fetcher.Sleep 1000000000;
      Fetcher.Post 2; Fetcher.Sleep 2000000000;
      Fetcher.Post 3; Fetcher.LogStatus 404], Ok None).
Proof.
  refine (proj2 (proj2 (proj1 (proj2 (proj2
    (getHttpDoc_spec
       (λ i, if decide (i < 3) then Fetcher.Reply 509 None
             else Fetcher.Reply 404 (Some "not found")))))
    3 _ _)) 404%Z (Some "not found") eq_refl _ _).
  - lia.
  - intros i Hi. by rewrite decide_True by lia.
  - lia.
  - lia.
Defined.

(** * Further properties of the code *)

(** ** [diff] and the reconciliation *)

Section catalog_more.

Lemma diff_list_sublist (a : list string) : ∀ b : list string,
  diff_list a b `sublist_of` b.
Proof.
  induction a as [|x a IHa]; [done|].
  induction b as [|y b IHb]; [done|].
  change (diff_list (x :: a) (y :: b))
    with (if GoString.lt x y then diff_list a (y :: b)
          else if GoString.lt y x then y :: diff_list (x :: a) b
               else diff_list a b).
  destruct (GoString.lt x y); [apply IHa|].
  destruct (GoString.lt y x).
  - by apply sublist_skip.
  - apply sublist_cons. apply IHa.
Qed.

Lemma strictly_sorted_sublist (l1 l2 : list string) :
  l1 `sublist_of` l2 → strictly_sorted l2 → strictly_sorted l1.
Proof.
  unfold strictly_sorted. induction 1 as [|x l1 l2 Hs IH|x l1 l2 Hs IH].
  - done.
  - intros [Hall H2]%StronglySorted_cons. apply StronglySorted_cons.
    split; [|by apply IH].
    rewrite Forall_forall in *. intros y Hy. apply Hall.
    by eapply sublist_subseteq.
  - intros [_ H2]%StronglySorted_cons. by apply IH.
Qed.

(** Two strictly sorted lists with the same members are the same list. *)
Lemma strictly_sorted_ext (l1 l2 : list string) :
  strictly_sorted l1 → strictly_sorted l2 →
  (∀ x, x ∈ l1 ↔ x ∈ l2) → l1 = l2.
Proof.
  intros H1 H2 Hm.
  apply (StronglySorted_unique_strong (λ a b, GoString.lt a b = true));
    [|done|done|].
  - intros x y _ _ Hxy Hyx. by rewrite (lt_asym _ _ Hxy) in Hyx.
  - apply NoDup_Permutation; [by apply strictly_sorted_NoDup..|done].
Qed.

Lemma filter_none {A} (P : A → Prop) `{∀ x, Decision (P x)} (l : list A) :
  (∀ x, x ∈ l → ¬ P x) → filter P l = [].
Proof.
  induction l as [|x l IH]; intros Hl; [done|].
  rewrite filter_cons_False by (apply Hl; left).
  apply IH. intros y Hy. apply Hl. by right.
Qed.

Lemma Sort_fixed (l : list string) : strictly_sorted l → unique.Sort l = l.
Proof.
  intros Hl. apply strictly_sorted_ext; [apply Sort_strictly_sorted|done|].
  intros x. apply Sort_elem_of.
Qed.

End catalog_more.

(** X1: for any two lists, sorted or not, [diff(a, b)] returns (no index
    leaves its buffer) and the result is a subsequence of [b]: elements of
    [b], in the order of [b], none twice over. *)
Theorem diff_total (a b : list string) :
  ∃ l : list string,
    Catalog.diff a b = Ok l ∧ l `sublist_of` b ∧ length l ≤ length b.
Proof.
  exists (diff_list a b). split; [apply diff_eq_diff_list|].
  split; [apply diff_list_sublist|]. apply sublist_length, diff_list_sublist.
Qed.

(** X2: on strictly sorted lists [diff(a, b)] is the set difference b \ a,
    again strictly sorted; in particular [diff(a, a)] is empty and
    [diff(nil, b)] is [b]. *)
Theorem diff_sorted (a b : list string) :
  strictly_sorted a → strictly_sorted b →
  (∃ l : list string,
     Catalog.diff a b = Ok l
     ∧ strictly_sorted l
     ∧ ∀ x, x ∈ l ↔ x ∈ b ∧ x ∉ a)
  ∧ Catalog.diff a a = Ok []
  ∧ Catalog.diff [] b = Ok b.
Proof.
  intros Ha Hb. split; [|split].
  - exists (diff_list a b). split; [apply diff_eq_diff_list|]. split.
    + eapply strictly_sorted_sublist; [apply diff_list_sublist|done].
    + intros x. rewrite diff_list_filter, list_elem_of_filter by done. tauto.
  - rewrite diff_eq_diff_list, diff_list_filter by done. f_equal.
    apply filter_none. intros y Hy Hn. by apply Hn.
  - by rewrite diff_eq_diff_list.
Qed.

Lemma diff_sorted_witness :
  Catalog.diff ["101"; "103"] ["101"; "102"; "103"; "104"]
  = Ok ["102"; "104"].
Proof.
  destruct (diff_sorted ["101"; "103"] ["101"; "102"; "103"; "104"])
    as [(l & Hd & _) _].
  - repeat constructor.
  - repeat constructor.
  - rewrite Hd. vm_compute in Hd. symmetry. exact Hd.
Defined.

(** X3: the three lists that [main] persists split the history: every
    identifier of the union is either current or archived, never both; the
    union keeps every identifier it was loaded with and every fetched one;
    and the sizes add up. *)
Theorem reconcile_partition (fetched loaded : list string) :
  ∃ ids : Catalog.Ids,
    Catalog.reconcile fetched loaded = Ok ids
    ∧ (∀ x, x ∈ Catalog.idsAll ids
            ↔ x ∈ Catalog.idsCur ids ∨ x ∈ Catalog.idsArchive ids)
    ∧ (∀ x, x ∈ Catalog.idsCur ids → x ∉ Catalog.idsArchive ids)
    ∧ (∀ x, x ∈ loaded → x ∈ Catalog.idsAll ids)
    ∧ (∀ x, x ∈ fetched → x ∈ Catalog.idsAll ids)
    ∧ length (Catalog.idsAll ids)
      = length (Catalog.idsCur ids) + length (Catalog.idsArchive ids).
Proof.
  destruct (reconcile_facts fetched loaded)
    as (ids & Hr & Hsc & Hc & Hsa & Ha & _ & _ & Hf & Har).
  exists ids. split; [done|].
  assert (Hsplit : ∀ x, x ∈ Catalog.idsAll ids
            ↔ x ∈ Catalog.idsCur ids ∨ x ∈ Catalog.idsArchive ids).
  { intros x. rewrite Ha, Hc, Har.
    destruct (decide (x ∈ fetched)); tauto. }
  assert (Hdisj : ∀ x, x ∈ Catalog.idsCur ids → x ∉ Catalog.idsArchive ids).
  { intros x Hx. rewrite Har. apply Hc in Hx. tauto. }
  split; [done|]. split; [done|].
  split; [intros x Hx; apply Ha; by left|].
  split; [intros x Hx; apply Ha; by right|].
  rewrite <- length_app. apply Permutation_length.
  apply NoDup_Permutation.
  - by apply strictly_sorted_NoDup.
  - apply NoDup_app. split; [by apply strictly_sorted_NoDup|].
    split; [done|]. rewrite Hf. apply NoDup_filter.
    by apply strictly_sorted_NoDup.
  - intros x. rewrite elem_of_app. apply Hsplit.
Qed.

(** X4: a run that starts from the union it wrote and fetches the same
    identifiers again reproduces the same three lists. *)
Theorem reconcile_fixpoint (fetched loaded : list string) (ids : Catalog.Ids) :
  Catalog.reconcile fetched loaded = Ok ids →
  Catalog.reconcile fetched (Catalog.idsAll ids) = Ok ids.
Proof.
  intros Hr.
  destruct (reconcile_facts fetched loaded)
    as (ids' & Hr' & Hsc & Hc & Hsa & Ha & Hd & _).
  rewrite Hr in Hr'. injection Hr' as <-.
  assert (Hcur : Catalog.idsCur ids = unique.Sort fetched).
  { unfold Catalog.reconcile in Hr.
    rewrite diff_eq_diff_list, bind_Ok in Hr. by injection Hr as <-. }
  unfold Catalog.reconcile. rewrite <- Hcur.
  assert (Hall : unique.Sort (Catalog.idsAll ids ++ Catalog.idsCur ids)
                 = Catalog.idsAll ids).
  { apply strictly_sorted_ext; [apply Sort_strictly_sorted|done|].
    intros x. rewrite Sort_elem_of, elem_of_app, Ha, Hc. tauto. }
  rewrite Hall, Hd, bind_Ok. by destruct ids.
Qed.

Lemma reconcile_fixpoint_witness :
  Catalog.reconcile ["102"; "103"] ["101"; "102"; "103"]
  = Ok {| Catalog.idsCur := ["102"; "103"];
          Catalog.idsArchive := ["101"];
          Catalog.idsAll := ["101"; "102"; "103"] |}.
Proof.
  apply (reconcile_fixpoint ["102"; "103"] ["101"; "102"]
           {| Catalog.idsCur := ["102"; "103"];
              Catalog.idsArchive := ["101"];
              Catalog.idsAll := ["101"; "102"; "103"] |}).
  reflexivity.
Defined.

(** ** The fetchers: time slept and results *)

Section fetcher_more.

Import Fetcher.
Context {Document : Type}.
Implicit Types (server : nat → @Response Document).

Local Open Scope Z_scope.

Lemma slept_app (tr1 tr2 : list Event) :
  slept (tr1 ++ tr2) = slept tr1 + slept tr2.
Proof.
  induction tr1 as [|e tr1 IH]; [done|].
  destruct e; cbn [app slept]; lia.
Qed.

Lemma slept_retry_events (i : nat) (r : @Response Document) :
  slept (retry_events i r) = sleepTime i.
Proof. destruct r; cbn [retry_events slept]; lia. Qed.

Lemma slept_retries server (k : nat) : ∀ i : nat,
  2 * slept (retries server i k)
  = Z.of_nat k * (2 * Z.of_nat i + Z.of_nat k - 1) * httpSleepStep.
Proof.
  induction k as [|k IH]; intros i; [done|].
  rewrite retries_S, slept_app, slept_retry_events.
  specialize (IH (S i)). unfold sleepTime. lia.
Qed.

Lemma slept_final server (n i : nat) :
  retryable (server i) = false → slept (attempts server (S n) i).1 = 0.
Proof.
  intros Hr. rewrite attempts_final by done.
  destruct (server i) as [err|status parsed]; [done|].
  destruct (status =? 200); [destruct parsed|]; done.
Qed.

(** Either all of the [n] attempts from [i] on are retryable, or there is a
    first one that is not. *)
Lemma first_final server (n : nat) : ∀ i : nat,
  (∀ j, (i ≤ j < i + n)%nat → retryable (server j) = true)
  ∨ ∃ k, (k < n)%nat
         ∧ (∀ j, (i ≤ j < i + k)%nat → retryable (server j) = true)
         ∧ retryable (server (i + k)%nat) = false.
Proof.
  induction n as [|n IH]; intros i; [left; intros; lia|].
  destruct (retryable (server i)) eqn:Hi.
  - destruct (IH (S i)) as [Hall|(k & Hk & Hall & Hf)].
    + left. intros j Hj. destruct (decide (j = i)) as [->|]; [done|].
      apply Hall. lia.
    + right. exists (S k). split; [lia|]. split.
      * intros j Hj. destruct (decide (j = i)) as [->|]; [done|].
        apply Hall. lia.
      * by replace (i + S k)%nat with (S i + k)%nat by lia.
  - right. exists 0%nat. split; [lia|]. split; [intros; lia|].
    by rewrite Nat.add_0_r.
Qed.

End fetcher_more.

(** X5: whatever the server does, the fetcher sleeps at most 55 seconds in
    all; it sleeps exactly 55 seconds when all ten attempts are retryable,
    and k(k-1)/2 seconds when attempt k is the first that is not. *)
Theorem getHttpDoc_sleep_bound {Document : Type}
    (server : nat → @Fetcher.Response Document) :
  (0 ≤ slept (Fetcher.getHttpDoc server).1 ≤ 55 * 1000000000)%Z
  ∧ ((∀ i, 1 ≤ i ≤ 10 → Fetcher.retryable (server i) = true) →
     slept (Fetcher.getHttpDoc server).1 = (55 * 1000000000)%Z)
  ∧ (∀ k, 1 ≤ k ≤ 10 →
       (∀ i, 1 ≤ i < k → Fetcher.retryable (server i) = true) →
       Fetcher.retryable (server k) = false →
       (2 * slept (Fetcher.getHttpDoc server).1
        = Z.of_nat k * (Z.of_nat k - 1) * 1000000000)%Z).
Proof.
  assert (Hall : (∀ i, 1 ≤ i ≤ 10 → Fetcher.retryable (server i) = true) →
                 slept (Fetcher.getHttpDoc server).1 = (55 * 1000000000)%Z).
  { intros Hall. unfold Fetcher.getHttpDoc.
    rewrite attempts_all_retry
      by (intros j Hj; apply Hall; unfold Fetcher.httpMaxRetries in Hj; lia).
    cbn [fst]. rewrite slept_app.
    pose proof (slept_retries server Fetcher.httpMaxRetries 1) as Hs.
    unfold Fetcher.httpMaxRetries, Fetcher.httpSleepStep in *.
    cbn [slept]. lia. }
  assert (Hk : ∀ k, 1 ≤ k ≤ 10 →
       (∀ i, 1 ≤ i < k → Fetcher.retryable (server i) = true) →
       Fetcher.retryable (server k) = false →
       (2 * slept (Fetcher.getHttpDoc server).1
        = Z.of_nat k * (Z.of_nat k - 1) * 1000000000)%Z).
  { intros k Hk Hretry Hfinal. unfold Fetcher.getHttpDoc.
    rewrite (attempts_until server (k - 1) Fetcher.httpMaxRetries 1);
      [|unfold Fetcher.httpMaxRetries; lia
       |intros j Hj; apply Hretry; lia
       |by replace (1 + (k - 1)) with k by lia].
    cbn [fst]. rewrite slept_app.
    replace (1 + (k - 1)) with k by lia.
    rewrite slept_final by done.
    pose proof (slept_retries server (k - 1) 1) as Hs.
    unfold Fetcher.httpSleepStep in *.
    replace (Z.of_nat (k - 1)) with (Z.of_nat k - 1)%Z in Hs by lia.
    lia. }
  split; [|by split].
  destruct (first_final server Fetcher.httpMaxRetries 1)
    as [Hr|(k & Hlt & Hr & Hf)]; unfold Fetcher.httpMaxRetries in *.
  - rewrite Hall by (intros i Hi; apply Hr; lia). lia.
  - specialize (Hk (1 + k) ltac:(lia)
                   ltac:(intros i Hi; apply Hr; lia) Hf).
    nia.
Qed.

Lemma getHttpDoc_sleep_bound_witness :
  slept (Fetcher.getHttpDoc
           (λ i, if decide (i < 4) then Fetcher.ConnError "reset"
                 else Fetcher.Reply 200 (Some "page"))).1
  = 6000000000%Z.
Proof.
  pose proof (proj2 (proj2 (getHttpDoc_sleep_bound
           (λ i, if decide (i < 4) then Fetcher.ConnError "reset"
                 else Fetcher.Reply 200 (Some "page")))) 4) as H.
  lapply H; [clear H; intros H|lia].
  lapply H; [clear H; intros H|intros i Hi; by rewrite decide_True by lia].
  lapply H; [clear H; intros H|reflexivity].
  change (Z.of_nat 4 * (Z.of_nat 4 - 1) * 1000000000)%Z
    with (2 * 6000000000)%Z in H.
  lia.
Defined.

(** X6: the fetcher returns a document exactly when the first outcome that
    is not retryable, within ten attempts, is a status 200 whose body
    parses, and that body is the document; it panics exactly when this
    outcome is a status 200 whose body does not parse.  A network-level
    error never makes it panic. *)
Theorem getHttpDoc_result {Document : Type}
    (server : nat → @Fetcher.Response Document) :
  (∀ doc : Document,
     (Fetcher.getHttpDoc server).2 = Ok (Some doc)
     ↔ ∃ k, 1 ≤ k ≤ 10
            ∧ (∀ i, 1 ≤ i < k → Fetcher.retryable (server i) = true)
            ∧ server k = Fetcher.Reply 200 (Some doc))
  ∧ (∀ msg : string,
       (Fetcher.getHttpDoc server).2 = Panic msg
       ↔ msg = "NewDocumentFromResponse"
         ∧ ∃ k, 1 ≤ k ≤ 10
                ∧ (∀ i, 1 ≤ i < k → Fetcher.retryable (server i) = true)
                ∧ server k = Fetcher.Reply 200 None).
Proof.
  assert (Hform : ∀ k, 1 ≤ k ≤ 10 →
            (∀ i, 1 ≤ i < k → Fetcher.retryable (server i) = true) →
            Fetcher.retryable (server k) = false →
            (Fetcher.getHttpDoc server).2 = (Fetcher.attempts server 1 k).2).
  { intros k Hk Hretry Hfinal. unfold Fetcher.getHttpDoc.
    rewrite (attempts_until server (k - 1) Fetcher.httpMaxRetries 1);
      [|unfold Fetcher.httpMaxRetries; lia
       |intros j Hj; apply Hretry; lia
       |by replace (1 + (k - 1)) with k by lia].
    by replace (1 + (k - 1)) with k by lia. }
  assert (Hcases :
    (Fetcher.getHttpDoc server).2 = Ok None
    ∨ ∃ k, 1 ≤ k ≤ 10
           ∧ (∀ i, 1 ≤ i < k → Fetcher.retryable (server i) = true)
           ∧ Fetcher.retryable (server k) = false
           ∧ (Fetcher.getHttpDoc server).2 = (Fetcher.attempts server 1 k).2).
  { destruct (first_final server Fetcher.httpMaxRetries 1)
      as [Hr|(k & Hlt & Hr & Hf)]; unfold Fetcher.httpMaxRetries in *.
    - left. unfold Fetcher.getHttpDoc. by rewrite attempts_all_retry.
    - right. exists (1 + k).
      assert (∀ i, 1 ≤ i < 1 + k → Fetcher.retryable (server i) = true)
        by (intros i Hi; apply Hr; lia).
      split; [lia|]. split; [done|]. split; [done|].
      apply Hform; [lia|done..]. }
  split.
  - intros doc. split.
    + intros Hres. destruct Hcases as [Hn|(k & Hk & Hr & Hf & He)];
        [by rewrite Hn in Hres|].
      exists k. split; [done|]. split; [done|].
      rewrite He, attempts_final in Hres by done.
      destruct (server k) as [err|status parsed]; [done|].
      destruct (Z.eqb_spec status 200) as [->|]; [|done].
      destruct parsed; [|done]. by injection Hres as ->.
    + intros (k & Hk & Hr & Hs).
      assert (Hf : Fetcher.retryable (server k) = false) by by rewrite Hs.
      rewrite (Hform k Hk Hr Hf), attempts_final, Hs by done. done.
  - intros msg. split.
    + intros Hres. destruct Hcases as [Hn|(k & Hk & Hr & Hf & He)];
        [by rewrite Hn in Hres|].
      rewrite He, attempts_final in Hres by done.
      destruct (server k) as [err|status parsed] eqn:Hs; [done|].
      destruct (Z.eqb_spec status 200) as [->|]; [|done].
      destruct parsed; [done|]. injection Hres as <-.
      split; [done|]. by exists k.
    + intros (-> & k & Hk & Hr & Hs).
      assert (Hf : Fetcher.retryable (server k) = false) by by rewrite Hs.
      rewrite (Hform k Hk Hr Hf), attempts_final, Hs by done. done.
Qed.

Section fetcher_v0.

Import Fetcher.
Context {Document : Type}.
Implicit Types (server : nat → @Response Document).

Lemma v0_round server (n i : nat) :
  not_ok (server i) →
  FetcherV0.attempts server (S n) i
  = (round_events i ++ (FetcherV0.attempts server n (S i)).1,
     (FetcherV0.attempts server n (S i)).2).
Proof.
  intros (status & parsed & Hs & Hne). cbn [FetcherV0.attempts].
  rewrite Hs. destruct (Z.eqb_spec status 200) as [|_]; [done|].
  destruct (FetcherV0.attempts server n (S i)) as [tr r].
  unfold round_events. by destruct (decide (i < httpMaxRetries)).
Qed.

Lemma rounds_S (i k : nat) : rounds i (S k) = round_events i ++ rounds (S i) k.
Proof. done. Qed.

Lemma v0_all server (n : nat) : ∀ i : nat,
  (∀ j, i ≤ j < i + n → not_ok (server j)) →
  FetcherV0.attempts server n i = (rounds i n, Ok None).
Proof.
  induction n as [|n IH]; intros i Hall; [done|].
  rewrite v0_round by (apply Hall; lia).
  rewrite IH by (intros j Hj; apply Hall; lia). by rewrite rounds_S.
Qed.

Lemma v0_until server (k : nat) : ∀ n i : nat,
  k < n →
  (∀ j, i ≤ j < i + k → not_ok (server j)) →
  FetcherV0.attempts server n i
  = (rounds i k ++ (FetcherV0.attempts server (n - k) (i + k)).1,
     (FetcherV0.attempts server (n - k) (i + k)).2).
Proof.
  induction k as [|k IH]; intros n i Hn Hall.
  - rewrite Nat.add_0_r, Nat.sub_0_r.
    by destruct (FetcherV0.attempts server n i).
  - destruct n as [|n]; [lia|].
    rewrite v0_round by (apply Hall; lia).
    rewrite (IH n (S i)); [|lia|intros j Hj; apply Hall; lia].
    rewrite rounds_S, <- app_assoc.
    by replace (S i + k) with (i + S k) by lia.
Qed.

Lemma slept_round_events (i : nat) : (0 ≤ slept (round_events i))%Z.
Proof.
  unfold round_events. destruct (decide _); cbn [slept]; [|lia].
  unfold sleepTime, httpSleepStep. lia.
Qed.

Lemma slept_rounds_nonneg (k : nat) : ∀ i : nat, (0 ≤ slept (rounds i k))%Z.
Proof.
  induction k as [|k IH]; intros i; [done|].
  rewrite rounds_S, slept_app.
  pose proof (slept_round_events i). specialize (IH (S i)). lia.
Qed.

Lemma v0_slept server (n : nat) : ∀ i : nat,
  (0 ≤ slept (FetcherV0.attempts server n i).1 ≤ slept (rounds i n))%Z.
Proof.
  induction n as [|n IH]; intros i; [done|].
  rewrite rounds_S, slept_app.
  pose proof (slept_round_events i). pose proof (slept_rounds_nonneg n (S i)).
  destruct (server i) as [err|status parsed] eqn:Hs.
  { cbn [FetcherV0.attempts]. rewrite Hs. cbn [fst slept]. lia. }
  destruct (Z.eqb_spec status 200) as [->|Hne].
  { cbn [FetcherV0.attempts]. rewrite Hs.
    destruct parsed; cbn [fst slept Z.eqb Pos.eqb]; lia. }
  rewrite v0_round by (by exists status, parsed).
  cbn [fst]. rewrite slept_app. specialize (IH (S i)). lia.
Qed.

Lemma v0_posts server (n : nat) : ∀ i : nat,
  posts (FetcherV0.attempts server n i).1 ≤ n.
Proof.
  induction n as [|n IH]; intros i; [done|].
  assert (H1 : ∀ tr : list Event, posts tr ≤ 1 → posts tr ≤ S n)
    by (intros; lia).
  destruct (server i) as [err|status parsed] eqn:Hs.
  { cbn [FetcherV0.attempts]. rewrite Hs. by apply H1. }
  destruct (Z.eqb_spec status 200) as [->|Hne].
  { cbn [FetcherV0.attempts]. rewrite Hs. destruct parsed; by apply H1. }
  rewrite v0_round by (by exists status, parsed).
  cbn [fst]. rewrite posts_app. specialize (IH (S i)).
  assert (posts (round_events i) = 1)
    by (unfold round_events; by destruct (decide _)).
  lia.
Qed.

End fetcher_v0.

(** X7: the earlier fetcher makes at most 10 requests and sleeps at most
    45 seconds in all.  After ten responses with a status other than 200 it
    returns the nil document, having slept after each of the first nine
    requests and logged the abort after the tenth, without a sleep.  When
    the responses before attempt k all have a status other than 200, a
    network-level error at attempt k is a panic with that error, and a
    status 200 at attempt k ends the fetch with the parsed document, or
    with a panic when the body does not parse. *)
Theorem getHttpDoc_v0_spec {Document : Type}
    (server : nat → @Fetcher.Response Document) :
  Fetcher.posts (FetcherV0.getHttpDoc server).1 ≤ 10
  ∧ (0 ≤ slept (FetcherV0.getHttpDoc server).1 ≤ 45 * 1000000000)%Z
  ∧ ((∀ i, 1 ≤ i ≤ 10 → not_ok (server i)) →
     FetcherV0.getHttpDoc server = (rounds 1 10, Ok None)
     ∧ slept (rounds 1 10) = (45 * 1000000000)%Z
     ∧ ∃ tr, rounds 1 10 = tr ++ [Fetcher.Post 10; Fetcher.LogAbort])
  ∧ (∀ k, 1 ≤ k ≤ 10 → (∀ i, 1 ≤ i < k → not_ok (server i)) →
       (∀ err, server k = Fetcher.ConnError err →
          FetcherV0.getHttpDoc server
          = (rounds 1 (k - 1) ++ [Fetcher.Post k], Panic err))
       ∧ (∀ doc, server k = Fetcher.Reply 200 (Some doc) →
            FetcherV0.getHttpDoc server
            = (rounds 1 (k - 1) ++ [Fetcher.Post k], Ok (Some doc)))
       ∧ (server k = Fetcher.Reply 200 None →
          FetcherV0.getHttpDoc server
          = (rounds 1 (k - 1) ++ [Fetcher.Post k],
             Panic "NewDocumentFromResponse"))).
Proof.
  split; [apply v0_posts|]. split.
  { pose proof (v0_slept server Fetcher.httpMaxRetries 1) as H.
    unfold FetcherV0.getHttpDoc.
    change (slept (rounds 1 Fetcher.httpMaxRetries))
      with (45 * 1000000000)%Z in H. lia. }
  split.
  { intros Hall. split; [|split; [done|]].
    - apply v0_all. intros j Hj. apply Hall.
      unfold Fetcher.httpMaxRetries in Hj. lia.
    - by exists (rounds 1 9). }
  intros k Hk Hall.
  assert (Hu : FetcherV0.getHttpDoc server
               = (rounds 1 (k - 1)
                    ++ (FetcherV0.attempts server (10 - (k - 1)) k).1,
                  (FetcherV0.attempts server (10 - (k - 1)) k).2)).
  { unfold FetcherV0.getHttpDoc.
    rewrite (v0_until server (k - 1) Fetcher.httpMaxRetries 1);
      [|unfold Fetcher.httpMaxRetries; lia|intros j Hj; apply Hall; lia].
    by replace (1 + (k - 1)) with k by lia. }
  destruct (10 - (k - 1)) as [|n] eqn:Hn; [lia|].
  cbn [FetcherV0.attempts] in Hu.
  split; [|split].
  - intros err Hs. by rewrite Hs in Hu.
  - intros doc Hs. by rewrite Hs in Hu.
  - intros Hs. by rewrite Hs in Hu.
Qed.

Lemma getHttpDoc_v0_spec_witness :
  FetcherV0.getHttpDoc
    (λ i, if decide (i < 3) then Fetcher.Reply 503 (Some "busy")
          else Fetcher.ConnError "connection reset")
  = ([Fetcher.Post 1; Fetcher.Sleep 1000000000;
      Fetcher.Post 2; Fetcher.Sleep 2000000000; Fetcher.Post 3],
     Panic "connection reset").
Proof.
  destruct (getHttpDoc_v0_spec
       (λ i, if decide (i < 3) then Fetcher.Reply 503 (Some "busy")
             else Fetcher.ConnError "connection reset"))
    as (_ & _ & _ & H).
  destruct (H 3) as [Herr _].
  - lia.
  - intros i Hi. rewrite decide_True by lia.
    exists 503%Z, (Some "busy"). by split.
  - exact (Herr "connection reset" eq_refl).
Defined.

(** ** Safe names: further properties *)

Section safeName_more.

Import SafeNameSpec.

Lemma byte_code (b : ascii) : SafeName.byte (GoString.code b) = b.
Proof.
  unfold SafeName.byte, GoString.code.
  pose proof (N_ascii_bounded b) as Hb.
  rewrite Z.mod_small by lia.
  by rewrite N2Z.id, ascii_N_embedding.
Qed.

Lemma alnum_ascii (b : ascii) : alnum b = true → (GoString.code b < 0x80)%Z.
Proof.
  unfold alnum. cbv zeta.
  intros [H|H]%orb_true_iff; apply andb_true_iff in H; lia.
Qed.

Lemma safe_ascii (b : ascii) : safe b = true → (GoString.code b < 0x80)%Z.
Proof.
  unfold safe. intros [H|H]%orb_true_iff; [by apply alnum_ascii|].
  by apply Ascii.eqb_eq in H as ->.
Qed.

(** The runes of a string of ASCII bytes are its bytes. *)
Lemma range_ascii (p : list ascii) :
  Forall (λ b, (GoString.code b < 0x80)%Z) p →
  fst <$> utf8.range p 0 = GoString.code <$> p.
Proof.
  induction p as [|b p IH]; intros Hp; [done|].
  apply Forall_cons in Hp as [Hb Hp].
  cbn [utf8.range]. rewrite fmap_cons.
  assert (Hd : utf8.DecodeRune (b :: p) = (GoString.code b, 1)).
  { unfold utf8.DecodeRune.
    destruct (Z.ltb_spec (GoString.code b) 0x80); [done|lia]. }
  rewrite Hd. cbn [fst snd Nat.sub]. by rewrite IH.
Qed.

Lemma translit_alnum_code (b : ascii) :
  alnum b = true → translit (GoString.code b) = Some [b].
Proof.
  intros Hb. unfold translit. unfold alnum in Hb. cbv zeta in Hb.
  rewrite Hb. by rewrite byte_code.
Qed.

Lemma translit_underscore : translit (GoString.code "_") = None.
Proof. done. Qed.

Lemma safe_cases (b : ascii) :
  safe b = true → alnum b = true ∨ (b = "_"%char ∧ alnum b = false).
Proof.
  unfold safe. destruct (alnum b) eqn:Ha; [by left|].
  intros H. right. split; [|done]. by apply Ascii.eqb_eq.
Qed.

(** A name of safe bytes that holds no two underscores in a row and does
    not end with one is its own safe name, once a first byte is written. *)
Lemma name_of_safe (l : list ascii) :
  Forall (λ b, safe b = true) l →
  single_underscores l = true →
  last l ≠ Some "_"%char →
  name true false (GoString.code <$> l) = l
  ∧ (∀ b l', l = b :: l' → alnum b = true →
       name true true (GoString.code <$> l) = "_"%char :: l).
Proof.
  induction l as [|b l IH]; intros Hs Hu Hl; [done|].
  apply Forall_cons in Hs as [Hb Hs].
  assert (Hu' : single_underscores l = true).
  { destruct l as [|y l]; [done|].
    change (single_underscores (b :: y :: l))
      with (negb (Ascii.eqb b "_" && Ascii.eqb y "_")
            && single_underscores (y :: l)) in Hu.
    by apply andb_true_iff in Hu as [_ ?]. }
  assert (Hl' : l ≠ [] → last l ≠ Some "_"%char).
  { intros Hne. destruct l as [|y l]; [done|]. by rewrite last_cons_cons in Hl. }
  rewrite fmap_cons. cbn [name].
  destruct (safe_cases b Hb) as [Ha|[-> Ha]].
  - rewrite translit_alnum_code by done.
    assert (HA : name true false (GoString.code <$> l) = l).
    { destruct l as [|y l]; [done|]. apply IH; [done..|by apply Hl']. }
    rewrite HA. split; [done|]. by intros.
  - rewrite translit_underscore. split; [|by intros ? ? [= <- <-]].
    destruct l as [|y l]; [done|].
    destruct (IH Hs Hu' (Hl' ltac:(done))) as [_ IHB].
    apply (IHB y l eq_refl).
    change (single_underscores ("_"%char :: y :: l))
      with (negb (Ascii.eqb "_" "_" && Ascii.eqb y "_")
            && single_underscores (y :: l)) in Hu.
    apply Forall_cons in Hs as [Hy _].
    destruct (safe_cases y Hy) as [?|[-> _]]; [done|]. done.
Qed.

(** The safe name is empty exactly when no rune has an image. *)
Lemma name_nil_iff (rs : list Z) : ∀ started pending : bool,
  name started pending rs = [] ↔ Forall (λ c, translit c = None) rs.
Proof.
  induction rs as [|c rs IH]; intros started pending.
  { split; [constructor|done]. }
  cbn [name]. rewrite Forall_cons.
  destruct (translit c) as [bs|] eqn:Hc.
  - destruct (translit_alnum c bs Hc) as [Hne _]. split; [|by intros [? _]].
    intros H. apply app_eq_nil in H as [_ H].
    by apply app_eq_nil in H as [? _].
  - rewrite IH. tauto.
Qed.

Lemma translit_length (c : Z) (bs : list ascii) :
  translit c = Some bs → length bs ≤ need c.
Proof.
  unfold translit, need.
  repeat case_match; intros [= <-]; simpl; try lia;
    repeat match goal with
           | H : (_ =? _)%Z = true |- _ => apply Z.eqb_eq in H; subst
           end; try done.
Qed.

Lemma name_length (rs : list Z) : ∀ started pending : bool,
  length (name started pending rs)
  ≤ (if pending then 1 else 0) + sum_list (need <$> rs).
Proof.
  induction rs as [|c rs IH]; intros started pending; [cbn; lia|].
  cbn [name]. rewrite fmap_cons.
  change (sum_list (need c :: (need <$> rs)))
    with (need c + sum_list (need <$> rs)).
  pose proof (need_ge_1 c).
  destruct (translit c) as [bs|] eqn:Hc.
  - apply translit_length in Hc. rewrite !length_app.
    specialize (IH true false).
    destruct started, pending; cbn [andb length] in *; lia.
  - specialize (IH started true). cbv iota in IH. destruct pending; lia.
Qed.

Lemma need_le_widths (l : list (Z * nat)) :
  Forall (λ rw, need rw.1 ≤ rw.2) l →
  sum_list (need <$> (fst <$> l)) ≤ widths l.
Proof.
  unfold widths. induction 1 as [|[c w] l Hcw Hall IH]; [done|].
  rewrite !fmap_cons.
  change (sum_list (?x :: ?l)) with (x + sum_list l).
  cbn [fst snd] in *. lia.
Qed.

End safeName_more.

Section safeName_strings.

Lemma length_of_bytes (l : list ascii) :
  String.length (GoString.of_bytes l) = length l.
Proof. induction l as [|b l IH]; [done|]. cbn. by rewrite <- IH. Qed.

Lemma length_bytes (s : string) :
  length (GoString.bytes s) = String.length s.
Proof. induction s as [|b s IH]; [done|]. cbn. by rewrite <- IH. Qed.

Lemma bytes_of_bytes (l : list ascii) :
  GoString.bytes (GoString.of_bytes l) = l.
Proof. apply list_ascii_of_string_of_list_ascii. Qed.

Lemma of_bytes_nil_iff (l : list ascii) :
  GoString.of_bytes l = EmptyString ↔ l = [].
Proof. by destruct l. Qed.

End safeName_strings.

(** X8: a safe name is its own safe name: transliterating the result
    again changes nothing. *)
Theorem safeName_idempotent (s out : string) :
  SafeName.safeName s = Ok out → SafeName.safeName out = Ok out.
Proof.
  rewrite safeName_refines. intros [= <-].
  set (l := SafeNameSpec.name false false (SafeNameSpec.runes s)).
  rewrite safeName_refines. do 2 f_equal.
  assert (Hsafe : Forall (λ b, SafeNameSpec.safe b = true) l)
    by apply name_safe.
  assert (Hsingle : SafeNameSpec.single_underscores l = true)
    by apply name_single.
  unfold SafeNameSpec.runes. rewrite bytes_of_bytes, range_ascii
    by (eapply Forall_impl; [exact Hsafe|apply safe_ascii]).
  pose proof (name_last (SafeNameSpec.runes s) false false) as Hlast.
  pose proof (name_head (SafeNameSpec.runes s) false) as Hhead.
  fold l in Hlast, Hhead.
  destruct Hhead as [Hnil|(x & l' & Hl & Hx)].
  { by rewrite Hnil. }
  rewrite Hl in *. rewrite fmap_cons. cbn [SafeNameSpec.name].
  rewrite translit_alnum_code by done. cbn [andb app].
  f_equal. apply Forall_cons in Hsafe as [_ Hsafe].
  destruct l' as [|y l']; [done|].
  apply name_of_safe; [done| |].
  - change (SafeNameSpec.single_underscores (x :: y :: l'))
      with (negb (Ascii.eqb x "_" && Ascii.eqb y "_")
            && SafeNameSpec.single_underscores (y :: l')) in Hsingle.
    by apply andb_true_iff in Hsingle as [_ ?].
  - destruct Hlast as [Hnil|(z & Hz & Ha)]; [done|].
    rewrite last_cons_cons in Hz. rewrite Hz. intros [= ->].
    by vm_compute in Ha.
Qed.

Lemma safeName_idempotent_witness :
  SafeName.safeName "mensa_sued_kino" = Ok "mensa_sued_kino".
Proof.
  apply (safeName_idempotent "Mensa Süd (Kino)" "mensa_sued_kino").
  by vm_compute.
Defined.

(** X9: the safe name is the empty string exactly when the display name
    holds no lowercase or uppercase ASCII letter, no digit and none of
    ä ö ü ß é. *)
Theorem safeName_empty_iff (s : string) :
  SafeName.safeName s = Ok EmptyString
  ↔ Forall (λ c, SafeNameSpec.translit c = None) (SafeNameSpec.runes s).
Proof.
  rewrite safeName_refines, <- (name_nil_iff _ false false). split.
  - intros [= H]. by apply of_bytes_nil_iff.
  - by intros ->.
Qed.

(** X10: the safe name is never longer, in bytes, than the display name. *)
Theorem safeName_length (s out : string) :
  SafeName.safeName s = Ok out → String.length out ≤ String.length s.
Proof.
  rewrite safeName_refines. intros [= <-].
  rewrite length_of_bytes, <- length_bytes.
  pose proof (name_length (SafeNameSpec.runes s) false false) as Hn.
  pose proof (need_le_widths (utf8.range (GoString.bytes s) 0)
                (range_need _ _)) as Hw.
  pose proof (range_widths (GoString.bytes s) 0) as Hr.
  unfold SafeNameSpec.runes in *. cbv iota in Hn. lia.
Qed.

Lemma safeName_length_witness :
  String.length "cafe_tu" ≤ String.length "Café (TU)".
Proof.
  apply (safeName_length "Café (TU)" "cafe_tu"). by vm_compute.
Defined.

(** ** Opening hours: from extraction to serialization *)

Lemma Times_MarshalXML_seven (hours : list string) (start : xml.StartElement) :
  length hours = 7 →
  Serializer.Times_MarshalXML hours start
  = Ok [xml.Element "times" [("type", "opening")]
          (zip_with (λ name h, xml.Element name [day_attr h] [])
                    Serializer.weekdays hours)].
Proof.
  intros Hlen.
  destruct hours as [|h0 [|h1 [|h2 [|h3 [|h4 [|h5 [|h6 [|h7 l]]]]]]]];
    try done.
Qed.

(** X11: the slots that the scan of the opening-hour blocks produces are
    always serialized: [Times.MarshalXML] does not panic on them, and the
    [times] element holds the seven weekday elements, each closed or open
    as its slot says. *)
Theorem openingHours_serialized (blocks : list (option OpeningHours.Submatch))
    (hours : list string) (start : xml.StartElement) :
  OpeningHours.openingHours blocks = Ok hours →
  length hours = 7
  ∧ Serializer.Times_MarshalXML hours start
    = Ok [xml.Element "times" [("type", "opening")]
            (zip_with (λ name h, xml.Element name [day_attr h] [])
                      Serializer.weekdays hours)].
Proof.
  intros Ho.
  assert (Hlen : length hours = 7).
  { unfold OpeningHours.openingHours in Ho.
    by eapply scan_length in Ho. }
  split; [done|]. by apply Times_MarshalXML_seven.
Qed.

Lemma openingHours_serialized_witness :
  Serializer.Times_MarshalXML
    ["09:00-15:00"; "09:00-15:00"; ""; ""; ""; ""; ""]
    {| xml.Name := "times"; xml.Attr := [] |}
  = Ok [xml.Element "times" [("type", "opening")]
          [xml.Element "monday" [("open", "09:00-15:00")] [];
           xml.Element "tuesday" [("open", "09:00-15:00")] [];
           xml.Element "wednesday" [("closed", "true")] [];
           xml.Element "thursday" [("closed", "true")] [];
           xml.Element "friday" [("closed", "true")] [];
           xml.Element "saturday" [("closed", "true")] [];
           xml.Element "sunday" [("closed", "true")] []]].
Proof.
  apply (openingHours_serialized
           [Some {| OpeningHours.whole := "Mo. – Di.";
                    OpeningHours.dayStart := "Mo"; OpeningHours.dayEnd := "Di";
                    OpeningHours.hoursStart := "09:00";
                    OpeningHours.hoursEnd := "15:00" |}]
           ["09:00-15:00"; "09:00-15:00"; ""; ""; ""; ""; ""]
           {| xml.Name := "times"; xml.Attr := [] |}).
  reflexivity.
Defined.

(** ** Prices: what a meal can carry *)

(** X12: for every price text the extraction returns (it does not panic);
    a meal gets no price, one price for "other", or three prices for
    student, employee and other, never two and never more than three; and a
    line is logged only when no price is attached, at most one, when the
    number of matches is none of 0, 1 and 3. *)
Theorem extract_shape (id name prices : string) :
  ∃ (ps : list Price) (log : list Prices.LogEntry),
    Prices.extract id name prices = Ok (ps, log)
    ∧ (Price_Role <$> ps = []
       ∨ Price_Role <$> ps = ["other"]
       ∨ Price_Role <$> ps = ["student"; "employee"; "other"])
    ∧ (log = []
       ∨ ps = []
         ∧ log = [{| Prices.log_id := id; Prices.log_name := name;
                     Prices.log_count := length (regexp.FindAllString prices);
                     Prices.log_prices := prices |}]
         ∧ length (regexp.FindAllString prices) ≠ 0
         ∧ length (regexp.FindAllString prices) ≠ 1
         ∧ length (regexp.FindAllString prices) ≠ 3).
Proof.
  unfold Prices.extract.
  destruct (regexp.FindAllString prices) as [|p0 [|p1 [|p2 [|p3 m]]]];
    cbn [length].
  - eexists _, _. split; [done|]. split; [by left|by left].
  - eexists _, _. split; [done|]. split; [by right; left|by left].
  - eexists _, _. split; [done|]. split; [by left|right]. by repeat split.
  - eexists _, _. split; [done|]. split; [by right; right|by left].
  - eexists _, _. split; [done|]. split; [by left|right]. by repeat split.
Qed.

(** ** Reading the identifier files back *)

Section scanner_facts.

Lemma contains_byte_false (c : ascii) (s : string) :
  GoString.contains_byte c s = false ↔ c ∉ GoString.bytes s.
Proof.
  induction s as [|x s IH]; cbn.
  - split; [intros _; apply not_elem_of_nil|done].
  - rewrite not_elem_of_cons.
    destruct (Ascii.eqb_spec x c) as [->|Hne].
    + split; [done|]. by intros [? _].
    + rewrite IH. split; [by split|by intros [_ ?]].
Qed.

Lemma valid_id_of_bytes (l : list ascii) :
  valid_id (GoString.of_bytes l) ↔ Persist.newline ∉ l.
Proof. unfold valid_id. by rewrite contains_byte_false, bytes_of_bytes. Qed.

Lemma of_bytes_bytes (s : string) : GoString.of_bytes (GoString.bytes s) = s.
Proof. apply string_of_list_ascii_of_string. Qed.

Lemma dropCR_prefix (l : list ascii) : Scanner.dropCR l `prefix_of` l.
Proof.
  unfold Scanner.dropCR. destruct (last l) as [c|]; [|done].
  destruct (Ascii.eqb c Scanner.carriage_return); [|done].
  apply prefix_take.
Qed.

Lemma dropCR_plain (l : list ascii) :
  last l ≠ Some Scanner.carriage_return → Scanner.dropCR l = l.
Proof.
  unfold Scanner.dropCR. destruct (last l) as [c|]; [|done].
  destruct (Ascii.eqb_spec c Scanner.carriage_return) as [->|]; done.
Qed.

Lemma as_loaded_plain (id : string) : plain id → as_loaded id = id.
Proof.
  intros H. unfold as_loaded. rewrite dropCR_plain by done.
  apply of_bytes_bytes.
Qed.

(** One line: the bytes up to the next newline become one identifier. *)
Lemma scan_line (l : list ascii) : ∀ cur rest : list ascii,
  Persist.newline ∉ l →
  length cur + length l < Scanner.MaxScanTokenSize →
  Scanner.scan (l ++ Persist.newline :: rest) cur
  = (GoString.of_bytes (Scanner.dropCR (cur ++ l))
       :: (Scanner.scan rest []).1,
     (Scanner.scan rest []).2).
Proof.
  induction l as [|b l IH]; intros cur rest Hnl Hlen.
  - cbn [app Scanner.scan]. rewrite Ascii.eqb_refl, app_nil_r.
    by destruct (Scanner.scan rest []).
  - apply not_elem_of_cons in Hnl as [Hb Hnl]. cbn [length] in Hlen.
    cbn [app Scanner.scan].
    destruct (Ascii.eqb_spec b Persist.newline) as [->|_]; [done|].
    rewrite decide_False by lia.
    rewrite IH; [|done|rewrite length_app; cbn [length]; lia].
    by rewrite <- app_assoc.
Qed.

Lemma scan_id_lines (ids : list string) :
  Forall valid_id ids → Forall fits_line ids →
  Scanner.scan (id_lines ids) [] = (as_loaded <$> ids, None).
Proof.
  induction ids as [|id ids IH]; intros Hv Hf; [done|].
  apply Forall_cons in Hv as [Hid Hv]. apply Forall_cons in Hf as [Hfid Hf].
  rewrite id_lines_cons, <- app_assoc. cbn [app].
  rewrite scan_line.
  - by rewrite IH.
  - by apply contains_byte_false.
  - unfold fits_line in Hfid. rewrite length_bytes. cbn [length]. lia.
Qed.

(** Whatever the data, the identifiers of a scan contain no newline and
    are shorter than the buffer. *)
Lemma scan_valid (data : list ascii) : ∀ (cur : list ascii),
  Persist.newline ∉ cur → length cur < Scanner.MaxScanTokenSize →
  Forall (λ id, valid_id id ∧ fits_line id) (Scanner.scan data cur).1.
Proof.
  assert (Htok : ∀ cur, Persist.newline ∉ cur →
            length cur < Scanner.MaxScanTokenSize →
            valid_id (GoString.of_bytes (Scanner.dropCR cur))
            ∧ fits_line (GoString.of_bytes (Scanner.dropCR cur))).
  { intros cur Hnl Hlen. pose proof (dropCR_prefix cur) as Hp. split.
    - apply valid_id_of_bytes. intros Hin. apply Hnl.
      destruct Hp as [k Hk]. rewrite Hk. apply elem_of_app. by left.
    - unfold fits_line. rewrite length_of_bytes.
      apply prefix_length in Hp. lia. }
  induction data as [|b data IH]; intros cur Hnl Hlen.
  - cbn [Scanner.scan fst]. destruct cur as [|c cur]; [constructor|].
    constructor; [by apply Htok|constructor].
  - cbn [Scanner.scan].
    destruct (Ascii.eqb_spec b Persist.newline) as [->|Hb].
    + specialize (IH [] (not_elem_of_nil _)).
      destruct (Scanner.scan data []) as [lines err]. cbn [fst] in *.
      constructor; [by apply Htok|].
      apply IH. cbn [length]. unfold Scanner.MaxScanTokenSize. lia.
    + destruct (decide (length cur + 1 = Scanner.MaxScanTokenSize));
        [constructor|].
      apply IH.
      * rewrite elem_of_app, list_elem_of_singleton. by intros [?|?].
      * rewrite length_app. cbn [length]. lia.
Qed.

Lemma loadIds_valid (f : string) (fs : Persist.FS) :
  Forall (λ id, valid_id id ∧ fits_line id) (Restore.loadIds f fs).1.
Proof.
  unfold Restore.loadIds. destruct (Persist.files fs !! f) as [data|].
  - apply scan_valid; [apply not_elem_of_nil|].
    cbn [length]. unfold Scanner.MaxScanTokenSize. lia.
  - constructor.
Qed.

(** [saveIds] on valid identifiers. *)
Lemma saveIds_valid (ids : list string) (f : string) (fs : Persist.FS) :
  f ∉ Persist.denied fs → Forall valid_id ids →
  Persist.saveIds ids f fs
  = (None, {| Persist.files := <[f := id_lines ids]> (Persist.files fs);
              Persist.denied := Persist.denied fs |}).
Proof.
  intros Hc Hv. unfold Persist.saveIds. rewrite decide_False by done.
  destruct (saveIds_loop_valid ids bufio.NewWriter Hv) as (w & -> & Hwr & _).
  unfold written in Hwr. simpl in Hwr. simpl. by rewrite Hwr.
Qed.

Lemma saveIds_loop_inr (ids : list string) : ∀ w w' : bufio.Writer,
  Persist.saveIds_loop ids w = inr w' → Forall valid_id ids.
Proof.
  induction ids as [|id ids IH]; intros w w' H; [constructor|].
  cbn [Persist.saveIds_loop] in H.
  destruct (GoString.contains_byte Persist.newline id) eqn:Hid; [done|].
  constructor; [done|]. by eapply IH.
Qed.

Lemma saveIds_loop_inl (ids : list string) : ∀ w : bufio.Writer,
  Exists (λ id, ¬ valid_id id) ids →
  ∃ w', Persist.saveIds_loop ids w = inl w'.
Proof.
  induction ids as [|id ids IH]; intros w H; [by apply Exists_nil in H|].
  cbn [Persist.saveIds_loop].
  destruct (GoString.contains_byte Persist.newline id) eqn:Hid; [by eexists|].
  apply Exists_cons in H as [H|H]; [done|]. by apply IH.
Qed.

(** A save that returns no error was allowed to create the file, had only
    valid identifiers, and left exactly their lines. *)
Lemma saveIds_None (ids : list string) (f : string) (fs fs' : Persist.FS) :
  Persist.saveIds ids f fs = (None, fs') →
  (f ∉ Persist.denied fs) ∧ Forall valid_id ids
  ∧ fs' = {| Persist.files := <[f := id_lines ids]> (Persist.files fs);
             Persist.denied := Persist.denied fs |}.
Proof.
  intros H.
  assert (Hc : f ∉ Persist.denied fs).
  { intros Hd. unfold Persist.saveIds in H. by rewrite decide_True in H. }
  assert (Hv : Forall valid_id ids).
  { unfold Persist.saveIds in H. rewrite decide_False in H by done.
    destruct (Persist.saveIds_loop ids bufio.NewWriter) eqn:Hl; [done|].
    by eapply saveIds_loop_inr. }
  rewrite saveIds_valid in H by done. naive_solver.
Qed.

(** A save touches no other file. *)
Lemma saveIds_other (ids : list string) (f g : string) (fs : Persist.FS) :
  g ≠ f →
  Persist.files (Persist.saveIds ids f fs).2 !! g = Persist.files fs !! g.
Proof.
  intros Hne. unfold Persist.saveIds.
  destruct (decide (f ∈ Persist.denied fs)); [done|].
  destruct (Persist.saveIds_loop ids bufio.NewWriter); cbn;
    by rewrite lookup_insert_ne.
Qed.

Lemma saveIds_invalid (ids : list string) (f : string) (fs : Persist.FS) :
  Exists (λ id, ¬ valid_id id) ids →
  ∃ e, (Persist.saveIds ids f fs).1 = Some e.
Proof.
  intros H. unfold Persist.saveIds.
  destruct (decide (f ∈ Persist.denied fs)); [by eexists|].
  destruct (saveIds_loop_inl ids bufio.NewWriter H) as [w ->]. by eexists.
Qed.

End scanner_facts.

(** X13: what [saveIds] wrote, [loadIds] reads back: for identifiers
    without newline and shorter than the scanner's buffer, loading the
    saved file gives every identifier, in order, less a trailing carriage
    return, and no error; identifiers that do not end in a carriage return
    come back unchanged. *)
Theorem loadIds_saveIds (ids : list string) (f : string) (fs : Persist.FS) :
  f ∉ Persist.denied fs →
  Forall valid_id ids → Forall fits_line ids →
  Restore.loadIds f (Persist.saveIds ids f fs).2 = (as_loaded <$> ids, None)
  ∧ (Forall plain ids →
     Restore.loadIds f (Persist.saveIds ids f fs).2 = (ids, None)).
Proof.
  intros Hc Hv Hf.
  assert (H : Restore.loadIds f (Persist.saveIds ids f fs).2
              = (as_loaded <$> ids, None)).
  { rewrite saveIds_valid by done. unfold Restore.loadIds. cbn.
    rewrite lookup_insert_eq. by apply scan_id_lines. }
  split; [done|]. intros Hp. rewrite H. f_equal.
  rewrite <- (list_fmap_id ids) at 2. apply Forall_fmap_ext.
  eapply Forall_impl; [exact Hp|]. intros id. apply as_loaded_plain.
Qed.

Lemma loadIds_saveIds_witness :
  Restore.loadIds "berlin/ids_all"
    (Persist.saveIds ["101"; "102"] "berlin/ids_all"
       {| Persist.files := ∅; Persist.denied := ∅ |}).2
  = (["101"; "102"], None).
Proof.
  refine (proj2 (loadIds_saveIds ["101"; "102"] "berlin/ids_all"
                   {| Persist.files := ∅; Persist.denied := ∅ |} _ _ _) _).
  - simpl. apply not_elem_of_empty.
  - repeat constructor.
  - rewrite !Forall_cons, Forall_nil.
    repeat split; apply Nat.ltb_lt; by vm_compute.
  - repeat constructor; by vm_compute.
Defined.

(** X14: whatever a file holds, the identifiers [loadIds] returns (also
    those it returns beside an error) contain no newline and are shorter
    than the scanner's buffer: [saveIds] never rejects a restored
    identifier. *)
Theorem loadIds_identifiers (f : string) (fs : Persist.FS) (id : string) :
  id ∈ (Restore.loadIds f fs).1 → valid_id id ∧ fits_line id.
Proof.
  intros Hin. pose proof (loadIds_valid f fs) as H.
  rewrite Forall_forall in H. by apply H.
Qed.

Lemma loadIds_identifiers_witness :
  valid_id "101" ∧ fits_line "101".
Proof.
  apply (loadIds_identifiers "berlin/ids_all"
           {| Persist.files := {[ "berlin/ids_all" := id_lines ["101"] ]};
              Persist.denied := ∅ |} "101").
  vm_compute. apply list_elem_of_here.
Defined.

(** ** The identifier part of [main] *)

Section main_facts.

Lemma main_files_distinct :
  Main.idsCurFile ≠ Main.idsArchiveFile
  ∧ Main.idsCurFile ≠ Main.idsAllFile
  ∧ Main.idsArchiveFile ≠ Main.idsAllFile.
Proof. by repeat split. Qed.

(** The run on valid fetched identifiers, a history that loads, and three
    files that can be created. *)
Lemma ids_run (fetched loaded : list string) (fs : Persist.FS) :
  Restore.loadIds Main.idsAllFile fs = (loaded, None) →
  Forall valid_id fetched →
  Main.idsCurFile ∉ Persist.denied fs →
  Main.idsArchiveFile ∉ Persist.denied fs →
  Main.idsAllFile ∉ Persist.denied fs →
  ∃ r : Catalog.Ids,
    Catalog.reconcile fetched loaded = Ok r
    ∧ Main.ids fetched fs
      = Ok (Main.Saved r
              {| Persist.files :=
                   <[Main.idsAllFile := id_lines (Catalog.idsAll r)]>
                     (<[Main.idsArchiveFile
                        := id_lines (Catalog.idsArchive r)]>
                        (<[Main.idsCurFile := id_lines (Catalog.idsCur r)]>
                           (Persist.files fs)));
                 Persist.denied := Persist.denied fs |}).
Proof.
  intros Hload Hv Hc1 Hc2 Hc3.
  destruct (reconcile_facts fetched loaded)
    as (r & Hr & _ & Hcur & _ & Hall & _ & _ & _ & Harch).
  exists r. split; [done|].
  assert (Hl : Forall valid_id loaded).
  { pose proof (loadIds_valid Main.idsAllFile fs) as H.
    rewrite Hload in H. cbn [fst] in H.
    eapply Forall_impl; [exact H|]. by intros id [? _]. }
  rewrite Forall_forall in Hv, Hl.
  assert (Hvc : Forall valid_id (Catalog.idsCur r)).
  { apply Forall_forall. intros x Hx. apply Hv. by apply Hcur. }
  assert (Hva : Forall valid_id (Catalog.idsArchive r)).
  { apply Forall_forall. intros x Hx. apply Hl. by apply Harch. }
  assert (Hvl : Forall valid_id (Catalog.idsAll r)).
  { apply Forall_forall. intros x Hx.
    apply Hall in Hx as [Hx|Hx]; [by apply Hl|by apply Hv]. }
  unfold Main.ids. rewrite Hload, Hr. cbn [mbind result_bind].
  rewrite saveIds_valid by done.
  rewrite saveIds_valid by done.
  by rewrite saveIds_valid by done.
Qed.

(** What a run that reached the end has done. *)
Lemma ids_Saved (fetched : list string) (fs fs' : Persist.FS)
    (r : Catalog.Ids) :
  Main.ids fetched fs = Ok (Main.Saved r fs') →
  ∃ loaded : list string,
    Restore.loadIds Main.idsAllFile fs = (loaded, None)
    ∧ Catalog.reconcile fetched loaded = Ok r
    ∧ Forall valid_id (Catalog.idsAll r)
    ∧ Persist.files fs' !! Main.idsAllFile
      = Some (id_lines (Catalog.idsAll r))
    ∧ Persist.denied fs' = Persist.denied fs
    ∧ (Main.idsCurFile ∉ Persist.denied fs)
    ∧ (Main.idsArchiveFile ∉ Persist.denied fs)
    ∧ (Main.idsAllFile ∉ Persist.denied fs).
Proof.
  unfold Main.ids.
  destruct (Restore.loadIds Main.idsAllFile fs) as [loaded [e|]]; [done|].
  destruct (reconcile_facts fetched loaded) as (r0 & Hr & _).
  rewrite Hr. cbn [mbind result_bind].
  destruct (Persist.saveIds (Catalog.idsCur r0) Main.idsCurFile fs)
    as [[e|] fs1] eqn:H1; [done|].
  destruct (Persist.saveIds (Catalog.idsArchive r0) Main.idsArchiveFile fs1)
    as [[e|] fs2] eqn:H2; [done|].
  destruct (Persist.saveIds (Catalog.idsAll r0) Main.idsAllFile fs2)
    as [[e|] fs3] eqn:H3; [done|].
  intros [= <- <-]. exists loaded.
  apply saveIds_None in H1 as (Hc1 & _ & ->).
  apply saveIds_None in H2 as (Hc2 & _ & ->).
  apply saveIds_None in H3 as (Hc3 & Hv & ->). cbn in *.
  by rewrite lookup_insert_eq.
Qed.

End main_facts.

(** X15: a fetched identifier with a newline ends the run in [log.Fatal],
    whatever the files hold, and only the file of the current identifiers
    can have changed by then: the history and the archive are as they
    were. *)
Theorem ids_invalid_fetched (fetched : list string) (fs : Persist.FS) :
  Exists (λ id, ¬ valid_id id) fetched →
  ∃ (e : Persist.error) (fs' : Persist.FS),
    Main.ids fetched fs = Ok (Main.Fatal e fs')
    ∧ ∀ f, f ≠ Main.idsCurFile →
           Persist.files fs' !! f = Persist.files fs !! f.
Proof.
  intros Hbad. unfold Main.ids.
  destruct (Restore.loadIds Main.idsAllFile fs) as [loaded [e|]];
    [by exists e, fs|].
  destruct (reconcile_facts fetched loaded) as (r & Hr & _ & Hcur & _).
  rewrite Hr. cbn [mbind result_bind].
  assert (Hbad' : Exists (λ id, ¬ valid_id id) (Catalog.idsCur r)).
  { apply Exists_exists in Hbad as (x & Hx & Hnv). apply Exists_exists.
    exists x. split; [by apply Hcur|done]. }
  destruct (saveIds_invalid _ Main.idsCurFile fs Hbad') as [e He].
  pose proof (λ f, saveIds_other (Catalog.idsCur r) Main.idsCurFile f fs)
    as Hother.
  destruct (Persist.saveIds (Catalog.idsCur r) Main.idsCurFile fs)
    as [err fs1].
  cbn [fst snd] in He, Hother. subst err. by exists e, fs1.
Qed.

Lemma ids_invalid_fetched_witness :
  ∃ (e : Persist.error) (fs' : Persist.FS),
    Main.ids ["102"; String "1" (String Persist.newline "3")]
      {| Persist.files := {[ Main.idsAllFile := id_lines ["101"] ]};
         Persist.denied := ∅ |}
    = Ok (Main.Fatal e fs')
    ∧ ∀ f, f ≠ Main.idsCurFile →
           Persist.files fs' !! f
           = Persist.files
               {| Persist.files := {[ Main.idsAllFile := id_lines ["101"] ]};
                  Persist.denied := ∅ |} !! f.
Proof.
  apply (ids_invalid_fetched
           ["102"; String "1" (String Persist.newline "3")]
           {| Persist.files := {[ Main.idsAllFile := id_lines ["101"] ]};
              Persist.denied := ∅ |}).
  apply Exists_cons_tl, Exists_cons_hd. by vm_compute.
Defined.

(** X16: with fetched identifiers free of newlines, a history file that
    loads and three files that can be created, the run reaches the end: the
    lists are those of the reconciliation of the fetched with the loaded
    identifiers, and each of the three files holds exactly the lines of its
    list; no other file changes. *)
Theorem ids_saved (fetched loaded : list string) (fs : Persist.FS) :
  Restore.loadIds Main.idsAllFile fs = (loaded, None) →
  Forall valid_id fetched →
  Main.idsCurFile ∉ Persist.denied fs →
  Main.idsArchiveFile ∉ Persist.denied fs →
  Main.idsAllFile ∉ Persist.denied fs →
  ∃ (r : Catalog.Ids) (fs' : Persist.FS),
    Catalog.reconcile fetched loaded = Ok r
    ∧ Main.ids fetched fs = Ok (Main.Saved r fs')
    ∧ Persist.files fs' !! Main.idsCurFile
      = Some (id_lines (Catalog.idsCur r))
    ∧ Persist.files fs' !! Main.idsArchiveFile
      = Some (id_lines (Catalog.idsArchive r))
    ∧ Persist.files fs' !! Main.idsAllFile
      = Some (id_lines (Catalog.idsAll r))
    ∧ ∀ f, f ≠ Main.idsCurFile → f ≠ Main.idsArchiveFile →
           f ≠ Main.idsAllFile →
           Persist.files fs' !! f = Persist.files fs !! f.
Proof.
  intros Hload Hv Hc1 Hc2 Hc3.
  destruct (ids_run fetched loaded fs Hload Hv Hc1 Hc2 Hc3)
    as (r & Hr & Hrun).
  destruct main_files_distinct as (H12 & H13 & H23).
  eexists r, _. split; [done|]. split; [exact Hrun|]. cbn.
  repeat split.
  - by rewrite !lookup_insert_ne, lookup_insert_eq by done.
  - by rewrite lookup_insert_ne, lookup_insert_eq by done.
  - by rewrite lookup_insert_eq.
  - intros f H1 H2 H3. by rewrite !lookup_insert_ne by done.
Qed.

Lemma ids_saved_witness :
  ∃ (r : Catalog.Ids) (fs' : Persist.FS),
    Catalog.reconcile ["102"; "103"; "102"] ["101"; "102"] = Ok r
    ∧ Main.ids ["102"; "103"; "102"]
        {| Persist.files := {[ Main.idsAllFile := id_lines ["101"; "102"] ]};
           Persist.denied := ∅ |}
      = Ok (Main.Saved r fs')
    ∧ Persist.files fs' !! Main.idsCurFile
      = Some (id_lines (Catalog.idsCur r))
    ∧ Persist.files fs' !! Main.idsArchiveFile
      = Some (id_lines (Catalog.idsArchive r))
    ∧ Persist.files fs' !! Main.idsAllFile
      = Some (id_lines (Catalog.idsAll r))
    ∧ ∀ f, f ≠ Main.idsCurFile → f ≠ Main.idsArchiveFile →
           f ≠ Main.idsAllFile →
           Persist.files fs' !! f
           = Persist.files
               {| Persist.files :=
                    {[ Main.idsAllFile := id_lines ["101"; "102"] ]};
                  Persist.denied := ∅ |} !! f.
Proof.
  apply (ids_saved ["102"; "103"; "102"] ["101"; "102"]
           {| Persist.files :=
                {[ Main.idsAllFile := id_lines ["101"; "102"] ]};
              Persist.denied := ∅ |}).
  - by vm_compute.
  - rewrite !Forall_cons, Forall_nil. repeat split; by vm_compute.
  - simpl. apply not_elem_of_empty.
  - simpl. apply not_elem_of_empty.
  - simpl. apply not_elem_of_empty.
Defined.

(** X17: one run after another.  After a run that reached the end, with
    every identifier of its history shorter than the scanner's buffer and
    none ending in a carriage return, the next run on fetched identifiers
    free of newlines reaches the end as well; its history is the previous
    history and the newly fetched identifiers, so no identifier is ever
    lost, and its archive is what of the previous history is no longer
    fetched. *)
Theorem ids_history (fetched1 fetched2 : list string)
    (fs fs1 : Persist.FS) (r1 : Catalog.Ids) :
  Main.ids fetched1 fs = Ok (Main.Saved r1 fs1) →
  Forall fits_line (Catalog.idsAll r1) →
  Forall plain (Catalog.idsAll r1) →
  Forall valid_id fetched2 →
  ∃ (r2 : Catalog.Ids) (fs2 : Persist.FS),
    Main.ids fetched2 fs1 = Ok (Main.Saved r2 fs2)
    ∧ (∀ x, x ∈ Catalog.idsAll r2
            ↔ x ∈ Catalog.idsAll r1 ∨ x ∈ fetched2)
    ∧ (∀ x, x ∈ Catalog.idsArchive r2
            ↔ x ∈ Catalog.idsAll r1 ∧ x ∉ fetched2).
Proof.
  intros Hrun1 Hfit Hplain Hv2.
  destruct (ids_Saved _ _ _ _ Hrun1)
    as (loaded1 & _ & _ & Hv1 & Hfile & Hden & Hc1 & Hc2 & Hc3).
  assert (Hload : Restore.loadIds Main.idsAllFile fs1
                  = (Catalog.idsAll r1, None)).
  { unfold Restore.loadIds. rewrite Hfile, scan_id_lines by done.
    f_equal. rewrite <- (list_fmap_id (Catalog.idsAll r1)) at 2.
    apply Forall_fmap_ext. eapply Forall_impl; [exact Hplain|].
    intros id. apply as_loaded_plain. }
  rewrite <- Hden in Hc1, Hc2, Hc3.
  destruct (ids_run fetched2 _ fs1 Hload Hv2 Hc1 Hc2 Hc3)
    as (r2 & Hr2 & Hrun2).
  destruct (reconcile_facts fetched2 (Catalog.idsAll r1))
    as (r & Hr & _ & _ & _ & Hall & _ & _ & _ & Harch).
  rewrite Hr in Hr2. injection Hr2 as ->.
  eexists r2, _. split; [exact Hrun2|]. by split.
Qed.

Lemma ids_history_witness :
  ∃ (r2 : Catalog.Ids) (fs2 : Persist.FS),
    Main.ids ["103"; "102"]
      {| Persist.files :=
           <[Main.idsAllFile := id_lines ["101"; "102"]]>
             (<[Main.idsArchiveFile := id_lines []]>
                (<[Main.idsCurFile := id_lines ["101"; "102"]]> ∅));
         Persist.denied := ∅ |}
    = Ok (Main.Saved r2 fs2)
    ∧ (∀ x, x ∈ Catalog.idsAll r2 ↔ x ∈ ["101"; "102"] ∨ x ∈ ["103"; "102"])
    ∧ (∀ x, x ∈ Catalog.idsArchive r2
            ↔ x ∈ ["101"; "102"] ∧ x ∉ ["103"; "102"]).
Proof.
  apply (ids_history ["102"; "101"; "102"] ["103"; "102"]
           {| Persist.files := ∅; Persist.denied := ∅ |}
           {| Persist.files :=
                <[Main.idsAllFile := id_lines ["101"; "102"]]>
                  (<[Main.idsArchiveFile := id_lines []]>
                     (<[Main.idsCurFile := id_lines ["101"; "102"]]> ∅));
              Persist.denied := ∅ |}
           {| Catalog.idsCur := ["101"; "102"];
              Catalog.idsArchive := [];
              Catalog.idsAll := ["101"; "102"] |}).
  - by vm_compute.
  - cbn [Catalog.idsAll]. rewrite !Forall_cons, Forall_nil.
    repeat split; apply Nat.ltb_lt; by vm_compute.
  - cbn [Catalog.idsAll]. rewrite !Forall_cons, Forall_nil.
    repeat split; by vm_compute.
  - rewrite !Forall_cons, Forall_nil. repeat split; by vm_compute.
Defined.

(** ** Notes from icons *)

Section icon_facts.

Lemma HasSuffix_suffix (s suffix : string) :
  Icons.HasSuffix s suffix = true
  ↔ GoString.bytes suffix `suffix_of` GoString.bytes s.
Proof.
  unfold Icons.HasSuffix. rewrite <- !length_bytes.
  rewrite andb_true_iff, Nat.leb_le, bool_decide_eq_true. split.
  - intros [_ <-]. eexists. symmetry. apply take_drop.
  - intros [k ->]. rewrite length_app. split; [lia|].
    replace (length k + length (GoString.bytes suffix)
             - length (GoString.bytes suffix)) with (length k) by lia.
    by rewrite drop_app_length.
Qed.

Lemma bytes_inj (s t : string) : GoString.bytes s = GoString.bytes t → s = t.
Proof.
  intros H. rewrite <- (of_bytes_bytes s), <- (of_bytes_bytes t).
  by rewrite H.
Qed.

(** No key of the table ends another key. *)
Lemma notesImg_keys :
  Forall (λ p : string * string,
    Forall (λ q : string * string,
      Icons.HasSuffix q.1 p.1 = true → p = q)
      (map_to_list Icons.notesImg))
    (map_to_list Icons.notesImg).
Proof. apply (bool_decide_unpack _). by vm_compute. Qed.

(** So at most one entry of the table ends a given URL. *)
Lemma notesImg_unique (imgUrl : string) (p q : string * string) :
  p ∈ map_to_list Icons.notesImg → q ∈ map_to_list Icons.notesImg →
  Icons.HasSuffix imgUrl p.1 = true → Icons.HasSuffix imgUrl q.1 = true →
  p = q.
Proof.
  intros Hp Hq Hsp Hsq. pose proof notesImg_keys as Hk.
  rewrite Forall_forall in Hk.
  pose proof (Hk p Hp) as Hkp. pose proof (Hk q Hq) as Hkq.
  rewrite Forall_forall in Hkp, Hkq.
  apply HasSuffix_suffix in Hsp, Hsq.
  destruct (suffix_weak_total _ _ _ Hsp Hsq) as [H|H];
    apply HasSuffix_suffix in H.
  - by apply Hkp.
  - symmetry. by apply Hkq.
Qed.

Lemma lookup_Some (order : list (string * string)) (imgUrl note : string) :
  Icons.lookup order imgUrl = Some note →
  ∃ suffix, (suffix, note) ∈ order ∧ Icons.HasSuffix imgUrl suffix = true.
Proof.
  induction order as [|[suffix n] order IH]; [done|]. cbn [Icons.lookup].
  destruct (Icons.HasSuffix imgUrl suffix) eqn:Hs.
  - intros [= ->]. exists suffix. split; [apply list_elem_of_here|done].
  - intros H. destruct (IH H) as (sfx & Hin & Hsfx).
    exists sfx. split; [by apply list_elem_of_further|done].
Qed.

Lemma lookup_None (order : list (string * string)) (imgUrl : string) :
  Icons.lookup order imgUrl = None →
  ∀ suffix note, (suffix, note) ∈ order →
                 Icons.HasSuffix imgUrl suffix = false.
Proof.
  induction order as [|[suffix n] order IH]; intros H sfx note Hin.
  - by apply elem_of_nil in Hin.
  - cbn [Icons.lookup] in H.
    destruct (Icons.HasSuffix imgUrl suffix) eqn:Hs; [done|].
    apply elem_of_cons in Hin as [[= -> ->]|Hin]; [done|]. by eapply IH.
Qed.

(** The note of an icon, in whatever order the table is visited. *)
Lemma lookup_visits (order : list (string * string)) (imgUrl note : string) :
  Icons.visits order →
  Icons.lookup order imgUrl = Some note
  ↔ ∃ suffix, Icons.notesImg !! suffix = Some note
              ∧ Icons.HasSuffix imgUrl suffix = true.
Proof.
  unfold Icons.visits. intros Hperm. split.
  - intros H. apply lookup_Some in H as (suffix & Hin & Hs).
    exists suffix. split; [|done].
    apply elem_of_map_to_list. by rewrite <- Hperm.
  - intros (suffix & Hin & Hs). apply elem_of_map_to_list in Hin.
    destruct (Icons.lookup order imgUrl) as [n|] eqn:Hl.
    + apply lookup_Some in Hl as (sfx & Hin' & Hs').
      rewrite Hperm in Hin'.
      by pose proof (notesImg_unique imgUrl _ _ Hin Hin' Hs Hs')
        as [= <- <-].
    + rewrite <- Hperm in Hin.
      pose proof (lookup_None _ _ Hl _ _ Hin) as Hf. congruence.
Qed.

Lemma lookup_order (order1 order2 : list (string * string))
    (imgUrl : string) :
  Icons.visits order1 → Icons.visits order2 →
  Icons.lookup order1 imgUrl = Icons.lookup order2 imgUrl.
Proof.
  intros H1 H2.
  destruct (Icons.lookup order1 imgUrl) as [n|] eqn:Hl.
  - symmetry. apply lookup_visits; [done|]. by apply (lookup_visits order1).
  - destruct (Icons.lookup order2 imgUrl) as [n|] eqn:Hl'; [|done].
    apply (lookup_visits order2) in Hl'; [|done].
    apply (lookup_visits order1) in Hl'; [|done]. congruence.
Qed.

Lemma icons_cons (order : list (string * string)) (imgUrl : string)
    (imgs : list (list (string * string) * string)) (notes : list string) :
  Icons.icons ((order, imgUrl) :: imgs) notes
  = Icons.icons imgs (Icons.icon order imgUrl notes).
Proof. done. Qed.

End icon_facts.

(** X18: the note of an icon does not depend on the order in which the
    [range] visits the map: an icon gets the note [note] exactly when the
    table has an entry for [note] whose key ends the URL of the icon, and
    there is at most one such entry, since no key of the table ends
    another. *)
Theorem icon_note (order : list (string * string)) (imgUrl : string) :
  Icons.visits order →
  (∀ note, Icons.lookup order imgUrl = Some note
           ↔ ∃ suffix, Icons.notesImg !! suffix = Some note
                       ∧ Icons.HasSuffix imgUrl suffix = true)
  ∧ (∀ suffix1 suffix2,
       is_Some (Icons.notesImg !! suffix1) →
       is_Some (Icons.notesImg !! suffix2) →
       Icons.HasSuffix imgUrl suffix1 = true →
       Icons.HasSuffix imgUrl suffix2 = true →
       suffix1 = suffix2).
Proof.
  intros Hperm. split.
  - intros note. by apply lookup_visits.
  - intros s1 s2 [n1 H1] [n2 H2] Hs1 Hs2.
    apply elem_of_map_to_list in H1, H2.
    by pose proof (notesImg_unique imgUrl _ _ H1 H2 Hs1 Hs2) as [= -> _].
Qed.

Lemma icon_note_witness :
  Icons.lookup (reverse (map_to_list Icons.notesImg)) "/icons/15.png"
  = Some "vegan"
  ↔ ∃ suffix, Icons.notesImg !! suffix = Some "vegan"
              ∧ Icons.HasSuffix "/icons/15.png" suffix = true.
Proof.
  apply (icon_note (reverse (map_to_list Icons.notesImg)) "/icons/15.png").
  unfold Icons.visits. apply reverse_Permutation.
Defined.

(** X19: the notes that the icons of a meal add are the same whatever the
    orders in which the map is visited, icon by icon: two runs of the loop
    over the same URLs give the same notes, in the order of the icons, at
    most one per icon. *)
Theorem icons_order_independent
    (imgs1 imgs2 : list (list (string * string) * string))
    (notes : list string) :
  imgs1.*2 = imgs2.*2 →
  Forall Icons.visits imgs1.*1 → Forall Icons.visits imgs2.*1 →
  Icons.icons imgs1 notes = Icons.icons imgs2 notes
  ∧ notes `prefix_of` Icons.icons imgs1 notes
  ∧ length (Icons.icons imgs1 notes) ≤ length notes + length imgs1.
Proof.
  revert imgs2 notes.
  induction imgs1 as [|[o1 u1] imgs1 IH]; intros [|[o2 u2] imgs2] notes;
    cbn [fmap list_fmap fst snd]; intros Hu H1 H2; try done.
  - cbn. split; [done|]. split; [done|lia].
  - injection Hu as -> Hu.
    apply Forall_cons in H1 as [Ho1 H1]. apply Forall_cons in H2 as [Ho2 H2].
    rewrite !icons_cons. cbn [length].
    unfold Icons.icon. rewrite (lookup_order o1 o2 u2 Ho1 Ho2).
    destruct (Icons.lookup o2 u2) as [note|].
    + destruct (IH imgs2 (notes ++ [note]) Hu H1 H2) as (He & Hp & Hl).
      split; [done|]. split.
      * etrans; [|exact Hp]. by apply prefix_app_r.
      * rewrite length_app in Hl. cbn [length] in Hl. lia.
    + destruct (IH imgs2 notes Hu H1 H2) as (He & Hp & Hl).
      split; [done|]. split; [done|lia].
Qed.

Lemma icons_order_independent_witness :
  Icons.icons [(map_to_list Icons.notesImg, "/icons/15.png");
               (map_to_list Icons.notesImg, "/icons/1.png")] []
  = Icons.icons [(reverse (map_to_list Icons.notesImg), "/icons/15.png");
                 (reverse (map_to_list Icons.notesImg), "/icons/1.png")] [].
Proof.
  refine (proj1 (icons_order_independent
           [(map_to_list Icons.notesImg, "/icons/15.png");
            (map_to_list Icons.notesImg, "/icons/1.png")]
           [(reverse (map_to_list Icons.notesImg), "/icons/15.png");
            (reverse (map_to_list Icons.notesImg), "/icons/1.png")]
           [] _ _ _)).
  - reflexivity.
  - cbn [fmap list_fmap fst]. rewrite !Forall_cons, Forall_nil.
    by unfold Icons.visits.
  - cbn [fmap list_fmap fst]. rewrite !Forall_cons, Forall_nil.
    unfold Icons.visits. repeat split; apply reverse_Permutation.
Defined.

(** ** The index file *)

Section index_facts.

Context (Marshal : string → list ascii).

(** A write at the end of the file appends. *)
Lemma Write_end (f : Index.File) (p : list ascii) :
  Index.pos f = length (Index.data f) →
  Index.Write f p
  = {| Index.data := Index.data f ++ p;
       Index.pos := length (Index.data f ++ p) |}.
Proof.
  intros Hp. unfold Index.Write. rewrite Hp, resize_all.
  rewrite drop_ge by lia. by rewrite app_nil_r, length_app.
Qed.

Lemma entries_end (ids : list string) : ∀ f : Index.File,
  Index.pos f = length (Index.data f) →
  foldl (λ file id, Index.Write file (Index.entry Marshal id)) f ids
  = {| Index.data := Index.data f ++ concat (Index.entry Marshal <$> ids);
       Index.pos :=
         length (Index.data f ++ concat (Index.entry Marshal <$> ids)) |}.
Proof.
  induction ids as [|id ids IH]; intros f Hp.
  - cbn. rewrite app_nil_r. destruct f. cbn in *. by rewrite Hp.
  - cbn [foldl fmap list_fmap concat]. rewrite Write_end by done.
    rewrite IH by done. cbn [Index.data]. by rewrite <- !app_assoc.
Qed.

Lemma entry_member (id : string) :
  Index.entry Marshal id
  = Index.member Marshal id ++ GoString.bytes "," ++ [Persist.newline].
Proof. unfold Index.entry, Index.member. by rewrite <- !app_assoc. Qed.

(** The entries are the members with a comma and a newline between them,
    and one more comma and newline at the end. *)
Lemma entries_joined (id : string) (ids : list string) :
  concat (Index.entry Marshal <$> id :: ids)
  = Index.joined (GoString.bytes "," ++ [Persist.newline])
      (Index.member Marshal <$> id :: ids)
    ++ GoString.bytes "," ++ [Persist.newline].
Proof.
  revert id. induction ids as [|id' ids IH]; intros id.
  - cbn [fmap list_fmap concat Index.joined].
    by rewrite app_nil_r, entry_member.
  - change (concat (Index.entry Marshal <$> id :: id' :: ids))
      with (Index.entry Marshal id
            ++ concat (Index.entry Marshal <$> id' :: ids)).
    change (Index.joined (GoString.bytes "," ++ [Persist.newline])
              (Index.member Marshal <$> id :: id' :: ids))
      with (Index.member Marshal id
            ++ (GoString.bytes "," ++ [Persist.newline])
            ++ Index.joined (GoString.bytes "," ++ [Persist.newline])
                 (Index.member Marshal <$> id' :: ids)).
    rewrite IH, entry_member. by rewrite <- !app_assoc.
Qed.

(** Overwriting the last two bytes of a file that ends in them. *)
Lemma Write_over (body tail p : list ascii) :
  length tail = 2 → 2 ≤ length p →
  Index.data
    (Index.Write
       (Index.Seek_cur {| Index.data := body ++ tail;
                          Index.pos := length (body ++ tail) |} (-2)) p)
  = body ++ p.
Proof.
  intros Ht Hp. unfold Index.Seek_cur. cbn [Index.pos Index.data].
  rewrite length_app, Ht. rewrite decide_True by lia.
  unfold Index.Write. cbn [Index.pos Index.data].
  replace (Z.to_nat (Z.of_nat (length body + 2) + -2)) with (length body)
    by lia.
  rewrite resize_le by (rewrite length_app; lia).
  rewrite take_app_length.
  rewrite drop_ge by (rewrite length_app; lia).
  by rewrite app_nil_r.
Qed.

End index_facts.

(** X20: what [genIndex] leaves in the index file, whatever the JSON
    encoder gives.  With identifiers, it is an opening brace, one member
    per identifier in order, a comma and a newline between each two and
    none after the last, and the closing brace.  Without identifiers the
    closing line is written over the opening brace: the file is a newline,
    a closing brace and a newline, and no JSON object.  The archived
    identifiers play no part. *)
Theorem genIndex_content (Marshal : string → list ascii)
    (idsCur idsArchived : list string) (fs : Persist.FS) :
  Index.indexFile ∉ Persist.denied fs →
  Index.genIndex Marshal idsCur idsArchived fs
  = (None,
     {| Persist.files :=
          <[Index.indexFile :=
              match idsCur with
              | [] => [Persist.newline] ++ GoString.bytes "}"
                      ++ [Persist.newline]
              | _ =>
                  (GoString.bytes "{" ++ [Persist.newline])
                  ++ Index.joined (GoString.bytes "," ++ [Persist.newline])
                       (Index.member Marshal <$> idsCur)
                  ++ [Persist.newline] ++ GoString.bytes "}"
                  ++ [Persist.newline]
              end]> (Persist.files fs);
        Persist.denied := Persist.denied fs |}).
Proof.
  intros Hc. unfold Index.genIndex. rewrite decide_False by done.
  rewrite (Write_end Index.Create) by done.
  rewrite entries_end by done. cbn [Index.data Index.Create].
  do 3 f_equal. destruct idsCur as [|id ids].
  - cbn [fmap list_fmap concat]. rewrite app_nil_r.
    apply (Write_over [] (GoString.bytes "{" ++ [Persist.newline]));
      [done|cbn; lia].
  - rewrite entries_joined.
    rewrite (app_assoc _ _ (GoString.bytes "," ++ [Persist.newline])).
    rewrite Write_over; [|done|cbn; lia]. by rewrite <- !app_assoc.
Qed.

Lemma genIndex_content_witness :
  Index.genIndex GoString.bytes ["101"; "102"] ["100"]
    {| Persist.files := ∅; Persist.denied := ∅ |}
  = (None,
     {| Persist.files :=
          {[ Index.indexFile :=
               (GoString.bytes "{" ++ [Persist.newline])
               ++ Index.joined (GoString.bytes "," ++ [Persist.newline])
                    (Index.member GoString.bytes <$> ["101"; "102"])
               ++ [Persist.newline] ++ GoString.bytes "}"
               ++ [Persist.newline] ]};
        Persist.denied := ∅ |}).
Proof.
  apply (genIndex_content GoString.bytes ["101"; "102"] ["100"]
           {| Persist.files := ∅; Persist.denied := ∅ |}).
  simpl. apply not_elem_of_empty.
Defined.

(** ** Identifiers, names and the index as maps *)

Section registry_facts.

(** The loop of [fetchIDs] never stops early; for each identifier the last
    option decides. *)
Lemma fetchIDs_loop_spec (options : list (string * string)) :
  ∀ ids0 : gmap string string,
  ∃ ids : gmap string string,
    Registry.fetchIDs_loop options ids0 = Ok ids
    ∧ (∀ id name,
         ids !! id = Some name
         ↔ (∃ pre text post,
              options = pre ++ (id, text) :: post ∧ (id ∉ post.*1)
              ∧ SafeName.safeName text = Ok name)
           ∨ ((id ∉ options.*1) ∧ ids0 !! id = Some name))
    ∧ size ids ≤ size ids0 + length options.
Proof.
  induction options as [|[v t] rest IH]; intros ids0.
  - exists ids0. split; [done|]. split; [|cbn; lia].
    intros id name. split.
    + intros H. right. split; [apply not_elem_of_nil|done].
    + intros [(pre & text & post & Hnil & _)|[_ H]]; [|done].
      by destruct pre.
  - cbn [Registry.fetchIDs_loop].
    rewrite safeName_refines, bind_Ok.
    set (n := GoString.of_bytes
                (SafeNameSpec.name false false (SafeNameSpec.runes t))).
    destruct (IH (<[v := n]> ids0)) as (ids & Hrun & Hlook & Hsize).
    exists ids. split; [done|]. split.
    + intros id name. rewrite Hlook. split.
      * intros [(pre & text & post & -> & Hpost & Hname)|[Hid Hin]].
        -- left. by exists ((v, t) :: pre), text, post.
        -- destruct (decide (id = v)) as [->|Hne].
           ++ rewrite lookup_insert_eq in Hin. injection Hin as <-.
              left. exists [], t, rest.
              split; [done|]. split; [done|]. apply safeName_refines.
           ++ rewrite lookup_insert_ne in Hin by done. right.
              split; [|done]. cbn [fmap list_fmap fst].
              by apply not_elem_of_cons.
      * intros [(pre & text & post & Heq & Hpost & Hname)|[Hid Hin]].
        -- destruct pre as [|p pre].
           ++ cbn [app] in Heq. injection Heq as -> -> ->.
              right. split; [done|]. rewrite lookup_insert_eq.
              rewrite safeName_refines in Hname. by injection Hname as <-.
           ++ cbn [app] in Heq. injection Heq as <- ->.
              left. by exists pre, text, post.
        -- cbn [fmap list_fmap fst] in Hid.
           apply not_elem_of_cons in Hid as [Hne Hid].
           right. split; [done|]. by rewrite lookup_insert_ne.
    + cbn [length]. rewrite map_size_insert in Hsize.
      destruct (ids0 !! v); cbn in Hsize; lia.
Qed.

(** The index after any part of the visit. *)
Lemma index_loop (order : list (string * string)) :
  ∀ (index0 : gmap string string),
  let index :=
    foldl (λ index entry, <[entry.2 := Registry.url entry.2]> index)
      index0 order in
  (∀ name u,
     index !! name = Some u
     ↔ (u = Registry.url name ∧ name ∈ order.*2)
       ∨ ((name ∉ order.*2) ∧ index0 !! name = Some u))
  ∧ size index ≤ size index0 + length order.
Proof.
  induction order as [|[id n] order IH]; intros index0; cbn zeta.
  - cbn. split; [|lia]. intros name u. split.
    + intros H. right. split; [apply not_elem_of_nil|done].
    + intros [[_ H]|[_ H]]; [by apply elem_of_nil in H|done].
  - cbn [foldl snd length fmap list_fmap].
    destruct (IH (<[n := Registry.url n]> index0)) as [Hlook Hsize].
    split.
    + intros name u. rewrite Hlook, !not_elem_of_cons, elem_of_cons. split.
      * intros [[-> Hin]|[Hnin Hin]]; [left; by auto|].
        destruct (decide (n = name)) as [->|Hne].
        -- rewrite lookup_insert_eq in Hin. injection Hin as <-.
           left. by auto.
        -- rewrite lookup_insert_ne in Hin by done. right. by auto.
      * intros [[-> [->|Hin]]|[[Hne Hnin] Hin]].
        -- destruct (decide (n ∈ order.*2)); [left; by auto|].
           right. split; [done|]. by rewrite lookup_insert_eq.
        -- left. by auto.
        -- right. split; [done|]. by rewrite lookup_insert_ne.
    + rewrite map_size_insert in Hsize.
      destruct (index0 !! n); cbn in Hsize; lia.
Qed.

(** What [safeName] returns has the shape of a directory name. *)
Lemma safeName_shape (text name : string) :
  SafeName.safeName text = Ok name →
  Forall (λ b, SafeNameSpec.safe b = true) (GoString.bytes name)
  ∧ head (GoString.bytes name) ≠ Some "_"%char
  ∧ last (GoString.bytes name) ≠ Some "_"%char.
Proof.
  rewrite safeName_refines. intros [= <-]. rewrite bytes_of_bytes.
  split; [apply name_safe|]. split.
  - destruct (name_head (SafeNameSpec.runes text) false)
      as [->|(x & l & -> & Hx)]; [done|].
    cbn. intros [= ->]. by vm_compute in Hx.
  - destruct (name_last (SafeNameSpec.runes text) false false)
      as [->|(x & -> & Hx)]; [done|].
    intros [= ->]. by vm_compute in Hx.
Qed.

End registry_facts.

(** X21: [fetchIDs] returns for every list of options, without a panic;
    the map it returns gives an identifier the safe name of the text of
    the last option that carries it, and has no other entry. *)
Theorem fetchIDs_last_option (options : list (string * string)) :
  ∃ ids : gmap string string,
    Registry.fetchIDs options = Ok ids
    ∧ (∀ id name,
         ids !! id = Some name
         ↔ ∃ pre text post,
             options = pre ++ (id, text) :: post ∧ (id ∉ post.*1)
             ∧ SafeName.safeName text = Ok name)
    ∧ size ids ≤ length options.
Proof.
  destruct (fetchIDs_loop_spec options ∅) as (ids & Hrun & Hlook & Hsize).
  exists ids. split; [done|]. split.
  - intros id name. rewrite Hlook. split; [|by left].
    intros [H|[_ H]]; [done|]. by rewrite lookup_empty in H.
  - by rewrite map_size_empty in Hsize.
Qed.

(** X22: the index of [updateIndex] is the same in whatever order the
    identifiers are visited: it has an entry for a name exactly when some
    identifier has that name, with the URL of the metadata file of that
    name, so identifiers with the same name share one entry; and every key
    is made of [a-z0-9_] only, with no underscore at either end. *)
Theorem updateIndex_index (options order : list (string * string))
    (ids : gmap string string) :
  Registry.fetchIDs options = Ok ids →
  order ≡ₚ map_to_list ids →
  (∀ name u,
     Registry.index order !! name = Some u
     ↔ u = Registry.url name ∧ ∃ id, ids !! id = Some name)
  ∧ (∀ name,
       is_Some (Registry.index order !! name) →
       Forall (λ b, SafeNameSpec.safe b = true) (GoString.bytes name)
       ∧ head (GoString.bytes name) ≠ Some "_"%char
       ∧ last (GoString.bytes name) ≠ Some "_"%char)
  ∧ size (Registry.index order) ≤ size ids.
Proof.
  intros Hrun Hperm.
  destruct (index_loop order ∅) as [Hlook Hsize].
  fold (Registry.index order) in Hlook, Hsize.
  assert (Hin : ∀ name, name ∈ order.*2 ↔ ∃ id, ids !! id = Some name).
  { intros name. rewrite list_elem_of_fmap. split.
    - intros ([id n] & -> & Hel). exists id.
      apply elem_of_map_to_list. by rewrite <- Hperm.
    - intros [id Hid]. exists (id, name). split; [done|].
      rewrite Hperm. by apply elem_of_map_to_list. }
  assert (Hl : ∀ name u,
            Registry.index order !! name = Some u
            ↔ u = Registry.url name ∧ ∃ id, ids !! id = Some name).
  { intros name u. rewrite Hlook, Hin. split; [|by left].
    intros [H|[_ H]]; [done|]. by rewrite lookup_empty in H. }
  split; [done|]. split.
  - intros name [u Hu]. apply Hl in Hu as [_ [id Hid]].
    destruct (fetchIDs_loop_spec options ∅) as (ids' & Hrun' & Hlook' & _).
    unfold Registry.fetchIDs in Hrun. rewrite Hrun in Hrun'.
    injection Hrun' as <-.
    apply Hlook' in Hid as [(_ & text & _ & _ & _ & Hname)|[_ H]].
    + by eapply safeName_shape.
    + by rewrite lookup_empty in H.
  - rewrite map_size_empty in Hsize.
    rewrite <- (length_map_to_list ids), <- Hperm. lia.
Qed.

Lemma updateIndex_index_witness :
  Registry.index [("322", "mensa_tu"); ("321", "mensa_tu")] !! "mensa_tu"
  = Some (Registry.url "mensa_tu")
  ↔ Registry.url "mensa_tu" = Registry.url "mensa_tu"
    ∧ ∃ id, ({[ "321" := "mensa_tu"; "322" := "mensa_tu" ]}
               : gmap string string) !! id = Some "mensa_tu".
Proof.
  refine (proj1 (updateIndex_index
                   [("321", "Mensa TU"); ("322", "Mensa-TU")]
                   [("322", "mensa_tu"); ("321", "mensa_tu")]
                   {[ "321" := "mensa_tu"; "322" := "mensa_tu" ]} _ _)
            "mensa_tu" (Registry.url "mensa_tu")).
  - by vm_compute.
  - apply (bool_decide_unpack _). by vm_compute.
Defined.
